(** * DotGridHero: a dot grid with a pointer-following highlight cluster

    A shallow embedding of the two Framer components of the repository:

    - [src/unnamed/part_000]: the plain variant (cluster highlight only);
    - [src/FRAMER_COMPONENT_dotGrid.tsx]: the trailing variant (cluster
      highlight plus the linger/fade trail driven by an animation-frame
      clock).

    Numbers.  A JavaScript [number] is modelled as an exact rational [Q];
    values that the code obtains through [Math.floor] and loop counters are
    integers [Z].  The model therefore covers finite numbers only: rounding
    of IEEE doubles, [NaN] and the infinities are outside of it, and a
    division is only meaningful where the divisor is not zero (the theorems
    that divide say so in a hypothesis).  Equality of computed rationals is
    [Qeq], written [==].  One function is modelled a second time on
    numbers that need not be finite: [blend], whose weight is any [number]
    ([Number.blend]).

    Strings.  A colour string is a [string]; a character that is not ASCII
    is never a hexadecimal digit, so bytes are as good as UTF-16 units for
    the colour helpers.

    Collections.  [Set<number>] is a [gset Z], [Map<number, number>] is a
    [gmap Z Q]; the code only tests membership, sets, deletes and asks for
    the size, so iteration order plays no role. *)

From Stdlib Require Import ZArith QArith Qround Qminmax Lia Lqa Ascii.
From stdpp Require Import gmap strings list.

Local Open Scope Z_scope.

(** ** Loops

    [for (let i = lo; i < lo + n; i++) body] threads a state through the
    integers [lo, lo+1, ..., lo+n-1]. *)

Definition for_range {S : Type} (lo n : Z) (body : S → Z → S) (s : S) : S :=
  foldl body s (seqZ lo n).

(** [for (let i = lo; i <= hi; i++) body] *)
Definition for_upto {S : Type} (lo hi : Z) (body : S → Z → S) (s : S) : S :=
  for_range lo (hi + 1 - lo) body s.

(** ** Comparisons of numbers: [a < b] and [a <= b] *)

Definition lt_num (a b : Q) : bool :=
  match (a ?= b)%Q with Lt => true | _ => false end.

Definition le_num (a b : Q) : bool := Qle_bool a b.

(** ** Properties of the component ([DotGridHeroProps])

    The destructured properties carry their defaults already
    ([dotSize = 16], [gap = 32], ...); the properties the code tests with
    [typeof props.p === "number"] are optional.  The plain variant declares
    no trail property and reads none. *)

Record DotGridHeroProps : Type := {
  dotSize : Q;
  gap : Q;
  baseColor : string;
  activeColor : string;
  backgroundColor : string;
  circleRadius : option Q;
  hoverSquareRadius : option Q;
  hoverDotCount : option Q;
  smoothIntensity : option Q;
  trailEnabled : bool;
  trailHoldMs : Q;
  trailFadeMs : Q
}.

Definition defaultProps : DotGridHeroProps := {|
  dotSize := 16;
  gap := 32;
  baseColor := "#5227FF";
  activeColor := "#FFFFFF";
  backgroundColor := "rgba(0, 0, 0, 0)";
  circleRadius := None;
  hoverSquareRadius := None;
  hoverDotCount := None;
  smoothIntensity := None;
  trailEnabled := false;
  trailHoldMs := 180;
  trailFadeMs := 520
|}.

(** [useState({ width: 0, height: 0 })] *)
Record Dimensions : Type := { width : Q; height : Q }.

(** [useState<{ x: number; y: number } | null>(null)] *)
Record Pointer : Type := { px : Q; py : Q }.

(** An element of [grid]: [{ x, y, col, row }]. *)
Module Dot.
Record t : Type := mk { x : Q; y : Q; col : Z; row : Z }.
End Dot.

(** ** Grid calculation (the [grid] memo, identical in both variants) *)

(** [cols] and [rows] are the code's numbers for a pitch [dotSize + gap]
    that is not zero, which is what the statements on the grid assume.
    For a pitch of zero the code divides by zero: the quotient is [NaN] or
    infinite there, where the division of [Q] gives [0]. *)
Section GridLayout.
Variables (dimensions : Dimensions) (dotSize gap : Q).

Definition cell : Q := (dotSize + gap)%Q.

Definition cols : Z :=
  Z.max 1 (Qfloor ((width dimensions + gap) / cell)%Q).

Definition rows : Z :=
  Z.max 1 (Qfloor ((height dimensions + gap) / cell)%Q).

Definition gridW : Q := (cell * inject_Z cols - gap)%Q.
Definition gridH : Q := (cell * inject_Z rows - gap)%Q.
Definition extraX : Q := (width dimensions - gridW)%Q.
Definition extraY : Q := (height dimensions - gridH)%Q.
Definition startX : Q := (extraX / 2 + dotSize / 2)%Q.
Definition startY : Q := (extraY / 2 + dotSize / 2)%Q.

Definition mkDot (row col : Z) : Dot.t :=
  {| Dot.x := (startX + inject_Z col * cell)%Q;
     Dot.y := (startY + inject_Z row * cell)%Q;
     Dot.col := col;
     Dot.row := row |}.

(** The two nested loops, [grid.push] appending at the end. *)
Definition grid : list Dot.t :=
  for_range 0 rows
    (λ g row, for_range 0 cols (λ g col, g ++ [mkDot row col]) g)
    [].
End GridLayout.

(** The grid of a component: [useMemo(..., [dimensions, dotSize, gap])]. *)
Definition gridOf (p : DotGridHeroProps) (d : Dimensions) : list Dot.t :=
  grid d (dotSize p) (gap p).
Definition colsOf (p : DotGridHeroProps) (d : Dimensions) : Z :=
  cols d (dotSize p) (gap p).
Definition rowsOf (p : DotGridHeroProps) (d : Dimensions) : Z :=
  rows d (dotSize p) (gap p).


(** ** Find hovered dot (the [hoveredDot] memo, identical in both variants)

    [Math.hypot(dx, dy)] is the square root of [dx*dx + dy*dy], which is
    not a rational.  The scan only compares distances with [<], and the
    square root is strictly increasing on the non-negative numbers, so the
    model keeps the squares: [hypotSq dx dy = Math.hypot(dx, dy)^2], and
    [d < minDist] is decided on them.  [minDist = Infinity] is [None]. *)

Definition hypotSq (dx dy : Q) : Q := (dx * dx + dy * dy)%Q.

Definition distSq (hover : Pointer) (dot : Dot.t) : Q :=
  hypotSq (Dot.x dot - px hover) (Dot.y dot - py hover).

(** [d < minDist] *)
Definition below (d : Q) (minDist : option Q) : bool :=
  match minDist with
  | None => true
  | Some m => lt_num d m
  end.

(** The body of the scan; the state is [(minDist, idx)]. *)
Definition scanStep (grid : list Dot.t) (hover : Pointer)
    (st : option Q * Z) (i : Z) : option Q * Z :=
  match grid !! Z.to_nat i with
  | Some dot =>
      let d := distSq hover dot in
      if below d st.1 then (Some d, i) else st
  | None => st
  end.

Definition scan (grid : list Dot.t) (hover : Pointer) : option Q * Z :=
  for_range 0 (Z.of_nat (length grid)) (scanStep grid hover) (None, -1).

Definition hoveredDot (hover : option Pointer) (grid : list Dot.t)
    : option Dot.t :=
  match hover with
  | None => None
  | Some h =>
      let idx := (scan grid h).2 in
      if idx =? -1 then None else grid !! Z.to_nat idx
  end.

(** ** NxN cluster indices (the [activeSet] memo, identical in both
    variants) *)

(** [typeof props.hoverDotCount === "number" ? props.hoverDotCount : 5] *)
Definition countOf (hoverDotCount : option Q) : Q := default 5%Q hoverDotCount.

Definition hoverRadiusOf (hoverDotCount : option Q) : Z :=
  Qfloor (countOf hoverDotCount / 2)%Q.

Definition activeSet (hoveredDot : option Dot.t) (cols rows : Z)
    (hoverDotCount : option Q) : gset Z :=
  match hoveredDot with
  | None => ∅
  | Some hd =>
      let hoverRadius := hoverRadiusOf hoverDotCount in
      for_upto (- hoverRadius) hoverRadius
        (λ set dr,
           for_upto (- hoverRadius) hoverRadius
             (λ set dc,
                let r := Dot.row hd + dr in
                let c := Dot.col hd + dc in
                if (r <? 0) || (r >=? rows) || (c <? 0) || (c >=? cols)
                then set
                else {[ r * cols + c ]} ∪ set)
             set)
        ∅
  end.

(** ** Color helpers (identical in both variants) *)

Module Rgb.
Record t : Type := mk { r : Q; g : Q; b : Q }.
End Rgb.

(** The class [[a-f\d]] under the flag [i], with the value that
    [parseInt(_, 16)] gives the digit. *)
Definition hexDigitValue (c : ascii) : option Z :=
  let n := Z.of_N (N_of_ascii c) in
  if (48 <=? n) && (n <=? 57) then Some (n - 48)
  else if (97 <=? n) && (n <=? 102) then Some (n - 87)
  else if (65 <=? n) && (n <=? 70) then Some (n - 55)
  else None.

(** A group [([a-f\d]{2})] read by [parseInt(m[k], 16)]. *)
Definition hexPair (c1 c2 : ascii) : option Z :=
  hi ← hexDigitValue c1; lo ← hexDigitValue c2; Some (16 * hi + lo).

(** [hex.match(/^#?([a-f\d]{2})([a-f\d]{2})([a-f\d]{2})$/i)] with its three
    groups parsed. *)
Definition matchHex (hex : string) : option (Z * Z * Z) :=
  let body := match hex with
              | String "#" rest => rest
              | _ => hex
              end in
  match body with
  | String c1 (String c2 (String c3 (String c4 (String c5 (String c6
      EmptyString))))) =>
      r ← hexPair c1 c2; g ← hexPair c3 c4; b ← hexPair c5 c6;
      Some (r, g, b)
  | _ => None
  end.

Definition hexToRgb (hex : string) : Rgb.t :=
  match matchHex hex with
  | None => {| Rgb.r := 0; Rgb.g := 0; Rgb.b := 0 |}
  | Some (r, g, b) =>
      {| Rgb.r := inject_Z r; Rgb.g := inject_Z g; Rgb.b := inject_Z b |}
  end.

(** [Math.round(x)]: the nearest integer, a tie going up. *)
Definition round (x : Q) : Z := Qfloor (x + 0.5)%Q.

(** The digits of [toString(16)]. *)
Definition hexDigit (d : Z) : ascii :=
  if d <? 10 then ascii_of_N (Z.to_N (48 + d))
  else ascii_of_N (Z.to_N (87 + d)).

Fixpoint toString16_digits (fuel : nat) (v : Z) (acc : string) : string :=
  match fuel with
  | O => acc
  | S fuel' =>
      let acc' := String (hexDigit (v mod 16)) acc in
      if v / 16 =? 0 then acc' else toString16_digits fuel' (v / 16) acc'
  end.

(** [v.toString(16)] of an integer. *)
Definition toString16 (v : Z) : string :=
  if v <? 0
  then String "-" (toString16_digits (S (Z.to_nat (Z.log2 (- v)))) (- v) "")
  else toString16_digits (S (Z.to_nat (Z.log2 v))) v "".

(** [s.padStart(n, c)] *)
Definition padStart (n : nat) (c : ascii) (s : string) : string :=
  String.string_of_list_ascii (replicate (n - String.length s) c) +:+ s.

(** The function mapped over [[r, g, b]] in [rgbToHex]. *)
Definition channelHex (x : Q) : string :=
  let v := Z.max 0 (Z.min 255 (round x)) in
  padStart 2 "0" (toString16 v).

Definition rgbToHex (c : Rgb.t) : string :=
  "#" +:+ String.concat "" (channelHex <$> [Rgb.r c; Rgb.g c; Rgb.b c]).

Definition blend (a b : string) (t : Q) : string :=
  let ca := hexToRgb a in
  let cb := hexToRgb b in
  rgbToHex {| Rgb.r := (Rgb.r ca + (Rgb.r cb - Rgb.r ca) * t)%Q;
              Rgb.g := (Rgb.g ca + (Rgb.g cb - Rgb.g ca) * t)%Q;
              Rgb.b := (Rgb.b ca + (Rgb.b cb - Rgb.b ca) * t)%Q |}.

(** *** The weight of [blend] as a [number]

    The parameter [t] of [blend] is a [number]: besides the finite
    numbers, it can be [NaN], [Infinity] or [-Infinity].  The channels
    that [hexToRgb] returns are finite, so only [t] brings such a value
    in.  [Number.t A] adds the three values to the finite numbers [A]:
    [Q] for a number, [Z] for the result of [Math.round].  The operations
    below are the ones [blend] and [rgbToHex] apply, with what they do on
    the three values; on finite numbers they are the operations of the
    definitions above.  A negative zero is not told from zero: the two
    multiply an infinity to [NaN] alike, and both print as [0]. *)
Module Number.
Inductive t (A : Type) : Type :=
| Finite (a : A)
| Infinity
| NegInfinity
| NaN.
Arguments Finite {A} a.
Arguments Infinity {A}.
Arguments NegInfinity {A}.
Arguments NaN {A}.

(** [x + y] *)
Definition add (x y : t Q) : t Q :=
  match x, y with
  | NaN, _ | _, NaN => NaN
  | Finite a, Finite b => Finite (a + b)%Q
  | Infinity, NegInfinity | NegInfinity, Infinity => NaN
  | Infinity, _ | _, Infinity => Infinity
  | NegInfinity, _ | _, NegInfinity => NegInfinity
  end.

(** [x - y] *)
Definition sub (x y : t Q) : t Q :=
  match x, y with
  | NaN, _ | _, NaN => NaN
  | Finite a, Finite b => Finite (a - b)%Q
  | Infinity, Infinity | NegInfinity, NegInfinity => NaN
  | Infinity, _ | _, NegInfinity => Infinity
  | NegInfinity, _ | _, Infinity => NegInfinity
  end.

(** An infinity of the given sign times [y]: [NaN] for a zero. *)
Definition timesInfinity (positive : bool) (y : t Q) : t Q :=
  let same := if positive then Infinity else NegInfinity in
  let other := if positive then NegInfinity else Infinity in
  match y with
  | NaN => NaN
  | Infinity => same
  | NegInfinity => other
  | Finite b =>
      match (b ?= 0)%Q with
      | Eq => NaN
      | Gt => same
      | Lt => other
      end
  end.

(** [x * y] *)
Definition mul (x y : t Q) : t Q :=
  match x, y with
  | Finite a, Finite b => Finite (a * b)%Q
  | NaN, _ | _, NaN => NaN
  | Infinity, _ => timesInfinity true y
  | NegInfinity, _ => timesInfinity false y
  | _, Infinity => timesInfinity true x
  | _, NegInfinity => timesInfinity false x
  end.

(** [Math.round(x)] *)
Definition round (x : t Q) : t Z :=
  match x with
  | Finite a => Finite (round a)
  | Infinity => Infinity
  | NegInfinity => NegInfinity
  | NaN => NaN
  end.

(** [Math.min(255, x)] *)
Definition min255 (x : t Z) : t Z :=
  match x with
  | Finite a => Finite (Z.min 255 a)
  | Infinity => Finite 255
  | NegInfinity => NegInfinity
  | NaN => NaN
  end.

(** [Math.max(0, x)] *)
Definition max0 (x : t Z) : t Z :=
  match x with
  | Finite a => Finite (Z.max 0 a)
  | Infinity => Infinity
  | NegInfinity => Finite 0
  | NaN => NaN
  end.

(** [v.toString(16)] *)
Definition toString16 (v : t Z) : string :=
  match v with
  | Finite a => toString16 a
  | Infinity => "Infinity"
  | NegInfinity => "-Infinity"
  | NaN => "NaN"
  end.

(** The function mapped over [[r, g, b]] in [rgbToHex]. *)
Definition channelHex (x : t Q) : string :=
  let v := max0 (min255 (round x)) in
  padStart 2 "0" (toString16 v).

Definition rgbToHex (r g b : t Q) : string :=
  "#" +:+ String.concat "" (channelHex <$> [r; g; b]).

Definition blend (a b : string) (w : t Q) : string :=
  let ca := hexToRgb a in
  let cb := hexToRgb b in
  rgbToHex
    (add (Finite (Rgb.r ca))
       (mul (sub (Finite (Rgb.r cb)) (Finite (Rgb.r ca))) w))
    (add (Finite (Rgb.g ca))
       (mul (sub (Finite (Rgb.g cb)) (Finite (Rgb.g ca))) w))
    (add (Finite (Rgb.b ca))
       (mul (sub (Finite (Rgb.b cb)) (Finite (Rgb.b ca))) w)).
End Number.

(** ** Render

    What the component emits for a dot: the attributes of its [<circle>]. *)

Record Circle : Type := {
  cx : Q;
  cy : Q;
  radius : Q;
  fill : string;
  transition : string
}.

(** [typeof props.smoothIntensity === "number" ? props.smoothIntensity
    : 0.95] *)
Definition intensityOf (p : DotGridHeroProps) : Q :=
  default 0.95%Q (smoothIntensity p).

(** [typeof props.circleRadius === "number" ? props.circleRadius
    : dotSize / 2] *)
Definition baseRadiusOf (p : DotGridHeroProps) : Q :=
  default (dotSize p / 2)%Q (circleRadius p).

(** Distance-based scale falloff, the same lines in both variants:
    [scale = 1 + intensity * Math.max(0, t)]. *)
Definition gridDist (dot hd : Dot.t) : Z :=
  let dRow := Z.abs (Dot.row dot - Dot.row hd) in
  let dCol := Z.abs (Dot.col dot - Dot.col hd) in
  Z.max dRow dCol.

Definition falloffScale (p : DotGridHeroProps) (dist : Z) : Q :=
  let maxDist := Qfloor (countOf (hoverDotCount p) / 2)%Q in
  let t := (1 - inject_Z dist
                / inject_Z (if maxDist =? 0 then 1 else maxDist))%Q in
  let intensity := intensityOf p in
  (1 + intensity * Qmax 0 t)%Q.

(** [hover && activeSet.has(i) && hoveredDot] *)
Definition hoverActive (hover : option Pointer) (hovered : option Dot.t)
    (active : gset Z) (i : Z) : option Dot.t :=
  match hover, hovered with
  | Some _, Some hd => if bool_decide (i ∈ active) then Some hd else None
  | _, _ => None
  end.

(** *** The plain variant ([src/unnamed/part_000]) *)

Module Plain.

(** The [transition] style of a circle while the pointer is present. *)
Definition transitionOn : string :=
  "r 0.22s cubic-bezier(.4,1.2,.4,1), fill 0.18s cubic-bezier(.4,1.2,.4,1)".

Definition renderDot (p : DotGridHeroProps) (hover : option Pointer)
    (hovered : option Dot.t) (active : gset Z) (i : nat) (dot : Dot.t)
    : Circle :=
  let '(scale, color) :=
    match hoverActive hover hovered active (Z.of_nat i) with
    | Some hd => (falloffScale p (gridDist dot hd), activeColor p)
    | None => (1%Q, baseColor p)
    end in
  let baseRadius := baseRadiusOf p in
  {| cx := Dot.x dot;
     cy := Dot.y dot;
     radius := (baseRadius * scale)%Q;
     fill := color;
     transition :=
       if bool_decide (is_Some hover) then transitionOn else "none" |}.

Definition render (p : DotGridHeroProps) (d : Dimensions)
    (hover : option Pointer) : list Circle :=
  let grid := gridOf p d in
  let hovered := hoveredDot hover grid in
  let active := activeSet hovered (colsOf p d) (rowsOf p d)
                  (hoverDotCount p) in
  imap (renderDot p hover hovered active) grid.

End Plain.

(** *** The trailing variant ([src/FRAMER_COMPONENT_dotGrid.tsx]) *)

Module Trail.

(** The [transition] style of a circle while [useTransition] holds. *)
Definition transitionOn : string :=
  "r 0.18s cubic-bezier(.4,1.2,.4,1), fill 0.14s cubic-bezier(.4,1.2,.4,1)".

(** [getTrailLevel]; [lastHit] is [lastHitRef.current] and [now] the
    clock state. *)
Definition getTrailLevel (p : DotGridHeroProps) (lastHit : gmap Z Q)
    (now : Q) (i : Z) : Q :=
  if negb (trailEnabled p) then 0%Q
  else
    match lastHit !! i with
    | None => 0%Q
    | Some hit =>
        let hold := Qmax 0 (trailHoldMs p) in
        let fade := Qmax 0 (trailFadeMs p) in
        let elapsed := (now - hit)%Q in
        if le_num elapsed hold then 1%Q
        else if le_num fade 0 then 0%Q
        else
          let t := ((elapsed - hold) / fade)%Q in
          Qmax 0 (Qmin 1 (1 - t))
    end.

(** [level] and [scaleTarget] of a dot. *)
Definition levelAndScale (p : DotGridHeroProps) (hover : option Pointer)
    (hovered : option Dot.t) (active : gset Z) (lastHit : gmap Z Q)
    (now : Q) (i : nat) (dot : Dot.t) : Q * Q :=
  match hoverActive hover hovered active (Z.of_nat i) with
  | Some hd => (1%Q, falloffScale p (gridDist dot hd))
  | None =>
      let level := getTrailLevel p lastHit now (Z.of_nat i) in
      if lt_num 0 level then (level, (1 + intensityOf p)%Q)
      else (level, 1%Q)
  end.

Definition renderDot (p : DotGridHeroProps) (hover : option Pointer)
    (hovered : option Dot.t) (active : gset Z) (lastHit : gmap Z Q)
    (now : Q) (i : nat) (dot : Dot.t) : Circle :=
  let baseRadius := baseRadiusOf p in
  let '(level, scaleTarget) :=
    levelAndScale p hover hovered active lastHit now i dot in
  let color :=
    if lt_num 0 level then blend (baseColor p) (activeColor p) level
    else baseColor p in
  let scale := (1 + (scaleTarget - 1) * level)%Q in
  let r := (baseRadius * scale)%Q in
  let useTransition :=
    bool_decide (is_Some hover)
    || (trailEnabled p && bool_decide (0 < size lastHit)%nat) in
  {| cx := Dot.x dot;
     cy := Dot.y dot;
     radius := r;
     fill := color;
     transition := if useTransition then transitionOn else "none" |}.

Definition render (p : DotGridHeroProps) (d : Dimensions)
    (hover : option Pointer) (lastHit : gmap Z Q) (now : Q)
    : list Circle :=
  let grid := gridOf p d in
  let hovered := hoveredDot hover grid in
  let active := activeSet hovered (colsOf p d) (rowsOf p d)
                  (hoverDotCount p) in
  imap (renderDot p hover hovered active lastHit now) grid.

(** **** The animation-frame clock

    The mutable cells of the component ([lastHitRef], [rafRef], the
    [now] state) together with what the host holds for it: the frame
    callbacks requested and neither run nor cancelled yet.  A handle of
    [requestAnimationFrame] is a positive integer, fresh at each call. *)

Record Clock : Type := {
  lastHitRef : gmap Z Q;
  rafRef : option Z;
  now : Q;
  pending : gset Z;
  nextHandle : Z
}.

Definition setNow (t : Q) (c : Clock) : Clock :=
  {| lastHitRef := lastHitRef c; rafRef := rafRef c; now := t;
     pending := pending c; nextHandle := nextHandle c |}.

Definition setLastHit (m : gmap Z Q) (c : Clock) : Clock :=
  {| lastHitRef := m; rafRef := rafRef c; now := now c;
     pending := pending c; nextHandle := nextHandle c |}.

Definition setRafRef (r : option Z) (c : Clock) : Clock :=
  {| lastHitRef := lastHitRef c; rafRef := r; now := now c;
     pending := pending c; nextHandle := nextHandle c |}.

(** [requestAnimationFrame(tick)]: the handle and the new state. *)
Definition requestAnimationFrame (c : Clock) : Z * Clock :=
  (nextHandle c,
   {| lastHitRef := lastHitRef c; rafRef := rafRef c; now := now c;
      pending := {[ nextHandle c ]} ∪ pending c;
      nextHandle := nextHandle c + 1 |}).

(** [cancelAnimationFrame(h)] *)
Definition cancelAnimationFrame (h : Z) (c : Clock) : Clock :=
  {| lastHitRef := lastHitRef c; rafRef := rafRef c; now := now c;
     pending := pending c ∖ {[ h ]};
     nextHandle := nextHandle c |}.

(** [if (rafRef.current) cancelAnimationFrame(rafRef.current);
    rafRef.current = null] (the handle 0 is falsy and left alone). *)
Definition cancelPending (c : Clock) : Clock :=
  let c' := match rafRef c with
            | Some h => if h =? 0 then c else cancelAnimationFrame h c
            | None => c
            end in
  setRafRef None c'.

(** [for (const [idx, hit] of lastHitRef.current.entries())
      if (t - hit > expire) lastHitRef.current.delete(idx)] *)
Definition evictExpired (t expire : Q) (m : gmap Z Q) : gmap Z Q :=
  foldl (λ m' '(idx, hit),
           if lt_num expire (t - hit)%Q then delete idx m' else m')
        m (map_to_list m).

(** [trailEnabled && (hover !== null || lastHitRef.current.size > 0)] *)
Definition needed (p : DotGridHeroProps) (hover : option Pointer)
    (m : gmap Z Q) : bool :=
  trailEnabled p
  && (bool_decide (is_Some hover) || bool_decide (0 < size m)%nat).

(** [tick], called by the host at time [t = performance.now()];
    [mounted] is the flag of the effect that created it. *)
Definition tick (p : DotGridHeroProps) (hover : option Pointer)
    (mounted : bool) (t : Q) (c : Clock) : Clock :=
  if negb mounted then c
  else
    let c := setNow t c in
    let hold := Qmax 0 (trailHoldMs p) in
    let fade := Qmax 0 (trailFadeMs p) in
    let expire := (hold + fade)%Q in
    let c :=
      if le_num expire 0 then setLastHit ∅ c
      else setLastHit (evictExpired t expire (lastHitRef c)) c in
    let stillNeeded := needed p hover (lastHitRef c) in
    if stillNeeded
    then let '(h, c) := requestAnimationFrame c in setRafRef (Some h) c
    else setRafRef None c.

(** The host runs the frame callback of handle [h]: a callback runs
    once, and not at all when it was cancelled. *)
Definition runFrame (p : DotGridHeroProps) (hover : option Pointer)
    (mounted : bool) (h : Z) (t : Q) (c : Clock) : Clock :=
  if bool_decide (h ∈ pending c)
  then tick p hover mounted t (cancelAnimationFrame h c)
  else c.

(** The body of the clock effect (dependencies [isStatic], [trailEnabled],
    [trailHoldMs], [trailFadeMs], [hover]). *)
Definition clockEffect (isStatic : bool) (p : DotGridHeroProps)
    (hover : option Pointer) (c : Clock) : Clock :=
  if isStatic then c
  else
    let shouldRun := needed p hover (lastHitRef c) in
    if negb shouldRun then cancelPending c
    else let '(h, c) := requestAnimationFrame c in setRafRef (Some h) c.

(** The cleanup of the clock effect (it also clears [mounted]). *)
Definition clockCleanup (c : Clock) : Clock := cancelPending c.

(** The effect that stamps the cluster: at time [t = performance.now()],
    [activeSet.forEach((idx) => lastHitRef.current.set(idx, t))] and
    [setNow(t)]. *)
Definition stampEffect (p : DotGridHeroProps) (hover : option Pointer)
    (active : gset Z) (t : Q) (c : Clock) : Clock :=
  if negb (trailEnabled p) then c
  else
    match hover with
    | None => c
    | Some _ =>
        setNow t
          (setLastHit
             (foldl (λ m idx, <[ idx := t ]> m) (lastHitRef c)
                (elements active))
             c)
    end.

(** The effect that clears the trail when it is turned off. *)
Definition clearEffect (p : DotGridHeroProps) (c : Clock) : Clock :=
  if trailEnabled p then c else setNow 0 (setLastHit ∅ c).

End Trail.

(** ** Size and pointer events (the same lines in both variants)

    [containerRef.current] is absent until the container is mounted; its
    [getBoundingClientRect()] is a rectangle in client coordinates. *)

Module DOMRect.
Record t : Type := mk { left : Q; top : Q; width : Q; height : Q }.
End DOMRect.

Record MouseEvent : Type := { clientX : Q; clientY : Q }.

(** [update], the size the component stores on mount and on resize. *)
Definition update (container : option DOMRect.t) (dimensions : Dimensions)
    : Dimensions :=
  match container with
  | None => dimensions
  | Some rect =>
      {| width := DOMRect.width rect; height := DOMRect.height rect |}
  end.

(** [handleMouseMove]: the pointer in the coordinates of the container. *)
Definition handleMouseMove (container : option DOMRect.t) (e : MouseEvent)
    (hover : option Pointer) : option Pointer :=
  match container with
  | None => hover
  | Some rect =>
      let x := (clientX e - DOMRect.left rect)%Q in
      let y := (clientY e - DOMRect.top rect)%Q in
      Some {| px := x; py := y |}
  end.

(** [handleMouseLeave] *)
Definition handleMouseLeave (hover : option Pointer) : option Pointer :=
  None.

(** ** Vocabulary of the statements *)

(** What the scan has found after the first [n] dots. *)
Definition scanned (grid : list Dot.t) (h : Pointer) (n : nat)
    (st : option Q * Z) : Prop :=
  match n with
  | O => st = (None, -1)
  | S _ =>
      ∃ (i : nat) (dot : Dot.t),
        st = (Some (distSq h dot), Z.of_nat i)
        ∧ (i < n)%nat
        ∧ grid !! i = Some dot
        ∧ (∀ (j : nat) (dj : Dot.t), (j < n)%nat → grid !! j = Some dj →
             (distSq h dot <= distSq h dj)%Q)
        ∧ (∀ (j : nat) (dj : Dot.t), (j < i)%nat → grid !! j = Some dj →
             (distSq h dot < distSq h dj)%Q)
  end.

(** The indices of a rectangle of the grid, row by row. *)
Definition rectIndices (cols r0 nr c0 nc : Z) : list Z :=
  seqZ r0 nr ≫= λ r, (λ c, r * cols + c) <$> seqZ c0 nc.

(** The body of the eviction loop, for a test [expired] of the timestamp. *)
Definition evictStep (expired : Q → bool) (m' : gmap Z Q) (kv : Z * Q)
    : gmap Z Q :=
  let '(idx, hit) := kv in if expired hit then delete idx m' else m'.

(** *** States of the animation-frame loop *)

(** No frame callback is requested. *)
Definition stopped (c : Trail.Clock) : Prop :=
  Trail.rafRef c = None ∧ Trail.pending c = ∅.

(** Exactly one frame callback is requested, and [rafRef] holds it. *)
Definition running (c : Trail.Clock) (h : Z) : Prop :=
  Trail.rafRef c = Some h ∧ Trail.pending c = {[ h ]}
  ∧ 0 < h < Trail.nextHandle c.

Definition clock_ok (c : Trail.Clock) : Prop :=
  0 < Trail.nextHandle c ∧ (stopped c ∨ ∃ h, running c h).

(** *** The component as a state machine *)

(** A mounted component that is not rendered statically, with fixed
    properties and container: the pointer moves or leaves, and the host
    runs frame callbacks.  When [hover] changes, React runs the cleanup of
    the clock effect, then the stamping effect and the clock effect, in
    the order of their declaration.  A move always changes [hover]: the
    handler stores a fresh object.  A leave changes it only when a pointer
    was stored: [setHover(null)] on a [hover] that is already [null]
    leaves the state as it is, no dependency of an effect changes, and
    neither a cleanup nor an effect runs.  A frame callback that is still
    requested belongs to the current clock effect, whose [mounted] flag is
    set: the cleanup of an earlier effect has cancelled the callback of
    that effect (lemma [run_ok] below). *)
Module Loop.
Record Comp : Type := { hover : option Pointer; clock : Trail.Clock }.

Inductive Event : Type :=
| Move (ptr : Pointer) (t : Q)
| Leave
| Frame (h : Z) (t : Q).

Section Run.
Variables (p : DotGridHeroProps) (d : Dimensions).

Definition activeFor (hover : option Pointer) : gset Z :=
  activeSet (hoveredDot hover (gridOf p d)) (colsOf p d) (rowsOf p d)
    (hoverDotCount p).

Definition rerun (hover' : option Pointer) (t : Q) (c : Trail.Clock)
    : Comp :=
  let c1 := Trail.clockCleanup c in
  let c2 := Trail.stampEffect p hover' (activeFor hover') t c1 in
  {| hover := hover'; clock := Trail.clockEffect false p hover' c2 |}.

Definition mount : Comp :=
  let c0 := {| Trail.lastHitRef := ∅; Trail.rafRef := None;
               Trail.now := 0; Trail.pending := ∅;
               Trail.nextHandle := 1 |} in
  let c1 := Trail.stampEffect p None (activeFor None) 0 c0 in
  let c2 := Trail.clearEffect p c1 in
  {| hover := None; clock := Trail.clockEffect false p None c2 |}.

Definition step (st : Comp) (e : Event) : Comp :=
  match e with
  | Move ptr t => rerun (Some ptr) t (clock st)
  | Leave =>
      match hover st with
      | Some _ => rerun None 0 (clock st)
      | None => st
      end
  | Frame h t =>
      {| hover := hover st;
         clock := Trail.runFrame p (hover st) true h t (clock st) |}
  end.

Definition run (es : list Event) : Comp := foldl step mount es.
End Run.
End Loop.

(** The events after which the effects run again: those that change
    [hover], a dependency of the stamping and of the clock effect.  A
    frame callback changes [now] only, which no effect depends on. *)
Definition hoverChanges (st : Loop.Comp) (e : Loop.Event) : bool :=
  match e with
  | Loop.Move _ _ => true
  | Loop.Leave => bool_decide (is_Some (Loop.hover st))
  | Loop.Frame _ _ => false
  end.

(** The loop is requested exactly when it is needed. *)
Definition loop_inv (p : DotGridHeroProps) (st : Loop.Comp) : Prop :=
  clock_ok (Loop.clock st)
  ∧ (Trail.needed p (Loop.hover st) (Trail.lastHitRef (Loop.clock st)) = true
     ↔ ∃ h, running (Loop.clock st) h).

(** *** Colour strings *)

(** The hexadecimal digits, and a colour string as the pattern of
    [hexToRgb] describes it: an optional [#], then exactly six
    hexadecimal digits. *)
Definition isHexDigit (c : ascii) : bool :=
  existsb (Ascii.eqb c)
    (String.list_ascii_of_string "0123456789abcdefABCDEF").

Definition isLowerHexDigit (c : ascii) : bool :=
  existsb (Ascii.eqb c) (String.list_ascii_of_string "0123456789abcdef").

Definition HexColor (s : string) : Prop :=
  ∃ body : string,
    (s = body ∨ s = String "#" body)
    ∧ String.length body = 6%nat
    ∧ forallb isHexDigit (String.list_ascii_of_string body) = true.

(** The lower-case letter of an upper-case one. *)
Definition toLower (c : ascii) : ascii :=
  let n := Z.of_N (N_of_ascii c) in
  if (65 <=? n) && (n <=? 90) then ascii_of_N (Z.to_N (n + 32)) else c.

(** [v] is the value of the hexadecimal digit [c]: its place among the
    sixteen digits, a capital letter counting as the small one. *)
Definition HexDigitOf (c : ascii) (v : Z) : Prop :=
  0 ≤ v < 16
  ∧ String.get (Z.to_nat v) "0123456789abcdef" = Some (toLower c).

(** The integer nearest to [x], clamped to [0, 255]. *)
Definition ClampedRound (x : Q) (v : Z) : Prop :=
  ∃ n : Z,
    (inject_Z n - 0.5 <= x)%Q ∧ (x < inject_Z n + 0.5)%Q
    ∧ v = Z.max 0 (Z.min 255 n).

(** The two hexadecimal digits of a byte. *)
Definition hex2 (v : Z) : string :=
  String (hexDigit (v / 16)) (String (hexDigit (v mod 16)) EmptyString).

(** A colour string in the lower-case spelling [#rrggbb]. *)
Definition normalizeHex (s : string) : string :=
  let body := match s with
              | String "#" rest => rest
              | _ => s
              end in
  String "#"
    (String.string_of_list_ascii
       (toLower <$> String.list_ascii_of_string body)).

(** *** Changing one property *)

Definition withHoverSquareRadius (v : option Q) (p : DotGridHeroProps)
    : DotGridHeroProps :=
  {| dotSize := dotSize p; gap := gap p; baseColor := baseColor p;
     activeColor := activeColor p; backgroundColor := backgroundColor p;
     circleRadius := circleRadius p; hoverSquareRadius := v;
     hoverDotCount := hoverDotCount p; smoothIntensity := smoothIntensity p;
     trailEnabled := trailEnabled p; trailHoldMs := trailHoldMs p;
     trailFadeMs := trailFadeMs p |}.

(** ** Lemmas on loops *)

Lemma for_range_nil {S : Type} (lo n : Z) (body : S → Z → S) (s : S) :
  n ≤ 0 → for_range lo n body s = s.
Proof. intros Hn. unfold for_range. by rewrite seqZ_nil. Qed.

Lemma for_range_push {A : Type} (f : Z → A) (lo n : Z) (g : list A) :
  for_range lo n (λ g i, g ++ [f i]) g = g ++ (f <$> seqZ lo n).
Proof.
  unfold for_range. generalize (seqZ lo n) as l. intros l.
  revert g. induction l as [|i l IH]; intros g; simpl.
  - by rewrite app_nil_r.
  - rewrite IH. by rewrite <- app_assoc.
Qed.

Lemma for_range_push_nested {A : Type} (f : Z → Z → A) (n m : Z)
    (g : list A) :
  for_range 0 n (λ g i, for_range 0 m (λ g j, g ++ [f i j]) g) g
  = g ++ (seqZ 0 n ≫= λ i, f i <$> seqZ 0 m).
Proof.
  unfold for_range at 1. generalize (seqZ 0 n) as l. intros l.
  revert g. induction l as [|i l IH]; intros g; cbn [foldl].
  - by rewrite app_nil_r.
  - rewrite for_range_push, IH, bind_cons. by rewrite <- app_assoc.
Qed.

(** Row-major lookup in a rectangle enumerated row by row. *)
Lemma lookup_row_major {A : Type} (f : Z → Z → A) (m : Z) :
  0 < m →
  ∀ (n r c : Z), 0 ≤ r < n → 0 ≤ c < m →
  (seqZ 0 n ≫= λ i, f i <$> seqZ 0 m) !! Z.to_nat (r * m + c)
  = Some (f r c).
Proof.
  intros Hm n r c Hr Hc.
  assert (Hgen : ∀ (k : nat) (lo : Z), 0 ≤ r - lo < Z.of_nat k →
    (seqZ lo (Z.of_nat k) ≫= λ i, f i <$> seqZ 0 m)
      !! Z.to_nat ((r - lo) * m + c) = Some (f r c)).
  { induction k as [|k IH]; intros lo Hlo; [lia|].
    rewrite (seqZ_cons lo) by lia. rewrite bind_cons.
    destruct (decide (r = lo)) as [->|Hne].
    - rewrite lookup_app_l by (rewrite length_fmap, length_seqZ; nia).
      rewrite list_lookup_fmap.
      replace ((lo - lo) * m + c) with c by lia.
      rewrite lookup_seqZ_lt by lia. simpl. f_equal. f_equal. lia.
    - rewrite lookup_app_r by (rewrite length_fmap, length_seqZ; nia).
      rewrite length_fmap, length_seqZ.
      replace (Z.to_nat ((r - lo) * m + c) - Z.to_nat m)%nat
        with (Z.to_nat ((r - Z.succ lo) * m + c)) by nia.
      replace (Z.pred (Z.of_nat (S k))) with (Z.of_nat k) by lia.
      apply IH. lia. }
  specialize (Hgen (Z.to_nat n) 0).
  rewrite Z2Nat.id in Hgen by lia.
  replace (r - 0) with r in Hgen by lia. apply Hgen. lia.
Qed.

Lemma length_row_major {A : Type} (f : Z → Z → A) (n m : Z) :
  0 ≤ n → 0 ≤ m →
  length (seqZ 0 n ≫= λ i, f i <$> seqZ 0 m) = Z.to_nat (n * m).
Proof.
  intros Hn Hm.
  assert (Hgen : ∀ (k : nat) (lo : Z),
    length (seqZ lo (Z.of_nat k) ≫= λ i, f i <$> seqZ 0 m)
    = (k * Z.to_nat m)%nat).
  { induction k as [|k IH]; intros lo; [done|].
    rewrite (seqZ_cons lo) by lia. rewrite bind_cons.
    rewrite length_app, length_fmap, length_seqZ.
    replace (Z.pred (Z.of_nat (S k))) with (Z.of_nat k) by lia.
    by rewrite IH. }
  specialize (Hgen (Z.to_nat n) 0). rewrite Z2Nat.id in Hgen by lia.
  rewrite Hgen. nia.
Qed.

(** ** The grid *)

Lemma grid_row_major (d : Dimensions) (ds g : Q) :
  grid d ds g
  = seqZ 0 (rows d ds g) ≫= λ r, mkDot d ds g r <$> seqZ 0 (cols d ds g).
Proof. unfold grid. by rewrite for_range_push_nested. Qed.

Lemma cols_pos (d : Dimensions) (ds g : Q) : 1 ≤ cols d ds g.
Proof. unfold cols. lia. Qed.

Lemma rows_pos (d : Dimensions) (ds g : Q) : 1 ≤ rows d ds g.
Proof. unfold rows. lia. Qed.

Lemma grid_length (d : Dimensions) (ds g : Q) :
  length (grid d ds g) = Z.to_nat (rows d ds g * cols d ds g).
Proof.
  rewrite grid_row_major. apply length_row_major.
  - pose proof (rows_pos d ds g). lia.
  - pose proof (cols_pos d ds g). lia.
Qed.

Lemma grid_lookup (d : Dimensions) (ds g : Q) (r c : Z) :
  0 ≤ r < rows d ds g → 0 ≤ c < cols d ds g →
  grid d ds g !! Z.to_nat (r * cols d ds g + c) = Some (mkDot d ds g r c).
Proof.
  intros Hr Hc. rewrite grid_row_major.
  apply (lookup_row_major (mkDot d ds g)); [|done..].
  pose proof (cols_pos d ds g). lia.
Qed.

(** C1.  For a container of width and height at least 0 (and a cell pitch
    [dotSize + gap] that is not zero, so that the divisions are defined),
    the layout has [cols = max(1, floor((width + gap) / cell))] and
    [rows = max(1, floor((height + gap) / cell))], both at least 1, and
    exactly [cols * rows] dots in row-major order: the dot of row [r] and
    column [c] sits at index [r * cols + c] and has the centre
    [((width - (cell*cols - gap))/2 + dotSize/2 + c*cell,
      (height - (cell*rows - gap))/2 + dotSize/2 + r*cell)].
    A container of size zero gives one dot when [dotSize > 0] and
    [gap >= 0]. *)
Theorem grid_layout_spec (w h ds g : Q) :
  (0 <= w)%Q → (0 <= h)%Q → ¬ (ds + g == 0)%Q →
  let d := {| width := w; height := h |} in
  let cell := (ds + g)%Q in
  let cols := cols d ds g in
  let rows := rows d ds g in
  cols = Z.max 1 (Qfloor ((w + g) / cell)%Q)
  ∧ rows = Z.max 1 (Qfloor ((h + g) / cell)%Q)
  ∧ 1 ≤ cols ∧ 1 ≤ rows
  ∧ length (grid d ds g) = Z.to_nat (cols * rows)
  ∧ (∀ r c : Z, 0 ≤ r < rows → 0 ≤ c < cols →
       grid d ds g !! Z.to_nat (r * cols + c)
       = Some {| Dot.x := ((w - (cell * inject_Z cols - g)) / 2 + ds / 2
                           + inject_Z c * cell)%Q;
                 Dot.y := ((h - (cell * inject_Z rows - g)) / 2 + ds / 2
                           + inject_Z r * cell)%Q;
                 Dot.col := c;
                 Dot.row := r |})
  ∧ ((w == 0)%Q → (h == 0)%Q → (0 < ds)%Q → (0 <= g)%Q →
       cols = 1 ∧ rows = 1 ∧ length (grid d ds g) = 1%nat).
Proof.
  intros Hw Hh Hcell d cell0 cols0 rows0.
  split; [done|]. split; [done|].
  split; [apply cols_pos|]. split; [apply rows_pos|].
  split; [rewrite grid_length; f_equal; lia|].
  split; [intros r c Hr Hc; exact (grid_lookup d ds g r c Hr Hc)|].
  intros Hw0 Hh0 Hds Hg.
  assert (Hfl : ∀ v : Q, (v == 0)%Q → Qfloor ((v + g) / cell0)%Q ≤ 0).
  { intros v Hv.
    assert (Hlt : ((v + g) / cell0 < 1)%Q).
    { apply Qlt_shift_div_r; unfold cell0; lra. }
    pose proof (Qfloor_le ((v + g) / cell0)%Q) as Hfloor.
    assert (Hq : (inject_Z (Qfloor ((v + g) / cell0)%Q) < inject_Z 1)%Q)
      by (eapply Qle_lt_trans; [exact Hfloor | exact Hlt]).
    rewrite <- Zlt_Qlt in Hq. lia. }
  assert (Hc1 : cols0 = 1).
  { pose proof (Hfl w Hw0) as Hf.
    change cols0 with (Z.max 1 (Qfloor ((w + g) / cell0)%Q)). lia. }
  assert (Hr1 : rows0 = 1).
  { pose proof (Hfl h Hh0) as Hf.
    change rows0 with (Z.max 1 (Qfloor ((h + g) / cell0)%Q)). lia. }
  split; [done|]. split; [done|].
  rewrite grid_length. fold cols0 rows0. by rewrite Hc1, Hr1.
Qed.

Lemma grid_layout_spec_witness :
  let d := {| width := 400; height := 400 |} in
  cols d 16 32 = 9 ∧ rows d 16 32 = 9
  ∧ length (grid d 16 32) = 81%nat
  ∧ grid d 16 32 !! 40%nat
    = Some {| Dot.x := ((400 - ((16 + 32) * inject_Z 9 - 32)) / 2 + 16 / 2
                        + inject_Z 4 * (16 + 32))%Q;
              Dot.y := ((400 - ((16 + 32) * inject_Z 9 - 32)) / 2 + 16 / 2
                        + inject_Z 4 * (16 + 32))%Q;
              Dot.col := 4;
              Dot.row := 4 |}.
Proof.
  pose proof (grid_layout_spec 400 400 16 32) as H.
  destruct H as (Hc & Hr & _ & _ & Hlen & Hdot & _);
    [by vm_compute | by vm_compute | by vm_compute |].
  split; [exact Hc|]. split; [exact Hr|].
  split; [exact Hlen|].
  exact (Hdot 4 4 ltac:(by vm_compute) ltac:(by vm_compute)).
Defined.

(** ** Comparisons *)

Lemma lt_num_spec (a b : Q) : lt_num a b = true ↔ (a < b)%Q.
Proof.
  unfold lt_num. rewrite Qlt_alt. destruct (a ?= b)%Q; naive_solver.
Qed.

Lemma lt_num_false (a b : Q) : lt_num a b = false ↔ (b <= a)%Q.
Proof.
  rewrite <- not_true_iff_false, lt_num_spec. split; [apply Qnot_lt_le|].
  intros H1 H2. exact (Qlt_not_le _ _ H2 H1).
Qed.

Lemma le_num_spec (a b : Q) : le_num a b = true ↔ (a <= b)%Q.
Proof. apply Qle_bool_iff. Qed.

Lemma le_num_false (a b : Q) : le_num a b = false ↔ (b < a)%Q.
Proof.
  rewrite <- not_true_iff_false, le_num_spec. split; [apply Qnot_le_lt|].
  intros H1 H2. exact (Qlt_not_le _ _ H1 H2).
Qed.

Lemma Qmax_nonneg_id (a : Q) : (0 <= a)%Q → (Qmax 0 a == a)%Q.
Proof. intros H. destruct (Q.max_spec 0 a) as [[? ->]|[? ->]]; lra. Qed.

Lemma Qmax_0_nonneg (a : Q) : (0 <= Qmax 0 a)%Q.
Proof. apply Q.le_max_l. Qed.

(** ** The nearest-dot scan *)

Section Scan.
Variables (grid : list Dot.t) (h : Pointer).

Lemma scan_prefix (n : nat) :
  (n ≤ length grid)%nat →
  scanned grid h n
    (foldl (scanStep grid h) (None, -1) (seqZ 0 (Z.of_nat n))).
Proof.
  induction n as [|n IH]; intros Hn; [done|].
  rewrite seqZ_S, foldl_snoc. specialize (IH ltac:(lia)).
  destruct (lookup_lt_is_Some_2 grid n ltac:(lia)) as [dn Hdn].
  change (0 + Z.of_nat n) with (Z.of_nat n).
  unfold scanStep at 1. rewrite Nat2Z.id, Hdn.
  destruct n as [|n].
  - clear IH. simpl.
    exists 0%nat, dn. repeat split; [lia|done|..].
    + intros j dj Hj Hlk. assert (j = 0%nat) as -> by lia.
      rewrite Hdn in Hlk. injection Hlk as <-. lra.
    + intros j dj Hj. lia.
  - destruct IH as (i & dot & -> & Hi & Hlk & Hmin & Hfirst).
    cbn [fst below].
    destruct (lt_num (distSq h dn) (distSq h dot)) eqn:Hcmp.
    + apply lt_num_spec in Hcmp.
      exists (S n), dn. repeat split; [lia|done|..].
      * intros j dj Hj Hj'.
        destruct (decide (j = S n)) as [->|Hne].
        -- rewrite Hdn in Hj'. injection Hj' as <-. lra.
        -- pose proof (Hmin j dj ltac:(lia) Hj'). lra.
      * intros j dj Hj Hj'.
        pose proof (Hmin j dj ltac:(lia) Hj'). lra.
    + apply lt_num_false in Hcmp.
      exists i, dot. repeat split; [lia|done|..|done].
      intros j dj Hj Hj'.
      destruct (decide (j = S n)) as [->|Hne].
      * rewrite Hdn in Hj'. by injection Hj' as <-.
      * apply (Hmin j dj); [lia|done].
Qed.

(** On a grid that is not empty the scan returns the first dot among
    those nearest to the pointer. *)
Lemma hoveredDot_nearest :
  grid ≠ [] →
  ∃ (i : nat) (dot : Dot.t),
    hoveredDot (Some h) grid = Some dot
    ∧ grid !! i = Some dot
    ∧ (∀ (j : nat) (dj : Dot.t), grid !! j = Some dj →
         (distSq h dot <= distSq h dj)%Q)
    ∧ (∀ (j : nat) (dj : Dot.t), (j < i)%nat → grid !! j = Some dj →
         (distSq h dot < distSq h dj)%Q).
Proof.
  intros Hne. pose proof (scan_prefix (length grid) ltac:(lia)) as Hs.
  destruct (length grid) as [|n] eqn:Hlen.
  { destruct grid; [done|discriminate]. }
  destruct Hs as (i & dot & Hst & Hi & Hlk & Hmin & Hfirst).
  exists i, dot. split.
  - unfold hoveredDot, scan, for_range. rewrite Hlen, Hst. cbn [snd].
    destruct (Z.of_nat i =? -1) eqn:E; [lia|]. by rewrite Nat2Z.id.
  - split; [done|]. split; [|done].
    intros j dj Hj. apply (Hmin j dj); [|done].
    apply lookup_lt_Some in Hj. lia.
Qed.
End Scan.

(** ** The nearest dot of the grid *)

Lemma grid_nonempty (d : Dimensions) (ds g : Q) : grid d ds g ≠ [].
Proof.
  intros H. pose proof (grid_length d ds g) as Hlen. rewrite H in Hlen.
  pose proof (rows_pos d ds g). pose proof (cols_pos d ds g).
  simpl in Hlen. nia.
Qed.

(** The dot stored at an index: its row and column are the quotient and
    the remainder by [cols]. *)
Lemma grid_lookup_index (d : Dimensions) (ds g : Q) (i : nat) (dot : Dot.t) :
  grid d ds g !! i = Some dot →
  let r := Z.of_nat i / cols d ds g in
  let c := Z.of_nat i mod cols d ds g in
  0 ≤ r < rows d ds g ∧ 0 ≤ c < cols d ds g
  ∧ Z.of_nat i = r * cols d ds g + c
  ∧ dot = mkDot d ds g r c.
Proof.
  intros Hlk r c.
  pose proof (cols_pos d ds g) as Hc. pose proof (rows_pos d ds g) as Hr.
  pose proof (lookup_lt_Some _ _ _ Hlk) as Hlt. rewrite grid_length in Hlt.
  pose proof (Z.div_mod (Z.of_nat i) (cols d ds g) ltac:(lia)) as Hdm.
  pose proof (Z.mod_pos_bound (Z.of_nat i) (cols d ds g) ltac:(lia)) as Hm.
  assert (Hr0 : 0 ≤ r) by (apply Z.div_pos; lia).
  assert (Hr1 : r < rows d ds g).
  { apply Z.div_lt_upper_bound; [lia|]. lia. }
  assert (Hi : Z.of_nat i = r * cols d ds g + c) by (unfold r, c; lia).
  split; [done|]. split; [done|]. split; [done|].
  pose proof (grid_lookup d ds g r c ltac:(done) ltac:(done)) as Hlk'.
  rewrite <- Hi, Nat2Z.id, Hlk in Hlk'. by injection Hlk'.
Qed.

Lemma Qsq_nonneg (a : Q) : (0 <= a * a)%Q.
Proof.
  destruct (Qlt_le_dec a 0) as [H|H].
  - assert (E : (a * a == (- a) * (- a))%Q) by ring.
    rewrite E. apply Qmult_le_0_compat; lra.
  - apply Qmult_le_0_compat; lra.
Qed.

Lemma hypotSq_nonneg (a b : Q) : (0 <= hypotSq a b)%Q.
Proof.
  unfold hypotSq. pose proof (Qsq_nonneg a). pose proof (Qsq_nonneg b). lra.
Qed.

Lemma distSq_nonneg (h : Pointer) (dot : Dot.t) : (0 <= distSq h dot)%Q.
Proof. apply hypotSq_nonneg. Qed.

Lemma distSq_at_centre (dot : Dot.t) :
  (distSq {| px := Dot.x dot; py := Dot.y dot |} dot == 0)%Q.
Proof. unfold distSq, hypotSq. simpl. ring. Qed.

Lemma hypotSq_zero (a b : Q) : (hypotSq a b <= 0)%Q → (a == 0 ∧ b == 0)%Q.
Proof.
  unfold hypotSq. intros H.
  pose proof (Qsq_nonneg a) as Ha. pose proof (Qsq_nonneg b) as Hb.
  assert (Ha0 : (a * a == 0)%Q) by lra.
  assert (Hb0 : (b * b == 0)%Q) by lra.
  apply Qmult_integral in Ha0. apply Qmult_integral in Hb0. tauto.
Qed.

(** Two dots of the grid at distance zero of each other are the same dot,
    as long as the pitch is not zero. *)
Lemma grid_centres_distinct (d : Dimensions) (ds g : Q) (r c r' c' : Z) :
  ¬ (ds + g == 0)%Q →
  (distSq {| px := Dot.x (mkDot d ds g r c); py := Dot.y (mkDot d ds g r c) |}
     (mkDot d ds g r' c') <= 0)%Q →
  r' = r ∧ c' = c.
Proof.
  intros Hcell Hd. unfold distSq in Hd. apply hypotSq_zero in Hd.
  simpl in Hd. destruct Hd as [Hdx Hdy].
  fold (cell ds g) in Hcell.
  set (sx := startX d ds g) in *. set (sy := startY d ds g) in *.
  set (cl := cell ds g) in *.
  assert (Hx : ((inject_Z c' - inject_Z c) * cl == 0)%Q) by lra.
  assert (Hy : ((inject_Z r' - inject_Z r) * cl == 0)%Q) by lra.
  apply Qmult_integral in Hx. apply Qmult_integral in Hy.
  destruct Hx as [Hx|Hx]; [|done]. destruct Hy as [Hy|Hy]; [|done].
  split; apply inject_Z_injective; lra.
Qed.

(** C5.  On the grid of a container (pitch not zero) the resolver returns,
    for every pointer, a dot of the grid whose distance to the pointer is
    minimal, and every dot that precedes it in row-major order (lower row,
    or same row and lower column) is strictly farther: ties go to the
    first dot met.  With the pointer exactly on the centre of a dot, that
    dot is returned and every other dot is strictly farther.  Distances
    are compared through their squares. *)
Theorem hoveredDot_spec (w h ds g : Q) :
  ¬ (ds + g == 0)%Q →
  let d := {| width := w; height := h |} in
  let grid := grid d ds g in
  let rows := rows d ds g in
  let cols := cols d ds g in
  (∀ hover : Pointer,
     ∃ r c : Z,
       0 ≤ r < rows ∧ 0 ≤ c < cols
       ∧ hoveredDot (Some hover) grid = Some (mkDot d ds g r c)
       ∧ ∀ r' c' : Z, 0 ≤ r' < rows → 0 ≤ c' < cols →
           (distSq hover (mkDot d ds g r c)
            <= distSq hover (mkDot d ds g r' c'))%Q
           ∧ (r' < r ∨ (r' = r ∧ c' < c) →
              (distSq hover (mkDot d ds g r c)
               < distSq hover (mkDot d ds g r' c'))%Q))
  ∧ (∀ r c : Z, 0 ≤ r < rows → 0 ≤ c < cols →
       let hover := {| px := Dot.x (mkDot d ds g r c);
                       py := Dot.y (mkDot d ds g r c) |} in
       hoveredDot (Some hover) grid = Some (mkDot d ds g r c)
       ∧ ∀ r' c' : Z, 0 ≤ r' < rows → 0 ≤ c' < cols → (r', c') ≠ (r, c) →
           (distSq hover (mkDot d ds g r c)
            < distSq hover (mkDot d ds g r' c'))%Q).
Proof.
  intros Hcell d grid0 rows0 cols0.
  assert (Hgen : ∀ hover : Pointer,
     ∃ r c : Z,
       0 ≤ r < rows0 ∧ 0 ≤ c < cols0
       ∧ hoveredDot (Some hover) grid0 = Some (mkDot d ds g r c)
       ∧ ∀ r' c' : Z, 0 ≤ r' < rows0 → 0 ≤ c' < cols0 →
           (distSq hover (mkDot d ds g r c)
            <= distSq hover (mkDot d ds g r' c'))%Q
           ∧ (r' < r ∨ (r' = r ∧ c' < c) →
              (distSq hover (mkDot d ds g r c)
               < distSq hover (mkDot d ds g r' c'))%Q)).
  { intros hover.
    destruct (hoveredDot_nearest grid0 hover (grid_nonempty d ds g))
      as (i & dot & Hhd & Hlk & Hmin & Hfirst).
    destruct (grid_lookup_index d ds g i dot Hlk) as (Hr & Hc & Hi & ->).
    set (r := Z.of_nat i / cols d ds g) in *.
    set (c := Z.of_nat i mod cols d ds g) in *.
    exists r, c. split; [done|]. split; [done|]. split; [done|].
    intros r' c' Hr' Hc'.
    pose proof (grid_lookup d ds g r' c' Hr' Hc') as Hlk'.
    split; [by apply (Hmin _ _ Hlk')|].
    unfold rows0, cols0 in *.
    assert (Hidx : r' < r ∨ r' = r ∧ c' < c →
                   (Z.to_nat (r' * cols d ds g + c') < i)%nat).
    { clearbody r c. pose proof (cols_pos d ds g) as Hcp.
      assert (0 ≤ r' * cols d ds g) by (apply Z.mul_nonneg_nonneg; lia).
      intros [Hl|[He Hl]].
      - assert ((r' + 1) * cols d ds g ≤ r * cols d ds g)
          by (apply Z.mul_le_mono_nonneg_r; lia).
        lia.
      - rewrite He in *. lia. }
    intros Hlex. apply (Hfirst _ _ (Hidx Hlex) Hlk'). }
  split; [exact Hgen|].
  intros r c Hr Hc hover.
  destruct (Hgen hover) as (r0 & c0 & Hr0 & Hc0 & Hhd & Hmin).
  assert (Heq : r0 = r ∧ c0 = c).
  { apply (grid_centres_distinct d ds g r c r0 c0 Hcell).
    destruct (Hmin r c Hr Hc) as [Hle _].
    pose proof (distSq_at_centre (mkDot d ds g r c)) as H0.
    fold hover in H0 |- *. lra. }
  destruct Heq as [-> ->]. split; [done|].
  intros r' c' Hr' Hc' Hne.
  pose proof (distSq_at_centre (mkDot d ds g r c)) as H0. fold hover in H0.
  pose proof (distSq_nonneg hover (mkDot d ds g r' c')) as Hnn.
  destruct (Qlt_le_dec (distSq hover (mkDot d ds g r c))
              (distSq hover (mkDot d ds g r' c'))) as [Hlt|Hle]; [done|].
  exfalso. apply Hne.
  destruct (grid_centres_distinct d ds g r c r' c' Hcell) as [-> ->];
    [|done].
  fold hover. lra.
Qed.

Lemma hoveredDot_spec_witness :
  let d := {| width := 400; height := 400 |} in
  hoveredDot (Some {| px := Dot.x (mkDot d 16 32 4 4);
                      py := Dot.y (mkDot d 16 32 4 4) |}) (grid d 16 32)
  = Some (mkDot d 16 32 4 4).
Proof.
  pose proof (hoveredDot_spec 400 400 16 32 ltac:(by vm_compute)) as [_ H].
  exact (proj1 (H 4 4 ltac:(by vm_compute) ltac:(by vm_compute))).
Defined.

(** ** The cluster *)

(** A loop that adds [f x] to a set unless [skip x] holds. *)
Lemma elem_of_foldl_add {A : Type} (skip : A → bool) (f : A → Z)
    (l : list A) (s : gset Z) (i : Z) :
  i ∈ foldl (λ set x, if skip x then set else {[ f x ]} ∪ set) s l
  ↔ i ∈ s ∨ ∃ x, x ∈ l ∧ skip x = false ∧ i = f x.
Proof.
  revert s. induction l as [|a l IH]; intros s; cbn [foldl].
  - split; [by left|]. intros [?|(x & Hx & _)]; [done|].
    by apply not_elem_of_nil in Hx.
  - rewrite IH. destruct (skip a) eqn:Ha.
    + split.
      * intros [?|(x & Hx & ?)]; [by left|].
        right. exists x. split; [by apply list_elem_of_further|done].
      * intros [?|(x & Hx & Hs & ?)]; [by left|].
        apply elem_of_cons in Hx as [->|Hx]; [congruence|].
        right. by exists x.
    + rewrite elem_of_union, elem_of_singleton. split.
      * intros [[->|?]|(x & Hx & ?)].
        -- right. exists a. split; [apply list_elem_of_here|done].
        -- by left.
        -- right. exists x. split; [by apply list_elem_of_further|done].
      * intros [?|(x & Hx & Hs & ->)]; [left; by right|].
        apply elem_of_cons in Hx as [->|Hx]; [left; by left|].
        right. by exists x.
Qed.

Lemma elem_of_foldl_add_nested {A B : Type} (skip : A → B → bool)
    (f : A → B → Z) (l1 : list A) (l2 : list B) (s : gset Z) (i : Z) :
  i ∈ foldl (λ set x,
        foldl (λ set y, if skip x y then set else {[ f x y ]} ∪ set) set l2)
      s l1
  ↔ i ∈ s ∨ ∃ x y, x ∈ l1 ∧ y ∈ l2 ∧ skip x y = false ∧ i = f x y.
Proof.
  revert s. induction l1 as [|a l1 IH]; intros s; cbn [foldl].
  - split; [by left|]. intros [?|(x & y & Hx & _)]; [done|].
    by apply not_elem_of_nil in Hx.
  - rewrite IH, (elem_of_foldl_add (skip a) (f a)). split.
    + intros [[?|(y & Hy & ?)]|(x & y & Hx & ?)].
      * by left.
      * right. exists a, y. split; [apply list_elem_of_here|done].
      * right. exists x, y. split; [by apply list_elem_of_further|done].
    + intros [?|(x & y & Hx & Hy & ?)]; [left; by left|].
      apply elem_of_cons in Hx as [->|Hx].
      * left. right. by exists y.
      * right. by exists x, y.
Qed.

(** Membership in the cluster, by offsets. *)
Lemma elem_of_activeSet (hd : Dot.t) (cols rows : Z) (cnt : option Q)
    (i : Z) :
  let R := hoverRadiusOf cnt in
  i ∈ activeSet (Some hd) cols rows cnt
  ↔ ∃ r c : Z,
      i = r * cols + c
      ∧ Z.abs (r - Dot.row hd) ≤ R ∧ Z.abs (c - Dot.col hd) ≤ R
      ∧ 0 ≤ r < rows ∧ 0 ≤ c < cols.
Proof.
  intros R. unfold activeSet, for_upto, for_range. fold R.
  rewrite (elem_of_foldl_add_nested
    (λ dr dc, (Dot.row hd + dr <? 0) || (Dot.row hd + dr >=? rows)
              || (Dot.col hd + dc <? 0) || (Dot.col hd + dc >=? cols))
    (λ dr dc, (Dot.row hd + dr) * cols + (Dot.col hd + dc))).
  split.
  - intros [H|(dr & dc & Hdr & Hdc & Hskip & ->)];
      [by apply not_elem_of_empty in H|].
    apply elem_of_seqZ in Hdr. apply elem_of_seqZ in Hdc.
    exists (Dot.row hd + dr), (Dot.col hd + dc).
    repeat split; lia.
  - intros (r & c & -> & Hr & Hc & Hr' & Hc'). right.
    exists (r - Dot.row hd), (c - Dot.col hd).
    rewrite !elem_of_seqZ.
    replace (Dot.row hd + (r - Dot.row hd)) with r by lia.
    replace (Dot.col hd + (c - Dot.col hd)) with c by lia.
    repeat split; lia.
Qed.

Lemma rectIndices_NoDup (cols r0 nr c0 nc : Z) :
  0 ≤ c0 → c0 + nc ≤ cols → NoDup (rectIndices cols r0 nr c0 nc).
Proof.
  intros Hc0 Hc1. unfold rectIndices. apply NoDup_bind.
  - intros r1 r2 y _ _ H1 H2.
    apply list_elem_of_fmap in H1 as (c1 & -> & H1).
    apply list_elem_of_fmap in H2 as (c2 & Heq & H2).
    apply elem_of_seqZ in H1. apply elem_of_seqZ in H2. nia.
  - intros r _. apply NoDup_fmap_2; [|apply NoDup_seqZ].
    intros a b. lia.
  - apply NoDup_seqZ.
Qed.

Lemma rectIndices_length (cols r0 nr c0 nc : Z) :
  0 ≤ nr → 0 ≤ nc →
  length (rectIndices cols r0 nr c0 nc) = Z.to_nat (nr * nc).
Proof.
  intros Hnr Hnc. unfold rectIndices.
  assert (Hgen : ∀ (k : nat) (lo : Z),
    length (seqZ lo (Z.of_nat k) ≫= λ r, (λ c, r * cols + c) <$> seqZ c0 nc)
    = (k * Z.to_nat nc)%nat).
  { induction k as [|k IH]; intros lo; [done|].
    rewrite (seqZ_cons lo) by lia. rewrite bind_cons.
    rewrite length_app, length_fmap, length_seqZ.
    replace (Z.pred (Z.of_nat (S k))) with (Z.of_nat k) by lia.
    by rewrite IH. }
  specialize (Hgen (Z.to_nat nr) r0). rewrite Z2Nat.id in Hgen by lia.
  rewrite Hgen. nia.
Qed.

(** Away from the edges the cluster is a full square. *)
Lemma activeSet_square (hd : Dot.t) (cols rows : Z) (cnt : option Q) :
  let R := hoverRadiusOf cnt in
  0 ≤ R →
  R ≤ Dot.row hd → Dot.row hd + R < rows →
  R ≤ Dot.col hd → Dot.col hd + R < cols →
  activeSet (Some hd) cols rows cnt
  = list_to_set (rectIndices cols (Dot.row hd - R) (2 * R + 1)
                   (Dot.col hd - R) (2 * R + 1)).
Proof.
  intros R HR Hr0 Hr1 Hc0 Hc1. apply set_eq. intros i.
  rewrite elem_of_activeSet, elem_of_list_to_set. fold R.
  unfold rectIndices. rewrite list_elem_of_bind. split.
  - intros (r & c & -> & Hr & Hc & _ & _). exists r.
    rewrite list_elem_of_fmap, elem_of_seqZ. split; [|lia].
    exists c. rewrite elem_of_seqZ. split; [done|lia].
  - intros (r & Hi & Hr). apply list_elem_of_fmap in Hi as (c & -> & Hc).
    apply elem_of_seqZ in Hr. apply elem_of_seqZ in Hc.
    exists r, c. repeat split; lia.
Qed.

Lemma activeSet_square_size (hd : Dot.t) (cols rows : Z) (cnt : option Q) :
  let R := hoverRadiusOf cnt in
  0 ≤ R →
  R ≤ Dot.row hd → Dot.row hd + R < rows →
  R ≤ Dot.col hd → Dot.col hd + R < cols →
  size (activeSet (Some hd) cols rows cnt)
  = Z.to_nat ((2 * R + 1) * (2 * R + 1)).
Proof.
  intros R HR Hr0 Hr1 Hc0 Hc1.
  rewrite (activeSet_square hd cols rows cnt HR Hr0 Hr1 Hc0 Hc1). fold R.
  rewrite size_list_to_set by (apply rectIndices_NoDup; lia).
  apply rectIndices_length; lia.
Qed.

(** C2.  For a hovered dot [(hr, hc)] and a cluster size [count]
    ([hoverDotCount], 5 when absent), the cluster is exactly the set of the
    indices [r * cols + c] with [|r - hr| <= floor(count/2)],
    [|c - hc| <= floor(count/2)], [0 <= r < rows] and [0 <= c < cols].
    With [count = 5] and the hovered dot at least 2 rows and 2 columns
    from every edge it has 25 members; near an edge it is clipped (every
    member is the index of a dot of the grid; hovering the corner dot
    [(0,0)] of a grid of at least 3 rows and columns leaves 9 members);
    and an even count [2k] gives the same set as [2k + 1], a square of
    side [2 * floor(count/2) + 1] away from the edges. *)
Theorem activeSet_spec (hd : Dot.t) (cols rows : Z) :
  0 < cols →
  (∀ (cnt : option Q) (i : Z),
     i ∈ activeSet (Some hd) cols rows cnt
     ↔ ∃ r c : Z,
         i = r * cols + c
         ∧ Z.abs (r - Dot.row hd) ≤ Qfloor (default 5%Q cnt / 2)%Q
         ∧ Z.abs (c - Dot.col hd) ≤ Qfloor (default 5%Q cnt / 2)%Q
         ∧ 0 ≤ r < rows ∧ 0 ≤ c < cols)
  ∧ (∀ cnt : option Q, cnt = None ∨ cnt = Some 5%Q →
       2 ≤ Dot.row hd → Dot.row hd + 2 < rows →
       2 ≤ Dot.col hd → Dot.col hd + 2 < cols →
       size (activeSet (Some hd) cols rows cnt) = 25%nat)
  ∧ (∀ (cnt : option Q) (i : Z),
       i ∈ activeSet (Some hd) cols rows cnt → 0 ≤ i < rows * cols)
  ∧ (Dot.row hd = 0 → Dot.col hd = 0 → 3 ≤ rows → 3 ≤ cols →
       size (activeSet (Some hd) cols rows None) = 9%nat)
  ∧ (∀ k : Z,
       activeSet (Some hd) cols rows (Some (inject_Z (2 * k)))
       = activeSet (Some hd) cols rows (Some (inject_Z (2 * k + 1))))
  ∧ (∀ cnt : option Q,
       let R := Qfloor (default 5%Q cnt / 2)%Q in
       0 ≤ R →
       R ≤ Dot.row hd → Dot.row hd + R < rows →
       R ≤ Dot.col hd → Dot.col hd + R < cols →
       size (activeSet (Some hd) cols rows cnt)
       = Z.to_nat ((2 * R + 1) * (2 * R + 1))).
Proof.
  intros Hcols.
  split; [intros cnt i; apply elem_of_activeSet|].
  split.
  { intros cnt Hcnt Hr0 Hr1 Hc0 Hc1.
    assert (HR : hoverRadiusOf cnt = 2) by (by destruct Hcnt as [->| ->]).
    pose proof (activeSet_square_size hd cols rows cnt) as Hsz.
    cbv zeta in Hsz. rewrite HR in Hsz. by rewrite Hsz by lia. }
  split.
  { intros cnt i Hi. apply elem_of_activeSet in Hi.
    destruct Hi as (r & c & -> & _ & _ & Hr & Hc). nia. }
  split.
  { intros Hr Hc Hrows Hcols3.
    assert (Heq : activeSet (Some hd) cols rows None
                  = list_to_set (rectIndices cols 0 3 0 3)).
    { apply set_eq. intros i.
      rewrite elem_of_activeSet, elem_of_list_to_set.
      change (hoverRadiusOf None) with 2. rewrite Hr, Hc.
      unfold rectIndices. rewrite list_elem_of_bind. split.
      - intros (r & c & -> & Hr' & Hc' & Hr2 & Hc2). exists r.
        rewrite list_elem_of_fmap, elem_of_seqZ. split; [|lia].
        exists c. rewrite elem_of_seqZ. split; [done|lia].
      - intros (r & Hi & Hr'). apply list_elem_of_fmap in Hi as (c & -> & Hc').
        apply elem_of_seqZ in Hr'. apply elem_of_seqZ in Hc'.
        exists r, c. repeat split; lia. }
    rewrite Heq, size_list_to_set by (apply rectIndices_NoDup; lia).
    by rewrite rectIndices_length. }
  split.
  { intros k. apply set_eq. intros i. rewrite !elem_of_activeSet.
    assert (HR : hoverRadiusOf (Some (inject_Z (2 * k)))
                 = hoverRadiusOf (Some (inject_Z (2 * k + 1)))).
    { unfold hoverRadiusOf, countOf. simpl default.
      change 2%Q with (inject_Z 2). rewrite <- !Zdiv_Qdiv.
      rewrite (Z.mul_comm 2 k), Z.div_mul by lia.
      rewrite Z.div_add_l by lia. change (1 `div` 2) with 0. lia. }
    by rewrite HR. }
  intros cnt R. apply activeSet_square_size.
Qed.

Lemma activeSet_spec_witness :
  size (activeSet (Some (Dot.mk 200 200 4 4)) 9 9 None) = 25%nat.
Proof.
  pose proof (activeSet_spec (Dot.mk 200 200 4 4) 9 9 ltac:(lia))
    as (_ & H25 & _).
  apply H25; [by left | simpl; lia ..].
Defined.

(** ** Rendering a dot of the cluster *)

Lemma hoverActive_Some (hover : option Pointer) (hovered : option Dot.t)
    (active : gset Z) (i : Z) (hd : Dot.t) :
  hoverActive hover hovered active i = Some hd
  ↔ is_Some hover ∧ hovered = Some hd ∧ i ∈ active.
Proof.
  unfold hoverActive. destruct hover as [h|], hovered as [hd'|].
  - case_bool_decide as Hin; split.
    + intros [= ->]. eauto.
    + by intros (_ & [= ->] & _).
    + done.
    + by intros (_ & _ & ?).
  - split; [done|]. by intros (_ & ? & _).
  - split; [done|]. by intros ([? ?] & _).
  - split; [done|]. by intros ([? ?] & _).
Qed.

Lemma hoverActive_None_absent (hovered : option Dot.t) (active : gset Z)
    (i : Z) :
  hoverActive None hovered active i = None.
Proof. done. Qed.

Lemma Plain_renderDot_active (p : DotGridHeroProps) (hover : option Pointer)
    (hovered : option Dot.t) (active : gset Z) (i : nat) (dot hd : Dot.t) :
  hoverActive hover hovered active (Z.of_nat i) = Some hd →
  let c := Plain.renderDot p hover hovered active i dot in
  cx c = Dot.x dot ∧ cy c = Dot.y dot
  ∧ radius c = (baseRadiusOf p * falloffScale p (gridDist dot hd))%Q
  ∧ fill c = activeColor p.
Proof. intros H. unfold Plain.renderDot. by rewrite H. Qed.

Lemma Trail_levelAndScale_active (p : DotGridHeroProps)
    (hover : option Pointer) (hovered : option Dot.t) (active : gset Z)
    (lastHit : gmap Z Q) (now : Q) (i : nat) (dot hd : Dot.t) :
  hoverActive hover hovered active (Z.of_nat i) = Some hd →
  Trail.levelAndScale p hover hovered active lastHit now i dot
  = (1%Q, falloffScale p (gridDist dot hd)).
Proof. intros H. unfold Trail.levelAndScale. by rewrite H. Qed.

Lemma Trail_renderDot_active (p : DotGridHeroProps) (hover : option Pointer)
    (hovered : option Dot.t) (active : gset Z) (lastHit : gmap Z Q) (now : Q)
    (i : nat) (dot hd : Dot.t) :
  hoverActive hover hovered active (Z.of_nat i) = Some hd →
  let c := Trail.renderDot p hover hovered active lastHit now i dot in
  cx c = Dot.x dot ∧ cy c = Dot.y dot
  ∧ (radius c == baseRadiusOf p * falloffScale p (gridDist dot hd))%Q
  ∧ fill c = blend (baseColor p) (activeColor p) 1.
Proof.
  intros H. unfold Trail.renderDot.
  rewrite (Trail_levelAndScale_active _ _ _ _ _ _ _ _ _ H).
  change (lt_num 0 1) with true. cbv iota beta zeta. simpl.
  repeat split; try done. ring.
Qed.

(** A dot of the cluster is within [floor(count/2)] of the hovered dot. *)
Lemma gridDist_in_cluster (d : Dimensions) (ds g : Q) (cnt : option Q)
    (i : nat) (dot hd : Dot.t) :
  grid d ds g !! i = Some dot →
  Z.of_nat i ∈ activeSet (Some hd) (cols d ds g) (rows d ds g) cnt →
  0 ≤ gridDist dot hd ≤ hoverRadiusOf cnt.
Proof.
  intros Hlk Hin. apply elem_of_activeSet in Hin.
  destruct Hin as (r & c & Hi & Hr & Hc & Hr' & Hc').
  destruct (grid_lookup_index d ds g i dot Hlk) as (Hr0 & Hc0 & Hi0 & ->).
  pose proof (cols_pos d ds g) as Hcp.
  assert (Hrc : Z.of_nat i / cols d ds g = r
                ∧ Z.of_nat i mod cols d ds g = c).
  { rewrite Hi. split.
    - rewrite Z.div_add_l, Z.div_small by lia. lia.
    - rewrite (Z.add_comm (r * cols d ds g) c), Z.mod_add, Z.mod_small
        by lia.
      done. }
  destruct Hrc as [-> ->]. unfold gridDist. simpl. lia.
Qed.

(** ** The falloff of the scale *)

Lemma falloffScale_eq (p : DotGridHeroProps) (dist : Z) :
  let floorHalf := Qfloor (default 5%Q (hoverDotCount p) / 2)%Q in
  let maxDist := if floorHalf =? 0 then 1 else floorHalf in
  let intensity := default 0.95%Q (smoothIntensity p) in
  falloffScale p dist
  = (1 + intensity * Qmax 0 (1 - inject_Z dist / inject_Z maxDist))%Q.
Proof. done. Qed.

Lemma falloff_at_zero (intensity : Q) (m : Z) :
  (1 + intensity * Qmax 0 (1 - inject_Z 0 / inject_Z m) == 1 + intensity)%Q.
Proof.
  assert (E : (1 - inject_Z 0 / inject_Z m == 1)%Q).
  { unfold Qdiv. change (inject_Z 0) with 0%Q. ring. }
  rewrite E, (Q.max_r 0 1) by lra. ring.
Qed.

Lemma falloff_at_max (intensity : Q) (m : Z) :
  m ≠ 0 →
  (1 + intensity * Qmax 0 (1 - inject_Z m / inject_Z m) == 1)%Q.
Proof.
  intros Hm.
  assert (E : (1 - inject_Z m / inject_Z m == 0)%Q).
  { assert (Hne : ¬ (inject_Z m == 0)%Q).
    { intros H. apply Hm. by apply inject_Z_injective. }
    field. exact Hne. }
  rewrite E, (Q.max_l 0 0) by lra. ring.
Qed.

Lemma falloff_antitone (intensity : Q) (m d1 d2 : Z) :
  (0 <= intensity)%Q → 0 < m → d1 ≤ d2 →
  (1 + intensity * Qmax 0 (1 - inject_Z d2 / inject_Z m)
   <= 1 + intensity * Qmax 0 (1 - inject_Z d1 / inject_Z m))%Q.
Proof.
  intros Hi Hm Hd.
  assert (Hm' : (0 < inject_Z m)%Q)
    by (change 0%Q with (inject_Z 0); by rewrite <- Zlt_Qlt).
  assert (Hdiv : (inject_Z d1 / inject_Z m <= inject_Z d2 / inject_Z m)%Q).
  { unfold Qdiv. apply Qmult_le_compat_r.
    - by rewrite <- Zle_Qle.
    - apply Qlt_le_weak. by apply Qinv_lt_0_compat. }
  assert (Hmax : (Qmax 0 (1 - inject_Z d2 / inject_Z m)
                  <= Qmax 0 (1 - inject_Z d1 / inject_Z m))%Q)
    by (apply Q.max_le_compat_l; lra).
  apply Qplus_le_r. rewrite !(Qmult_comm intensity).
  by apply Qmult_le_compat_r.
Qed.

(** C3.  A dot of the cluster at Chebyshev distance
    [dist = max(|r - hr|, |c - hc|)] of the hovered dot is drawn, in both
    variants, with the radius [baseRadius * scale] where
    [scale = 1 + intensity * max(0, 1 - dist/maxDist)] and [maxDist] is
    [floor(hoverDotCount/2)], taken as 1 when it is 0.  The scale is
    [1 + intensity] at distance 0, is 1 at distance [maxDist], and for a
    non-negative intensity does not increase with the distance. *)
Theorem falloff_spec (p : DotGridHeroProps) (d : Dimensions)
    (hover : Pointer) (lastHit : gmap Z Q) (now : Q) (i : nat)
    (dot hd : Dot.t) :
  gridOf p d !! i = Some dot →
  hoveredDot (Some hover) (gridOf p d) = Some hd →
  Z.of_nat i
    ∈ activeSet (Some hd) (colsOf p d) (rowsOf p d) (hoverDotCount p) →
  let dist := Z.max (Z.abs (Dot.row dot - Dot.row hd))
                    (Z.abs (Dot.col dot - Dot.col hd)) in
  let floorHalf := Qfloor (default 5%Q (hoverDotCount p) / 2)%Q in
  let maxDist := if floorHalf =? 0 then 1 else floorHalf in
  let intensity := default 0.95%Q (smoothIntensity p) in
  let baseRadius := default (dotSize p / 2)%Q (circleRadius p) in
  let scale := λ dist : Z,
    (1 + intensity * Qmax 0 (1 - inject_Z dist / inject_Z maxDist))%Q in
  (∃ c, Plain.render p d (Some hover) !! i = Some c
        ∧ (radius c == baseRadius * scale dist)%Q)
  ∧ (∃ c, Trail.render p d (Some hover) lastHit now !! i = Some c
          ∧ (radius c == baseRadius * scale dist)%Q)
  ∧ 0 ≤ dist ≤ floorHalf
  ∧ (scale 0%Z == 1 + intensity)%Q
  ∧ (scale maxDist == 1)%Q
  ∧ ((0 <= intensity)%Q →
     ∀ d1 d2 : Z, d1 ≤ d2 → (scale d2 <= scale d1)%Q).
Proof.
  intros Hlk Hhd Hin dist floorHalf maxDist intensity baseRadius scale.
  assert (Hact : hoverActive (Some hover) (hoveredDot (Some hover) (gridOf p d))
                   (activeSet (hoveredDot (Some hover) (gridOf p d))
                      (colsOf p d) (rowsOf p d) (hoverDotCount p))
                   (Z.of_nat i) = Some hd).
  { apply hoverActive_Some. rewrite Hhd. eauto. }
  pose proof (gridDist_in_cluster d (dotSize p) (gap p) (hoverDotCount p)
                i dot hd Hlk Hin) as Hdist.
  change (gridDist dot hd) with dist in Hdist.
  change (hoverRadiusOf (hoverDotCount p)) with floorHalf in Hdist.
  split.
  { eexists. unfold Plain.render. rewrite list_lookup_imap, Hlk.
    split; [reflexivity|].
    destruct (Plain_renderDot_active p _ _ _ i dot hd Hact)
      as (_ & _ & -> & _).
    reflexivity. }
  split.
  { eexists. unfold Trail.render. rewrite list_lookup_imap, Hlk.
    split; [reflexivity|].
    destruct (Trail_renderDot_active p _ _ _ lastHit now i dot hd Hact)
      as (_ & _ & -> & _).
    reflexivity. }
  split; [done|].
  split; [apply falloff_at_zero|].
  assert (Hmax : 0 < maxDist).
  { unfold maxDist. destruct (floorHalf =? 0) eqn:E; lia. }
  split; [apply falloff_at_max; lia|].
  intros Hi d1 d2 Hd. by apply falloff_antitone.
Qed.

Lemma falloff_spec_witness :
  let d := {| width := 400; height := 400 |} in
  ∃ c, Trail.render defaultProps d (Some {| px := 200; py := 200 |}) ∅ 0
         !! 20%nat = Some c
       ∧ (radius c
          == (16 / 2) * (1 + 0.95 * Qmax 0 (1 - inject_Z 2 / inject_Z 2)))%Q.
Proof.
  pose proof (falloff_spec defaultProps {| width := 400; height := 400 |}
                {| px := 200; py := 200 |} ∅ 0 20
                (Dot.mk (416 # 4) (416 # 4) 2 2)
                (Dot.mk (800 # 4) (800 # 4) 4 4)
                ltac:(by vm_compute) ltac:(by vm_compute)
                ltac:(apply (bool_decide_unpack _); by vm_compute)) as H.
  exact (proj1 (proj2 H)).
Defined.

(** ** The trail: eviction *)

Section Evict.
Variable expired : Q → bool.

Lemma evict_fold_sub (l : list (Z * Q)) (m0 : gmap Z Q) (i : Z) (v : Q) :
  foldl (evictStep expired) m0 l !! i = Some v → m0 !! i = Some v.
Proof.
  revert m0. induction l as [|[k hit] l IH]; intros m0; cbn [foldl];
    [done|].
  intros H. apply IH in H. unfold evictStep in H.
  destruct (expired hit); [|done].
  apply lookup_delete_Some in H. tauto.
Qed.

Lemma evict_fold_gone (l : list (Z * Q)) (m0 : gmap Z Q) (i : Z) (hit : Q) :
  (i, hit) ∈ l → expired hit = true →
  foldl (evictStep expired) m0 l !! i = None.
Proof.
  revert m0. induction l as [|[k hit'] l IH]; intros m0 Hin Hexp;
    cbn [foldl].
  - by apply not_elem_of_nil in Hin.
  - apply elem_of_cons in Hin as [[= <- <-]|Hin]; [|by apply IH].
    unfold evictStep at 2. rewrite Hexp.
    destruct (foldl (evictStep expired) (delete i m0) l !! i) as [v|] eqn:E;
      [|done].
    apply evict_fold_sub in E. by rewrite lookup_delete_eq in E.
Qed.

Lemma evict_fold_kept (l : list (Z * Q)) (m0 : gmap Z Q) (i : Z) (v : Q) :
  m0 !! i = Some v →
  (∀ hit, (i, hit) ∈ l → expired hit = false) →
  foldl (evictStep expired) m0 l !! i = Some v.
Proof.
  revert m0. induction l as [|[k hit] l IH]; intros m0 Hm Hl; cbn [foldl];
    [done|].
  apply IH.
  - unfold evictStep. destruct (expired hit) eqn:Hexp; [|done].
    rewrite lookup_delete_ne; [done|]. intros ->.
    rewrite (Hl hit) in Hexp; [done|]. apply list_elem_of_here.
  - intros hit' Hin. apply Hl. by apply list_elem_of_further.
Qed.
End Evict.

Lemma lookup_evictExpired (t expire : Q) (m : gmap Z Q) (i : Z) (hit : Q) :
  Trail.evictExpired t expire m !! i = Some hit
  ↔ m !! i = Some hit ∧ (t - hit <= expire)%Q.
Proof.
  unfold Trail.evictExpired. split.
  - intros H.
    pose proof (evict_fold_sub (λ hit, lt_num expire (t - hit)%Q) _ _ _ _ H)
      as Hm.
    split; [done|].
    destruct (lt_num expire (t - hit)%Q) eqn:E; [|by apply lt_num_false].
    rewrite (evict_fold_gone (λ hit, lt_num expire (t - hit)%Q)
               _ _ i hit) in H; [done| |done].
    by apply elem_of_map_to_list.
  - intros [Hm Hle].
    apply (evict_fold_kept (λ hit, lt_num expire (t - hit)%Q)); [done|].
    intros hit' Hin. apply elem_of_map_to_list in Hin.
    rewrite Hm in Hin. injection Hin as <-. by apply lt_num_false.
Qed.

(** What a tick of a mounted effect does, in one piece. *)
Lemma tick_mounted (p : DotGridHeroProps) (hover : option Pointer) (t : Q)
    (c : Trail.Clock) :
  let expire := (Qmax 0 (trailHoldMs p) + Qmax 0 (trailFadeMs p))%Q in
  let m' := if le_num expire 0 then ∅
            else Trail.evictExpired t expire (Trail.lastHitRef c) in
  Trail.tick p hover true t c
  = if Trail.needed p hover m'
    then {| Trail.lastHitRef := m';
            Trail.rafRef := Some (Trail.nextHandle c);
            Trail.now := t;
            Trail.pending := {[ Trail.nextHandle c ]} ∪ Trail.pending c;
            Trail.nextHandle := Trail.nextHandle c + 1 |}
    else {| Trail.lastHitRef := m';
            Trail.rafRef := None;
            Trail.now := t;
            Trail.pending := Trail.pending c;
            Trail.nextHandle := Trail.nextHandle c |}.
Proof.
  intros expire m'. unfold Trail.tick. cbn [negb]. fold expire.
  unfold m'. destruct (le_num expire 0); cbn [Trail.setLastHit
    Trail.setNow Trail.lastHitRef Trail.rafRef Trail.now Trail.pending
    Trail.nextHandle];
    match goal with |- context [Trail.needed ?a ?b ?m] =>
      destruct (Trail.needed a b m) end; reflexivity.
Qed.

Lemma lastHitRef_tick (p : DotGridHeroProps) (hover : option Pointer) (t : Q)
    (c : Trail.Clock) :
  let expire := (Qmax 0 (trailHoldMs p) + Qmax 0 (trailFadeMs p))%Q in
  Trail.lastHitRef (Trail.tick p hover true t c)
  = if le_num expire 0 then ∅
    else Trail.evictExpired t expire (Trail.lastHitRef c).
Proof.
  intros expire. rewrite tick_mounted. fold expire.
  by destruct (Trail.needed _ _ _).
Qed.

(** The entries that a tick leaves are the entries not yet expired. *)
Lemma lookup_tick (p : DotGridHeroProps) (hover : option Pointer) (t : Q)
    (c : Trail.Clock) (i : Z) (hit : Q) :
  let expire := (Qmax 0 (trailHoldMs p) + Qmax 0 (trailFadeMs p))%Q in
  Trail.lastHitRef (Trail.tick p hover true t c) !! i = Some hit
  ↔ Trail.lastHitRef c !! i = Some hit
    ∧ (0 < expire)%Q ∧ (t - hit <= expire)%Q.
Proof.
  intros expire. rewrite lastHitRef_tick. fold expire.
  destruct (le_num expire 0) eqn:E.
  - apply le_num_spec in E. rewrite lookup_empty.
    split; [done|]. intros (_ & H & _). lra.
  - apply le_num_false in E. rewrite lookup_evictExpired. tauto.
Qed.

(** ** The trail: level of a dot *)

Lemma getTrailLevel_absent (p : DotGridHeroProps) (lastHit : gmap Z Q)
    (now : Q) (i : Z) :
  lastHit !! i = None → Trail.getTrailLevel p lastHit now i = 0%Q.
Proof.
  intros H. unfold Trail.getTrailLevel. rewrite H.
  by destruct (negb (trailEnabled p)).
Qed.

Lemma getTrailLevel_disabled (p : DotGridHeroProps) (lastHit : gmap Z Q)
    (now : Q) (i : Z) :
  trailEnabled p = false → Trail.getTrailLevel p lastHit now i = 0%Q.
Proof. intros H. unfold Trail.getTrailLevel. by rewrite H. Qed.

Lemma getTrailLevel_hold (p : DotGridHeroProps) (lastHit : gmap Z Q)
    (now hit : Q) (i : Z) :
  trailEnabled p = true → lastHit !! i = Some hit →
  (now - hit <= Qmax 0 (trailHoldMs p))%Q →
  Trail.getTrailLevel p lastHit now i = 1%Q.
Proof.
  intros He Hlk Hle. unfold Trail.getTrailLevel. rewrite He, Hlk.
  cbn [negb]. apply le_num_spec in Hle. by rewrite Hle.
Qed.

Lemma getTrailLevel_fade (p : DotGridHeroProps) (lastHit : gmap Z Q)
    (now hit : Q) (i : Z) :
  let hold := Qmax 0 (trailHoldMs p) in
  let fade := Qmax 0 (trailFadeMs p) in
  trailEnabled p = true → lastHit !! i = Some hit →
  (hold < now - hit)%Q → (now - hit <= hold + fade)%Q →
  (Trail.getTrailLevel p lastHit now i == 1 - (now - hit - hold) / fade)%Q
  ∧ (0 <= 1 - (now - hit - hold) / fade)%Q
  ∧ (1 - (now - hit - hold) / fade < 1)%Q.
Proof.
  intros hold fade He Hlk Hlt Hle.
  assert (Hfade : (0 < fade)%Q) by lra.
  set (x := (now - hit - hold)%Q).
  assert (Hx0 : (0 < x / fade)%Q).
  { apply Qlt_shift_div_l; [done|]. unfold x. lra. }
  assert (Hx1 : (x / fade <= 1)%Q).
  { apply Qle_shift_div_r; [done|]. unfold x. lra. }
  split; [|lra].
  unfold Trail.getTrailLevel. rewrite He, Hlk. cbn [negb]. fold hold fade.
  apply le_num_false in Hlt. rewrite Hlt.
  assert (Hf : le_num fade 0 = false) by (by apply le_num_false).
  rewrite Hf. fold x.
  rewrite (Q.min_r 1 (1 - x / fade)) by lra.
  rewrite (Q.max_r 0 (1 - x / fade)) by lra. reflexivity.
Qed.

(** C4.  With trailing enabled (and hold and fade times that are not
    negative, as the configuration has them), a dot whose entry has the
    timestamp [t0] has, at the time [t]: level exactly 1 when
    [t - t0 <= trailHoldMs]; level
    [1 - (t - t0 - trailHoldMs)/trailFadeMs], which lies in [0,1) and is
    what the clamp to [0,1] returns, when
    [trailHoldMs < t - t0 <= trailHoldMs + trailFadeMs]; and when
    [t - t0 > trailHoldMs + trailFadeMs] a tick at [t] removes the entry,
    after which the level is 0.  With [trailHoldMs = 180] and
    [trailFadeMs = 520] the level is 1 at [t0 + 100], 1/2 at [t0 + 440],
    and the entry is absent after a tick at [t0 + 701]. *)
Theorem trail_level_spec (p : DotGridHeroProps) (lastHit : gmap Z Q)
    (i : Z) (t0 t : Q) :
  trailEnabled p = true →
  (0 <= trailHoldMs p)%Q → (0 <= trailFadeMs p)%Q →
  lastHit !! i = Some t0 →
  let holdMs := trailHoldMs p in
  let fadeMs := trailFadeMs p in
  ((t - t0 <= holdMs)%Q → Trail.getTrailLevel p lastHit t i = 1%Q)
  ∧ ((holdMs < t - t0)%Q → (t - t0 <= holdMs + fadeMs)%Q →
       (Trail.getTrailLevel p lastHit t i
        == 1 - (t - t0 - holdMs) / fadeMs)%Q
       ∧ (Trail.getTrailLevel p lastHit t i
          == Qmax 0 (Qmin 1 (1 - (t - t0 - holdMs) / fadeMs)))%Q
       ∧ (0 <= Trail.getTrailLevel p lastHit t i)%Q
       ∧ (Trail.getTrailLevel p lastHit t i < 1)%Q)
  ∧ ((t - t0 == holdMs + fadeMs)%Q → (0 < fadeMs)%Q →
       (Trail.getTrailLevel p lastHit t i == 0)%Q)
  ∧ ((holdMs + fadeMs < t - t0)%Q →
       ∀ (hover : option Pointer) (c : Trail.Clock),
         Trail.lastHitRef c = lastHit →
         let c' := Trail.tick p hover true t c in
         Trail.lastHitRef c' !! i = None
         ∧ ∀ now' : Q,
             Trail.getTrailLevel p (Trail.lastHitRef c') now' i = 0%Q)
  ∧ (holdMs = 180%Q → fadeMs = 520%Q →
       Trail.getTrailLevel p lastHit (t0 + 100) i = 1%Q
       ∧ (Trail.getTrailLevel p lastHit (t0 + 440) i == 1 # 2)%Q
       ∧ ∀ (hover : option Pointer) (c : Trail.Clock),
           Trail.lastHitRef c = lastHit →
           Trail.lastHitRef (Trail.tick p hover true (t0 + 701) c) !! i
           = None).
Proof.
  intros He Hh Hf Hlk holdMs fadeMs.
  pose proof (Qmax_nonneg_id _ Hh) as Ehold.
  pose proof (Qmax_nonneg_id _ Hf) as Efade.
  fold holdMs in Ehold. fold fadeMs in Efade.
  assert (Hfading : ∀ t' : Q,
    (holdMs < t' - t0)%Q → (t' - t0 <= holdMs + fadeMs)%Q →
    (Trail.getTrailLevel p lastHit t' i
     == 1 - (t' - t0 - holdMs) / fadeMs)%Q
    ∧ (0 <= 1 - (t' - t0 - holdMs) / fadeMs)%Q
    ∧ (1 - (t' - t0 - holdMs) / fadeMs < 1)%Q).
  { intros t' H1 H2.
    destruct (getTrailLevel_fade p lastHit t' t0 i He Hlk) as (E & H0 & H3).
    - fold holdMs. lra.
    - fold holdMs fadeMs. lra.
    - fold holdMs fadeMs in E, H0, H3. rewrite Ehold, Efade in E, H0, H3.
      done. }
  assert (Hgone : ∀ t' : Q, (holdMs + fadeMs < t' - t0)%Q →
    ∀ (hover : option Pointer) (c : Trail.Clock),
      Trail.lastHitRef c = lastHit →
      Trail.lastHitRef (Trail.tick p hover true t' c) !! i = None).
  { intros t' Hgt hover c Hc.
    destruct (Trail.lastHitRef (Trail.tick p hover true t' c) !! i)
      as [hit|] eqn:E; [|done].
    apply lookup_tick in E. fold holdMs fadeMs in E.
    destruct E as (E & _ & Hle). rewrite Hc, Hlk in E. injection E as <-.
    rewrite Ehold, Efade in Hle. lra. }
  split.
  { intros Hle. apply (getTrailLevel_hold p lastHit t t0 i He Hlk).
    fold holdMs. lra. }
  split.
  { intros H1 H2. destruct (Hfading t H1 H2) as (E & H0 & H3).
    split; [done|]. split; [|rewrite E; split; done].
    rewrite E.
    rewrite (Q.min_r 1 (1 - (t - t0 - holdMs) / fadeMs)) by lra.
    by rewrite (Q.max_r 0 (1 - (t - t0 - holdMs) / fadeMs)) by lra. }
  split.
  { intros Heq Hpos. destruct (Hfading t) as (E & _ & _); [lra..|].
    rewrite E. field_simplify_eq; lra. }
  split.
  { intros Hgt hover c Hc c'. pose proof (Hgone t Hgt hover c Hc) as Hn.
    split; [done|]. intros now'. by apply getTrailLevel_absent. }
  intros H180 H520. split.
  { apply (getTrailLevel_hold p lastHit _ t0 i He Hlk).
    fold holdMs. rewrite Ehold, H180. lra. }
  split.
  { destruct (Hfading (t0 + 440)%Q) as (E & _ & _);
      [rewrite ?H180, ?H520; lra..|].
    rewrite E, H180, H520. field. }
  intros hover c Hc. apply (Hgone (t0 + 701)%Q); [|done].
  rewrite H180, H520. lra.
Qed.

Lemma trail_level_spec_witness :
  let p := {| dotSize := 16; gap := 32; baseColor := "#5227FF";
              activeColor := "#FFFFFF";
              backgroundColor := "rgba(0, 0, 0, 0)";
              circleRadius := None; hoverSquareRadius := None;
              hoverDotCount := None; smoothIntensity := None;
              trailEnabled := true; trailHoldMs := 180;
              trailFadeMs := 520 |} in
  (Trail.getTrailLevel p {[ 40%Z := 1000%Q ]} 1440 40%Z == 1 # 2)%Q.
Proof.
  intros p.
  pose proof (trail_level_spec p {[ 40 := 1000%Q ]} 40 1000 1440
                ltac:(reflexivity) ltac:(by vm_compute) ltac:(by vm_compute)
                ltac:(by vm_compute)) as (_ & H & _).
  destruct H as (H & _); [by vm_compute | by vm_compute |].
  rewrite H. by vm_compute.
Defined.

(** ** The animation-frame loop *)

Lemma needed_spec (p : DotGridHeroProps) (hover : option Pointer)
    (m : gmap Z Q) :
  Trail.needed p hover m = true
  ↔ trailEnabled p = true ∧ (is_Some hover ∨ m ≠ ∅).
Proof.
  unfold Trail.needed.
  rewrite andb_true_iff, orb_true_iff, !bool_decide_eq_true.
  assert (Hsz : (0 < size m)%nat ↔ m ≠ ∅).
  { rewrite <- map_size_non_empty_iff. lia. }
  by rewrite Hsz.
Qed.

Lemma cancelPending_stopped (c : Trail.Clock) :
  clock_ok c → stopped (Trail.cancelPending c)
  ∧ Trail.nextHandle (Trail.cancelPending c) = Trail.nextHandle c
  ∧ Trail.lastHitRef (Trail.cancelPending c) = Trail.lastHitRef c.
Proof.
  intros [Hn [[Hr Hp]|(h & Hr & Hp & Hh)]]; unfold Trail.cancelPending;
    rewrite Hr.
  - done.
  - destruct (h =? 0) eqn:E; [lia|]. unfold stopped. simpl.
    rewrite Hp. split; [|done]. split; [done|]. apply difference_diag_L.
Qed.

Lemma request_running (c : Trail.Clock) :
  0 < Trail.nextHandle c → Trail.pending c = ∅ →
  let '(h, c') := Trail.requestAnimationFrame c in
  running (Trail.setRafRef (Some h) c') h
  ∧ 0 < Trail.nextHandle (Trail.setRafRef (Some h) c').
Proof.
  intros Hn Hp. unfold running. simpl. rewrite Hp.
  split; [|lia]. split; [done|]. split; [apply (right_id_L ∅ (∪))|lia].
Qed.

Lemma clockEffect_ok (p : DotGridHeroProps) (hover : option Pointer)
    (c : Trail.Clock) :
  clock_ok c → Trail.pending c = ∅ →
  clock_ok (Trail.clockEffect false p hover c).
Proof.
  intros Hok Hp. unfold Trail.clockEffect.
  destruct (Trail.needed p hover (Trail.lastHitRef c)); cbn [negb].
  - pose proof (request_running c (proj1 Hok) Hp) as H.
    destruct (Trail.requestAnimationFrame c) as [h c'].
    destruct H as [H1 H2]. split; [done|]. right. by exists h.
  - destruct (cancelPending_stopped c Hok) as (Hs & Hn & _).
    split; [rewrite Hn; apply Hok|by left].
Qed.

Lemma stampEffect_frame (p : DotGridHeroProps) (hover : option Pointer)
    (active : gset Z) (t : Q) (c : Trail.Clock) :
  Trail.rafRef (Trail.stampEffect p hover active t c) = Trail.rafRef c
  ∧ Trail.pending (Trail.stampEffect p hover active t c) = Trail.pending c
  ∧ Trail.nextHandle (Trail.stampEffect p hover active t c)
    = Trail.nextHandle c.
Proof.
  unfold Trail.stampEffect.
  by destruct (negb (trailEnabled p)), hover.
Qed.

Lemma rerun_ok (p : DotGridHeroProps) (d : Dimensions)
    (hover' : option Pointer) (t : Q) (c : Trail.Clock) :
  clock_ok c → clock_ok (Loop.clock (Loop.rerun p d hover' t c)).
Proof.
  intros Hok. unfold Loop.rerun. cbn [Loop.clock].
  destruct (cancelPending_stopped c Hok) as ([Hr Hp] & Hn & _).
  set (c2 := Trail.stampEffect p hover' _ t _).
  destruct (stampEffect_frame p hover' (Loop.activeFor p d hover') t
              (Trail.clockCleanup c)) as (Er & Ep & En).
  fold c2 in Er, Ep, En. unfold Trail.clockCleanup in Er, Ep, En.
  apply clockEffect_ok.
  - split; [rewrite En, Hn; apply Hok|].
    left. split; [by rewrite Er|by rewrite Ep].
  - by rewrite Ep.
Qed.

(** A frame of the running loop: the callback [h] runs, and the loop is
    running again (with a new callback) or stopped. *)
Lemma runFrame_running (p : DotGridHeroProps) (hover : option Pointer)
    (h : Z) (t : Q) (c : Trail.Clock) :
  running c h →
  let c' := Trail.runFrame p hover true h t c in
  (Trail.needed p hover (Trail.lastHitRef c') = true
   → running c' (Trail.nextHandle c) ∧ Trail.nextHandle c ≠ h)
  ∧ (Trail.needed p hover (Trail.lastHitRef c') = false → stopped c')
  ∧ Trail.lastHitRef c'
    = Trail.lastHitRef (Trail.tick p hover true t c)
  ∧ 0 < Trail.nextHandle c'.
Proof.
  intros (Hr & Hp & Hh) c'. unfold c', Trail.runFrame.
  rewrite bool_decide_eq_true_2 by (rewrite Hp; by apply elem_of_singleton).
  rewrite !tick_mounted.
  cbn [Trail.cancelAnimationFrame Trail.lastHitRef Trail.pending
       Trail.nextHandle].
  set (m' := if le_num _ 0 then ∅ else _).
  assert (Hpe : Trail.pending c ∖ {[h]} = ∅)
    by (rewrite Hp; apply difference_diag_L).
  destruct (Trail.needed p hover m') eqn:E;
    cbn [Trail.lastHitRef Trail.nextHandle]; rewrite ?E.
  - split; [|split; [done|split; [done|lia]]].
    intros _. split; [|lia]. unfold running. simpl. rewrite Hpe.
    split; [done|]. split; [apply (right_id_L ∅ (∪))|lia].
  - split; [done|]. split; [|split; [done|lia]].
    intros _. unfold stopped. simpl. by rewrite Hpe.
Qed.

Lemma runFrame_ok (p : DotGridHeroProps) (hover : option Pointer)
    (h : Z) (t : Q) (c : Trail.Clock) :
  clock_ok c → clock_ok (Trail.runFrame p hover true h t c).
Proof.
  intros Hok. destruct Hok as [Hn [[Hr Hp]|(h' & Hrun)]].
  - unfold Trail.runFrame.
    rewrite bool_decide_eq_false_2 by (rewrite Hp; apply not_elem_of_empty).
    split; [done|]. by left.
  - destruct (decide (h = h')) as [->|Hne].
    + destruct (runFrame_running p hover h' t c Hrun) as (H1 & H2 & _ & H4).
      split; [done|].
      destruct (Trail.needed p hover
                  (Trail.lastHitRef (Trail.runFrame p hover true h' t c)))
        eqn:E.
      * right. exists (Trail.nextHandle c). by apply H1.
      * left. by apply H2.
    + unfold Trail.runFrame. destruct Hrun as (Hr & Hp & Hh).
      rewrite bool_decide_eq_false_2
        by (rewrite Hp; by apply not_elem_of_singleton).
      split; [done|]. right. by exists h'.
Qed.

Lemma mount_ok (p : DotGridHeroProps) (d : Dimensions) :
  clock_ok (Loop.clock (Loop.mount p d)).
Proof.
  unfold Loop.mount. cbn [Loop.clock].
  set (c2 := Trail.clearEffect p _).
  assert (H : Trail.rafRef c2 = None ∧ Trail.pending c2 = ∅
              ∧ Trail.nextHandle c2 = 1).
  { unfold c2, Trail.clearEffect, Trail.stampEffect.
    by destruct (trailEnabled p). }
  destruct H as (Hr & Hp & Hn). apply clockEffect_ok; [|done].
  split; [lia|by left].
Qed.

(** In every state the component reaches, at most one frame callback is
    requested, and it is the one [rafRef] holds. *)
Lemma run_ok (p : DotGridHeroProps) (d : Dimensions) (es : list Loop.Event) :
  clock_ok (Loop.clock (Loop.run p d es)).
Proof.
  unfold Loop.run. induction es as [|e es IH] using rev_ind.
  - apply mount_ok.
  - rewrite foldl_snoc. destruct e as [ptr t| |h t]; cbn [Loop.step].
    + by apply rerun_ok.
    + destruct (Loop.hover _); [by apply rerun_ok|done].
    + cbn [Loop.clock]. by apply runFrame_ok.
Qed.

Lemma map_bounded (m : gmap Z Q) :
  ∃ T : Q, ∀ (i : Z) (hit : Q), m !! i = Some hit → (hit < T)%Q.
Proof.
  induction m as [|i x m Hi Hfresh IH] using map_first_key_ind.
  - exists 0%Q. intros i hit. by rewrite lookup_empty.
  - destruct IH as [T HT]. exists (Qmax T (x + 1)).
    intros j hit Hj. apply lookup_insert_Some in Hj as [[<- <-]|[_ Hj]].
    + pose proof (Q.le_max_r T (x + 1)). lra.
    + pose proof (HT j hit Hj). pose proof (Q.le_max_l T (x + 1)). lra.
Qed.

Lemma running_not_stopped (c : Trail.Clock) (h : Z) :
  running c h → ¬ stopped c.
Proof. intros (Hr & _) [Hs _]. congruence. Qed.

Lemma clockEffect_inv (p : DotGridHeroProps) (hover : option Pointer)
    (c : Trail.Clock) :
  clock_ok c → Trail.pending c = ∅ →
  let c' := Trail.clockEffect false p hover c in
  Trail.lastHitRef c' = Trail.lastHitRef c
  ∧ (Trail.needed p hover (Trail.lastHitRef c') = true
     ↔ ∃ h, running c' h).
Proof.
  intros Hok Hp c'. unfold c', Trail.clockEffect.
  destruct (Trail.needed p hover (Trail.lastHitRef c)) eqn:E; cbn [negb].
  - pose proof (request_running c (proj1 Hok) Hp) as H.
    destruct (Trail.requestAnimationFrame c) as [h c1] eqn:Hreq.
    injection Hreq as <- <-. destruct H as [H _].
    split; [done|]. cbn [Trail.setRafRef Trail.lastHitRef]. rewrite E.
    split; [|done]. intros _. by eexists.
  - destruct (cancelPending_stopped c Hok) as (Hs & _ & Hl).
    split; [done|]. rewrite Hl, E. split; [done|].
    intros [h Hrun]. by destruct (running_not_stopped _ _ Hrun).
Qed.

Lemma rerun_inv (p : DotGridHeroProps) (d : Dimensions)
    (hover' : option Pointer) (t : Q) (c : Trail.Clock) :
  clock_ok c → loop_inv p (Loop.rerun p d hover' t c).
Proof.
  intros Hok. split; [by apply rerun_ok|].
  unfold Loop.rerun. cbn [Loop.clock Loop.hover].
  destruct (cancelPending_stopped c Hok) as ([Hr Hp] & Hn & _).
  destruct (stampEffect_frame p hover' (Loop.activeFor p d hover') t
              (Trail.clockCleanup c)) as (Er & Ep & En).
  unfold Trail.clockCleanup in *.
  apply clockEffect_inv; [|by rewrite Ep].
  split; [rewrite En, Hn; apply Hok|].
  left. split; [by rewrite Er|by rewrite Ep].
Qed.

Lemma run_inv (p : DotGridHeroProps) (d : Dimensions) (es : list Loop.Event) :
  loop_inv p (Loop.run p d es).
Proof.
  unfold Loop.run. induction es as [|e es IH] using rev_ind.
  - split; [apply mount_ok|]. unfold Loop.mount. cbn [Loop.clock Loop.hover].
    set (c2 := Trail.clearEffect p _).
    assert (H : Trail.rafRef c2 = None ∧ Trail.pending c2 = ∅
                ∧ Trail.nextHandle c2 = 1).
    { unfold c2, Trail.clearEffect, Trail.stampEffect.
      by destruct (trailEnabled p). }
    destruct H as (Hr & Hp & Hn). apply clockEffect_inv; [|done].
    split; [lia|by left].
  - rewrite foldl_snoc. pose proof IH as [Hok Hiff].
    destruct e as [ptr t| |h t]; cbn [Loop.step].
    + by apply rerun_inv.
    + destruct (Loop.hover _); [by apply rerun_inv|exact IH].
    + split; [by apply runFrame_ok|]. cbn [Loop.clock Loop.hover].
      set (st := foldl (Loop.step p d) (Loop.mount p d) es) in *.
      destruct Hok as [Hn [Hs|(h' & Hrun)]].
      * unfold Trail.runFrame.
        rewrite bool_decide_eq_false_2
          by (rewrite (proj2 Hs); apply not_elem_of_empty).
        done.
      * destruct (decide (h = h')) as [->|Hne].
        -- destruct (runFrame_running p (Loop.hover st) h' t _ Hrun)
             as (H1 & H2 & _ & _).
           destruct (Trail.needed p (Loop.hover st)
                       (Trail.lastHitRef
                          (Trail.runFrame p (Loop.hover st) true h' t
                             (Loop.clock st)))) eqn:E.
           ++ split; [|done]. intros _. eexists. by apply H1.
           ++ split; [done|]. intros [h Hr].
              by destruct (running_not_stopped _ _ Hr (H2 eq_refl)).
        -- unfold Trail.runFrame.
           rewrite bool_decide_eq_false_2; [done|].
           destruct Hrun as (_ & Hp & _). rewrite Hp.
           by apply not_elem_of_singleton.
Qed.

(** C7.  A tick of the running loop (its callback [h] being the one
    requested) keeps exactly the entries that are not expired, and
    requests another frame callback if and only if [trailEnabled] holds
    and the pointer is present or an entry remains; otherwise nothing is
    requested any more.  With no pointer and an empty map the loop stops,
    be it in a tick or when the effect runs; with no pointer every tick
    from some time on stops it; and in every state the component reaches,
    a callback is requested exactly when [trailEnabled] holds and the
    pointer is present or the map is not empty. *)
Theorem clock_loop_spec (p : DotGridHeroProps) (hover : option Pointer)
    (h : Z) (t : Q) (c : Trail.Clock) :
  running c h →
  let c' := Trail.runFrame p hover true h t c in
  let expire := (Qmax 0 (trailHoldMs p) + Qmax 0 (trailFadeMs p))%Q in
  (∀ (i : Z) (hit : Q),
     Trail.lastHitRef c' !! i = Some hit
     ↔ Trail.lastHitRef c !! i = Some hit
       ∧ (0 < expire)%Q ∧ (t - hit <= expire)%Q)
  ∧ ((∃ h', h' ≠ h ∧ running c' h')
     ↔ trailEnabled p = true
       ∧ (is_Some hover ∨ Trail.lastHitRef c' ≠ ∅))
  ∧ (stopped c'
     ↔ ¬ (trailEnabled p = true
          ∧ (is_Some hover ∨ Trail.lastHitRef c' ≠ ∅)))
  ∧ (hover = None → Trail.lastHitRef c = ∅ → stopped c')
  ∧ (hover = None →
     ∃ T : Q, ∀ t' : Q, (T <= t')%Q →
       stopped (Trail.runFrame p hover true h t' c))
  ∧ (∀ c0 : Trail.Clock, clock_ok c0 → Trail.lastHitRef c0 = ∅ →
       stopped (Trail.clockEffect false p None c0))
  ∧ (∀ (d : Dimensions) (es : list Loop.Event),
       let st := Loop.run p d es in
       (stopped (Loop.clock st) ∨ ∃ h', running (Loop.clock st) h')
       ∧ ((∃ h', running (Loop.clock st) h')
          ↔ trailEnabled p = true
            ∧ (is_Some (Loop.hover st)
               ∨ Trail.lastHitRef (Loop.clock st) ≠ ∅))).
Proof.
  intros Hrun c' expire.
  assert (Hframe : ∀ t' : Q,
    let c1 := Trail.runFrame p hover true h t' c in
    (Trail.needed p hover (Trail.lastHitRef c1) = true
     → running c1 (Trail.nextHandle c) ∧ Trail.nextHandle c ≠ h)
    ∧ (Trail.needed p hover (Trail.lastHitRef c1) = false → stopped c1)
    ∧ Trail.lastHitRef c1 = Trail.lastHitRef (Trail.tick p hover true t' c)).
  { intros t'. destruct (runFrame_running p hover h t' c Hrun)
      as (H1 & H2 & H3 & _). done. }
  destruct (Hframe t) as (H1 & H2 & H3). fold c' in H1, H2, H3.
  assert (Hstop : stopped c'
     ↔ ¬ (trailEnabled p = true
          ∧ (is_Some hover ∨ Trail.lastHitRef c' ≠ ∅))).
  { rewrite <- needed_spec.
    destruct (Trail.needed p hover (Trail.lastHitRef c')) eqn:E.
    - split; [|done]. intros Hs.
      by destruct (running_not_stopped _ _ (proj1 (H1 eq_refl))).
    - split; [done|]. intros _. by apply H2. }
  split.
  { intros i hit. rewrite H3. apply lookup_tick. }
  split.
  { rewrite <- needed_spec. split.
    - intros (h' & _ & Hr).
      destruct (Trail.needed p hover (Trail.lastHitRef c')) eqn:E; [done|].
      by destruct (running_not_stopped _ _ Hr (H2 eq_refl)).
    - intros E. destruct (H1 E) as [Hr Hne]. eauto. }
  split; [exact Hstop|].
  assert (Hexp : ∀ t' : Q,
    hover = None →
    (∀ (i : Z) (hit : Q), Trail.lastHitRef c !! i = Some hit →
       (expire < t' - hit)%Q) →
    stopped (Trail.runFrame p hover true h t' c)).
  { intros t' Hh Hall. destruct (Hframe t') as (_ & H2' & H3').
    apply H2'. apply not_true_iff_false. rewrite needed_spec.
    intros (_ & [Hs|Hne]).
    - rewrite Hh in Hs. by destruct Hs.
    - apply Hne. apply map_empty. intros i.
      destruct (Trail.lastHitRef _ !! i) as [hit|] eqn:E; [|done].
      rewrite H3' in E. apply lookup_tick in E. fold expire in E.
      destruct E as (E & _ & Hle). pose proof (Hall i hit E). lra. }
  split.
  { intros Hh Hempty. apply (Hexp t Hh). intros i hit.
    by rewrite Hempty, lookup_empty. }
  split.
  { intros Hh. destruct (map_bounded (Trail.lastHitRef c)) as [T HT].
    exists (T + expire)%Q. intros t' Ht'. apply (Hexp t' Hh).
    intros i hit Hi. pose proof (HT i hit Hi). lra. }
  split.
  { intros c0 Hok Hempty. unfold Trail.clockEffect.
    assert (E : Trail.needed p None (Trail.lastHitRef c0) = false).
    { apply not_true_iff_false. rewrite needed_spec, Hempty.
      intros (_ & [[? ?]|?]); done. }
    rewrite E. cbn [negb]. by apply cancelPending_stopped. }
  intros d es st. destruct (run_inv p d es) as [[_ Hok] Hiff].
  fold st in Hok, Hiff. split; [done|].
  by rewrite <- needed_spec.
Qed.

Lemma clock_loop_spec_witness :
  let p := {| dotSize := 16; gap := 32; baseColor := "#5227FF";
              activeColor := "#FFFFFF";
              backgroundColor := "rgba(0, 0, 0, 0)";
              circleRadius := None; hoverSquareRadius := None;
              hoverDotCount := None; smoothIntensity := None;
              trailEnabled := true; trailHoldMs := 180;
              trailFadeMs := 520 |} in
  let c := {| Trail.lastHitRef := {[ 40 := 1000%Q ]};
              Trail.rafRef := Some 7; Trail.now := 1000%Q;
              Trail.pending := {[ 7 ]}; Trail.nextHandle := 8 |} in
  running c 7 ∧ stopped (Trail.runFrame p None true 7 1701%Q c).
Proof.
  intros p c.
  assert (Hrun : running c 7) by (split; [done|split; [done|simpl; lia]]).
  split; [exact Hrun|].
  pose proof (clock_loop_spec p None 7 1701%Q c Hrun) as (_ & _ & Hs & _).
  apply Hs. intros (_ & [[? H]|H]); [done|]. apply H. by vm_compute.
Defined.

(** ** Colours *)

Lemma hexDigitValue_Some (c : ascii) (v : Z) :
  hexDigitValue c = Some v →
  isHexDigit c = true ∧ 0 ≤ v < 16 ∧ hexDigit v = toLower c ∧ c ≠ "#"%char.
Proof.
  destruct c as [[] [] [] [] [] [] [] []]; vm_compute;
    intros H; try discriminate H; injection H as <-;
    (split; [reflexivity|]); (split; [split; [discriminate|reflexivity]|]);
    (split; [reflexivity|discriminate]).
Qed.

Lemma hexDigitValue_None (c : ascii) :
  hexDigitValue c = None → isHexDigit c = false.
Proof.
  destruct c as [[] [] [] [] [] [] [] []]; vm_compute;
    intros H; try discriminate H; reflexivity.
Qed.

Lemma hexPair_Some (c1 c2 : ascii) (v : Z) :
  hexPair c1 c2 = Some v →
  isHexDigit c1 = true ∧ isHexDigit c2 = true ∧ 0 ≤ v ≤ 255
  ∧ hex2 v = String (toLower c1) (String (toLower c2) EmptyString)
  ∧ c1 ≠ "#"%char.
Proof.
  unfold hexPair. intros H.
  destruct (hexDigitValue c1) as [h|] eqn:E1; [|discriminate].
  destruct (hexDigitValue c2) as [l|] eqn:E2; [|discriminate].
  simpl in H. injection H as <-.
  apply hexDigitValue_Some in E1 as (H1 & Hh & Hd1 & Hne).
  apply hexDigitValue_Some in E2 as (H2 & Hl & Hd2 & _).
  split; [done|]. split; [done|]. split; [lia|]. split; [|done].
  unfold hex2. rewrite <- Hd1, <- Hd2.
  replace ((16 * h + l) / 16) with h
    by (rewrite (Z.mul_comm 16 h), Z.div_add_l, Z.div_small; lia).
  replace ((16 * h + l) mod 16) with l
    by (rewrite (Z.add_comm (16 * h) l), (Z.mul_comm 16 h),
          Z.mod_add, Z.mod_small; lia).
  done.
Qed.

Lemma hexPair_None (c1 c2 : ascii) :
  hexPair c1 c2 = None → isHexDigit c1 = false ∨ isHexDigit c2 = false.
Proof.
  unfold hexPair. intros H.
  destruct (hexDigitValue c1) as [h|] eqn:E1;
    [|left; by apply hexDigitValue_None].
  destruct (hexDigitValue c2) as [l|] eqn:E2;
    [discriminate|right; by apply hexDigitValue_None].
Qed.

(** The match succeeds on colour strings only, and then reads the three
    bytes whose digits the string spells. *)
Lemma matchHex_Some (s : string) (r g b : Z) :
  matchHex s = Some (r, g, b) →
  HexColor s
  ∧ 0 ≤ r ≤ 255 ∧ 0 ≤ g ≤ 255 ∧ 0 ≤ b ≤ 255
  ∧ normalizeHex s = String "#" (hex2 r +:+ hex2 g +:+ hex2 b).
Proof.
  unfold matchHex. intros H.
  set (body := match s with String "#" rest => rest | _ => s end) in *.
  destruct body as [|c1 [|c2 [|c3 [|c4 [|c5 [|c6 [|c7 rest]]]]]]] eqn:Ebody;
    try discriminate H.
  destruct (hexPair c1 c2) as [r'|] eqn:E1; [|discriminate].
  destruct (hexPair c3 c4) as [g'|] eqn:E2; [|discriminate].
  destruct (hexPair c5 c6) as [b'|] eqn:E3; [|discriminate].
  simpl in H. injection H as <- <- <-.
  apply hexPair_Some in E1 as (H1 & H2 & Hr & Er & _).
  apply hexPair_Some in E2 as (H3 & H4 & Hg & Eg & _).
  apply hexPair_Some in E3 as (H5 & H6 & Hb & Eb & _).
  split.
  { exists (String c1 (String c2 (String c3 (String c4 (String c5
              (String c6 EmptyString)))))).
    split; [|split; [done|]].
    - rewrite <- Ebody. unfold body.
      destruct s as [|a s']; [by left|].
      destruct (decide (a = "#"%char)) as [->|Hne]; [by right|].
      left. destruct a as [[] [] [] [] [] [] [] []]; try done.
    - simpl. by rewrite H1, H2, H3, H4, H5, H6. }
  split; [done|]. split; [done|]. split; [done|].
  unfold normalizeHex. fold body. rewrite Ebody, Er, Eg, Eb. done.
Qed.

Lemma matchHex_complete (s : string) :
  HexColor s → ∃ r g b : Z, matchHex s = Some (r, g, b).
Proof.
  intros (body & Hs & Hlen & Hall).
  destruct body as [|c1 [|c2 [|c3 [|c4 [|c5 [|c6 [|c7 rest]]]]]]];
    try discriminate Hlen.
  simpl in Hall. rewrite !andb_true_iff in Hall.
  destruct Hall as (H1 & H2 & H3 & H4 & H5 & H6 & _).
  assert (Hv : ∀ c, isHexDigit c = true → ∃ v, hexDigitValue c = Some v).
  { intros c Hc. destruct (hexDigitValue c) as [v|] eqn:E; [by exists v|].
    apply hexDigitValue_None in E. congruence. }
  destruct (Hv c1 H1) as [v1 E1]. destruct (Hv c2 H2) as [v2 E2].
  destruct (Hv c3 H3) as [v3 E3]. destruct (Hv c4 H4) as [v4 E4].
  destruct (Hv c5 H5) as [v5 E5]. destruct (Hv c6 H6) as [v6 E6].
  exists (16 * v1 + v2), (16 * v3 + v4), (16 * v5 + v6).
  assert (Hbody : matchHex (String c1 (String c2 (String c3 (String c4
                    (String c5 (String c6 EmptyString))))))
                  = Some (16 * v1 + v2, 16 * v3 + v4, 16 * v5 + v6)).
  { unfold matchHex.
    assert (Hne : c1 ≠ "#"%char) by (apply (hexDigitValue_Some c1 v1 E1)).
    assert (Hstrip : ∀ rest : string,
      match String c1 rest with String "#" r => r | _ => String c1 rest end
      = String c1 rest).
    { intros rest0. destruct c1 as [[] [] [] [] [] [] [] []]; done. }
    rewrite Hstrip. unfold hexPair. by rewrite E1, E2, E3, E4, E5, E6. }
  destruct Hs as [->| ->]; [done|].
  unfold matchHex. unfold hexPair. by rewrite E1, E2, E3, E4, E5, E6.
Qed.

Lemma round_nearest (x : Q) :
  (inject_Z (round x) - 0.5 <= x)%Q ∧ (x < inject_Z (round x) + 0.5)%Q.
Proof.
  unfold round. pose proof (Qfloor_le (x + 0.5)%Q) as H1.
  pose proof (Qlt_floor (x + 0.5)%Q) as H2.
  rewrite inject_Z_plus in H2. change (inject_Z 1) with 1%Q in H2.
  split; lra.
Qed.

Lemma round_inject_Z (v : Z) : round (inject_Z v) = v.
Proof.
  destruct (round_nearest (inject_Z v)) as [H1 H2].
  assert (Hlo : (inject_Z (round (inject_Z v)) < inject_Z (v + 1))%Q).
  { rewrite inject_Z_plus. change (inject_Z 1) with 1%Q. lra. }
  assert (Hhi : (inject_Z v < inject_Z (round (inject_Z v) + 1))%Q).
  { rewrite inject_Z_plus. change (inject_Z 1) with 1%Q. lra. }
  rewrite <- Zlt_Qlt in Hlo, Hhi. lia.
Qed.

Lemma round_comp (x y : Q) : (x == y)%Q → round x = round y.
Proof. intros H. unfold round. apply Qfloor_comp. by rewrite H. Qed.

(** A byte prints as its two digits. *)
Lemma byte_toString16 (v : Z) :
  0 ≤ v ≤ 255 → padStart 2 "0" (toString16 v) = hex2 v.
Proof.
  intros Hv.
  assert (Hall : forallb
            (λ v, String.eqb (padStart 2 "0" (toString16 v)) (hex2 v))
            (seqZ 0 256) = true) by (by vm_compute).
  rewrite forallb_forall in Hall. apply String.eqb_eq, Hall.
  apply list_elem_of_In, elem_of_seqZ. lia.
Qed.

Lemma hex2_digits (v : Z) :
  0 ≤ v ≤ 255 →
  forallb isLowerHexDigit (String.list_ascii_of_string (hex2 v)) = true.
Proof.
  intros Hv.
  assert (Hall : forallb
            (λ v, forallb isLowerHexDigit
                    (String.list_ascii_of_string (hex2 v)))
            (seqZ 0 256) = true) by (by vm_compute).
  rewrite forallb_forall in Hall. apply Hall.
  apply list_elem_of_In, elem_of_seqZ. lia.
Qed.

Lemma forallb_string_app (P : ascii → bool) (s1 s2 : string) :
  forallb P (String.list_ascii_of_string (s1 +:+ s2))
  = forallb P (String.list_ascii_of_string s1)
    && forallb P (String.list_ascii_of_string s2).
Proof.
  induction s1 as [|c s1 IH]; [done|].
  simpl. by rewrite IH, andb_assoc.
Qed.

Lemma channelHex_spec (x : Q) :
  ∃ v : Z, channelHex x = hex2 v ∧ ClampedRound x v ∧ 0 ≤ v ≤ 255.
Proof.
  exists (Z.max 0 (Z.min 255 (round x))). split; [|split; [|lia]].
  - unfold channelHex. apply byte_toString16. lia.
  - exists (round x). destruct (round_nearest x). done.
Qed.

Lemma channelHex_comp (x y : Q) : (x == y)%Q → channelHex x = channelHex y.
Proof. intros H. unfold channelHex. by rewrite (round_comp x y H). Qed.

Lemma channelHex_byte (v : Z) :
  0 ≤ v ≤ 255 → channelHex (inject_Z v) = hex2 v.
Proof.
  intros Hv. unfold channelHex. rewrite round_inject_Z.
  rewrite Z.min_r, Z.max_r by lia. by apply byte_toString16.
Qed.

Lemma rgbToHex_unfold (c : Rgb.t) :
  rgbToHex c
  = String "#" (channelHex (Rgb.r c) +:+ channelHex (Rgb.g c)
                +:+ channelHex (Rgb.b c)).
Proof.
  unfold rgbToHex. cbn [fmap list_fmap String.concat].
  change ("" +:+ ?s) with s. reflexivity.
Qed.

(** Printing the colour that [hexToRgb] has read: the lower-case spelling
    of a colour string, black for any other string. *)
Lemma rgbToHex_hexToRgb (s : string) :
  rgbToHex (hexToRgb s)
  = match matchHex s with
    | Some _ => normalizeHex s
    | None => "#000000"
    end.
Proof.
  unfold hexToRgb. destruct (matchHex s) as [[[r g] b]|] eqn:E.
  - apply matchHex_Some in E as (_ & Hr & Hg & Hb & ->).
    rewrite rgbToHex_unfold. cbn [Rgb.r Rgb.g Rgb.b].
    by rewrite !channelHex_byte.
  - by vm_compute.
Qed.

(** At level 1 the blend is the active colour, printed. *)
Lemma blend_one (a b : string) : blend a b 1 = rgbToHex (hexToRgb b).
Proof.
  unfold blend. rewrite !rgbToHex_unfold. cbn [Rgb.r Rgb.g Rgb.b].
  f_equal. f_equal; [|f_equal]; apply channelHex_comp; ring.
Qed.

(** The value that [parseInt] reads from a digit is its place among the
    sixteen digits. *)
Lemma HexDigitOf_value (c : ascii) (v : Z) :
  HexDigitOf c v → hexDigitValue c = Some v.
Proof.
  intros [Hv Hget].
  assert (Hall : forallb
            (λ n, forallb
                    (λ v, implb
                            (bool_decide
                               (String.get (Z.to_nat v) "0123456789abcdef"
                                = Some (toLower (ascii_of_N (Z.to_N n)))))
                            (bool_decide
                               (hexDigitValue (ascii_of_N (Z.to_N n))
                                = Some v)))
                    (seqZ 0 16))
            (seqZ 0 256) = true) by (by vm_compute).
  rewrite forallb_forall in Hall.
  pose proof (N_ascii_bounded c) as Hc.
  specialize (Hall (Z.of_N (N_of_ascii c))).
  rewrite N2Z.id, ascii_N_embedding in Hall.
  assert (Hin : In (Z.of_N (N_of_ascii c)) (seqZ 0 256))
    by (apply list_elem_of_In, elem_of_seqZ; lia).
  specialize (Hall Hin). rewrite forallb_forall in Hall.
  assert (Hin' : In v (seqZ 0 16))
    by (apply list_elem_of_In, elem_of_seqZ; lia).
  specialize (Hall v Hin').
  rewrite (bool_decide_eq_true_2 _ Hget) in Hall.
  by apply bool_decide_eq_true in Hall.
Qed.

(** The digits that [toString(16)] prints, in their order. *)
Lemma hexDigit_place (v : Z) :
  0 ≤ v < 16 →
  String.get (Z.to_nat v) "0123456789abcdef" = Some (hexDigit v).
Proof.
  intros Hv.
  assert (Hall : forallb
            (λ v, bool_decide
                    (String.get (Z.to_nat v) "0123456789abcdef"
                     = Some (hexDigit v)))
            (seqZ 0 16) = true) by (by vm_compute).
  rewrite forallb_forall in Hall.
  assert (Hin : In v (seqZ 0 16))
    by (apply list_elem_of_In, elem_of_seqZ; lia).
  specialize (Hall v Hin). by apply bool_decide_eq_true in Hall.
Qed.

Lemma hexToRgb_digits (c1 c2 c3 c4 c5 c6 : ascii) (v1 v2 v3 v4 v5 v6 : Z)
    (s : string) :
  hexDigitValue c1 = Some v1 → hexDigitValue c2 = Some v2 →
  hexDigitValue c3 = Some v3 → hexDigitValue c4 = Some v4 →
  hexDigitValue c5 = Some v5 → hexDigitValue c6 = Some v6 →
  let body := String c1 (String c2 (String c3 (String c4 (String c5
                (String c6 EmptyString))))) in
  s = body ∨ s = String "#" body →
  hexToRgb s = {| Rgb.r := inject_Z (16 * v1 + v2);
                  Rgb.g := inject_Z (16 * v3 + v4);
                  Rgb.b := inject_Z (16 * v5 + v6) |}.
Proof.
  intros H1 H2 H3 H4 H5 H6 body Hs.
  assert (Hm : matchHex s = Some (16 * v1 + v2, 16 * v3 + v4, 16 * v5 + v6)).
  { assert (Hb : matchHex (String "#" body)
                 = Some (16 * v1 + v2, 16 * v3 + v4, 16 * v5 + v6)).
    { unfold matchHex, body, hexPair.
      by rewrite H1, H2, H3, H4, H5, H6. }
    destruct Hs as [->| ->]; [|done].
    assert (Hne : c1 ≠ "#"%char)
      by (by destruct (hexDigitValue_Some c1 v1 H1) as (_ & _ & _ & ?)).
    rewrite <- Hb. unfold matchHex, body.
    destruct (Ascii.eqb_spec c1 "#"); [done|].
    destruct c1 as [[] [] [] [] [] [] [] []]; done. }
  unfold hexToRgb. by rewrite Hm.
Qed.

(** C8, amended.  The colour helpers are total functions.  On a string
    that is not an optional [#] followed by exactly six hexadecimal
    digits, [hexToRgb] returns black; on one that is, each channel is
    [16 * d + d'] for the values [d], [d'] of its two digits.  For all
    strings [a], [b] and every finite number [t], [blend a b t] is [#]
    followed by six (lower-case) hexadecimal digits, two per channel: the
    digits at the places [v / 16] and [v mod 16], for [v] the channel
    [ca + (cb - ca) * t] rounded to the nearest integer and clamped to
    [0, 255].  [blend] on numbers of every kind agrees with this on the
    finite ones. *)
Theorem color_helpers_spec :
  (∀ s : string,
     ¬ HexColor s → hexToRgb s = {| Rgb.r := 0; Rgb.g := 0; Rgb.b := 0 |})
  ∧ (∀ (c1 c2 c3 c4 c5 c6 : ascii) (v1 v2 v3 v4 v5 v6 : Z) (s : string),
       HexDigitOf c1 v1 → HexDigitOf c2 v2 → HexDigitOf c3 v3 →
       HexDigitOf c4 v4 → HexDigitOf c5 v5 → HexDigitOf c6 v6 →
       let body := String c1 (String c2 (String c3 (String c4 (String c5
                     (String c6 EmptyString))))) in
       s = body ∨ s = String "#" body →
       hexToRgb s = {| Rgb.r := inject_Z (16 * v1 + v2);
                       Rgb.g := inject_Z (16 * v3 + v4);
                       Rgb.b := inject_Z (16 * v5 + v6) |})
  ∧ (∀ (a b : string) (t : Q),
       let ca := hexToRgb a in
       let cb := hexToRgb b in
       ∃ vr vg vb : Z,
         blend a b t = String "#" (hex2 vr +:+ hex2 vg +:+ hex2 vb)
         ∧ ClampedRound (Rgb.r ca + (Rgb.r cb - Rgb.r ca) * t) vr
         ∧ ClampedRound (Rgb.g ca + (Rgb.g cb - Rgb.g ca) * t) vg
         ∧ ClampedRound (Rgb.b ca + (Rgb.b cb - Rgb.b ca) * t) vb
         ∧ 0 ≤ vr ≤ 255 ∧ 0 ≤ vg ≤ 255 ∧ 0 ≤ vb ≤ 255
         ∧ String.length (blend a b t) = 7%nat
         ∧ forallb isLowerHexDigit
             (String.list_ascii_of_string
                (hex2 vr +:+ hex2 vg +:+ hex2 vb)) = true)
  ∧ (∀ v : Z,
       0 ≤ v ≤ 255 →
       ∃ hi lo : ascii,
         hex2 v = String hi (String lo EmptyString)
         ∧ String.get (Z.to_nat (v / 16)) "0123456789abcdef" = Some hi
         ∧ String.get (Z.to_nat (v mod 16)) "0123456789abcdef" = Some lo)
  ∧ (∀ (a b : string) (t : Q),
       Number.blend a b (Number.Finite t) = blend a b t).
Proof.
  split; [|split; [|split; [|split]]].
  - intros s Hs. unfold hexToRgb.
    destruct (matchHex s) as [[[r g] b]|] eqn:E; [|done].
    by apply matchHex_Some in E as (H & _).
  - intros c1 c2 c3 c4 c5 c6 v1 v2 v3 v4 v5 v6 s H1 H2 H3 H4 H5 H6.
    apply hexToRgb_digits; by apply HexDigitOf_value.
  - intros a b t ca cb. unfold blend. fold ca cb. rewrite rgbToHex_unfold.
    cbn [Rgb.r Rgb.g Rgb.b].
    destruct (channelHex_spec (Rgb.r ca + (Rgb.r cb - Rgb.r ca) * t)%Q)
      as (vr & -> & Cr & Hr).
    destruct (channelHex_spec (Rgb.g ca + (Rgb.g cb - Rgb.g ca) * t)%Q)
      as (vg & -> & Cg & Hg).
    destruct (channelHex_spec (Rgb.b ca + (Rgb.b cb - Rgb.b ca) * t)%Q)
      as (vb & -> & Cb & Hb).
    exists vr, vg, vb. do 8 (split; [done|]).
    rewrite !forallb_string_app, !hex2_digits by done. done.
  - intros v Hv. exists (hexDigit (v / 16)), (hexDigit (v mod 16)).
    split; [done|].
    split; apply hexDigit_place;
      [split; [apply Z.div_pos; lia|apply Z.div_lt_upper_bound; lia]
      |apply Z.mod_pos_bound; lia].
  - intros a b t. reflexivity.
Qed.

(** C8 as it is stated fails for a weight that is not a finite number:
    with [NaN] every channel is [NaN], which [Math.round], [Math.min] and
    [Math.max] hand on and [toString(16)] prints as the three letters
    [NaN]; it fails as well for an infinite weight between two equal
    channels, zero times an infinity being [NaN].  The result is not a
    colour string. *)
Lemma color_helpers_counterexample :
  Number.blend "#5227FF" "#FFFFFF" Number.NaN = "#NaNNaNNaN"
  ∧ Number.blend "#5227FF" "#FFFFFF" Number.Infinity = "#ffffNaN"
  ∧ String.length (Number.blend "#5227FF" "#FFFFFF" Number.NaN) ≠ 7%nat
  ∧ ¬ HexColor (Number.blend "#5227FF" "#FFFFFF" Number.NaN)
  ∧ ¬ HexColor (Number.blend "#5227FF" "#FFFFFF" Number.Infinity).
Proof.
  assert (E1 : Number.blend "#5227FF" "#FFFFFF" Number.NaN = "#NaNNaNNaN")
    by (by vm_compute).
  assert (E2 : Number.blend "#5227FF" "#FFFFFF" Number.Infinity
               = "#ffffNaN") by (by vm_compute).
  rewrite E1, E2.
  split; [done|]. split; [done|]. split; [by vm_compute|].
  split; intros (body & [Hs|Hs] & Hlen & _); subst body + injection Hs as <-;
    by vm_compute in Hlen.
Qed.

(** A byte parses back from its two digits. *)
Lemma hexPair_hex2 (v : Z) :
  0 ≤ v ≤ 255 → hexPair (hexDigit (v / 16)) (hexDigit (v mod 16)) = Some v.
Proof.
  intros Hv.
  assert (Hall : forallb
            (λ v, bool_decide
                    (hexPair (hexDigit (v / 16)) (hexDigit (v mod 16))
                     = Some v))
            (seqZ 0 256) = true) by (by vm_compute).
  rewrite forallb_forall in Hall.
  assert (Hin : In v (seqZ 0 256))
    by (apply list_elem_of_In, elem_of_seqZ; lia).
  pose proof (Hall v Hin) as H. by apply bool_decide_eq_true in H.
Qed.

Lemma matchHex_printed (r g b : Z) :
  0 ≤ r ≤ 255 → 0 ≤ g ≤ 255 → 0 ≤ b ≤ 255 →
  matchHex (String "#" (hex2 r +:+ hex2 g +:+ hex2 b)) = Some (r, g, b).
Proof.
  intros Hr Hg Hb. unfold hex2, matchHex.
  cbv beta iota fix delta [String.append]. by rewrite !hexPair_hex2.
Qed.

(** Reading a colour string and reading its lower-case spelling give the
    same colour. *)
Lemma hexToRgb_normalizeHex (s : string) :
  HexColor s → hexToRgb (normalizeHex s) = hexToRgb s.
Proof.
  intros Hs. destruct (matchHex_complete s Hs) as (r & g & b & E).
  destruct (matchHex_Some s r g b E) as (_ & Hr & Hg & Hb & ->).
  unfold hexToRgb. by rewrite matchHex_printed, E.
Qed.

Lemma Trail_renderDot_idle (p : DotGridHeroProps) (hover : option Pointer)
    (hovered : option Dot.t) (active : gset Z) (lastHit : gmap Z Q) (now : Q)
    (i : nat) (dot : Dot.t) :
  hoverActive hover hovered active (Z.of_nat i) = None →
  trailEnabled p = false →
  let c := Trail.renderDot p hover hovered active lastHit now i dot in
  cx c = Dot.x dot ∧ cy c = Dot.y dot
  ∧ (radius c == baseRadiusOf p * 1)%Q
  ∧ fill c = baseColor p.
Proof.
  intros H He. unfold Trail.renderDot, Trail.levelAndScale.
  rewrite H, (getTrailLevel_disabled p lastHit now _ He).
  change (lt_num 0 0) with false. cbv iota beta zeta. simpl.
  repeat split; first [done | ring].
Qed.

Lemma Plain_renderDot_idle (p : DotGridHeroProps) (hover : option Pointer)
    (hovered : option Dot.t) (active : gset Z) (i : nat) (dot : Dot.t) :
  hoverActive hover hovered active (Z.of_nat i) = None →
  let c := Plain.renderDot p hover hovered active i dot in
  cx c = Dot.x dot ∧ cy c = Dot.y dot
  ∧ radius c = (baseRadiusOf p * 1)%Q
  ∧ fill c = baseColor p.
Proof. intros H. unfold Plain.renderDot. by rewrite H. Qed.

(** ** The fill of the cluster *)

(** C6, as stated, fails on the trailing variant: with the default
    properties ([activeColor = "#FFFFFF"]) the hovered dot is filled with
    ["#ffffff"], the string that [blend] prints, not with the string
    [activeColor]; and with [activeColor = "#FFF"], which the pattern of
    [hexToRgb] does not match, it is filled with ["#000000"]. *)
Lemma cluster_fill_counterexample :
  let d := {| width := 400; height := 400 |} in
  let hover := Some {| px := 200; py := 200 |} in
  let short := {| dotSize := 16; gap := 32; baseColor := "#5227FF";
                  activeColor := "#FFF";
                  backgroundColor := "rgba(0, 0, 0, 0)";
                  circleRadius := None; hoverSquareRadius := None;
                  hoverDotCount := None; smoothIntensity := None;
                  trailEnabled := false; trailHoldMs := 180;
                  trailFadeMs := 520 |} in
  40 ∈ activeSet (hoveredDot hover (gridOf defaultProps d))
         (colsOf defaultProps d) (rowsOf defaultProps d)
         (hoverDotCount defaultProps)
  ∧ (∃ c, Trail.render defaultProps d hover ∅ 0 !! 40%nat = Some c
          ∧ fill c = "#ffffff" ∧ fill c ≠ activeColor defaultProps)
  ∧ (∃ c, Trail.render short d hover ∅ 0 !! 40%nat = Some c
          ∧ fill c = "#000000" ∧ fill c ≠ activeColor short).
Proof.
  intros d hover short. split.
  - apply (bool_decide_unpack _). by vm_compute.
  - split; eexists; (split; [by vm_compute|]); split; by vm_compute.
Qed.

(** C6, amended.  With the pointer present, a dot of the cluster is
    filled, in the plain variant, with [activeColor] itself; in the
    trailing variant its level is exactly 1 and its fill is
    [blend(baseColor, activeColor, 1)], the same for every dot of the
    cluster whatever its distance: the colour [activeColor] printed by
    [rgbToHex].  When [activeColor] is an optional [#] followed by six
    hexadecimal digits this is its lower-case spelling [#rrggbb], the same
    RGB colour, and [activeColor] itself when it is spelled that way. *)
Theorem cluster_fill_spec (p : DotGridHeroProps) (d : Dimensions)
    (hover : Pointer) (lastHit : gmap Z Q) (now : Q) (i : nat)
    (dot hd : Dot.t) :
  gridOf p d !! i = Some dot →
  hoveredDot (Some hover) (gridOf p d) = Some hd →
  Z.of_nat i
    ∈ activeSet (Some hd) (colsOf p d) (rowsOf p d) (hoverDotCount p) →
  (∃ c, Plain.render p d (Some hover) !! i = Some c
        ∧ fill c = activeColor p)
  ∧ (∃ c, Trail.render p d (Some hover) lastHit now !! i = Some c
          ∧ (Trail.levelAndScale p (Some hover) (Some hd)
               (activeSet (Some hd) (colsOf p d) (rowsOf p d)
                  (hoverDotCount p)) lastHit now i dot).1 = 1%Q
          ∧ fill c = blend (baseColor p) (activeColor p) 1
          ∧ fill c = rgbToHex (hexToRgb (activeColor p))
          ∧ (HexColor (activeColor p) →
               fill c = normalizeHex (activeColor p)
               ∧ hexToRgb (fill c) = hexToRgb (activeColor p)
               ∧ (normalizeHex (activeColor p) = activeColor p →
                  fill c = activeColor p))).
Proof.
  intros Hlk Hhd Hin.
  assert (Hact : hoverActive (Some hover) (Some hd)
                   (activeSet (Some hd) (colsOf p d) (rowsOf p d)
                      (hoverDotCount p))
                   (Z.of_nat i) = Some hd).
  { apply hoverActive_Some. eauto. }
  split.
  { eexists. unfold Plain.render. rewrite list_lookup_imap, Hlk, Hhd.
    split; [reflexivity|].
    by destruct (Plain_renderDot_active p _ _ _ i dot hd Hact)
      as (_ & _ & _ & ->). }
  eexists. unfold Trail.render. rewrite list_lookup_imap, Hlk, Hhd.
  split; [reflexivity|].
  destruct (Trail_renderDot_active p _ _ _ lastHit now i dot hd Hact)
    as (_ & _ & _ & Hfill).
  cbv zeta in Hfill. cbn [fmap option_fmap option_map].
  rewrite Hfill, (Trail_levelAndScale_active _ _ _ _ _ _ _ _ _ Hact).
  split; [done|]. split; [done|]. rewrite blend_one. split; [done|].
  intros Hhex. destruct (matchHex_complete _ Hhex) as (r & g & b & E).
  rewrite rgbToHex_hexToRgb, E.
  split; [done|]. split; [by apply hexToRgb_normalizeHex|]. by intros ->.
Qed.

Lemma cluster_fill_spec_witness :
  let d := {| width := 400; height := 400 |} in
  ∃ c, Trail.render defaultProps d (Some {| px := 200; py := 200 |}) ∅ 0
         !! 20%nat = Some c
       ∧ fill c = normalizeHex "#FFFFFF".
Proof.
  pose proof (cluster_fill_spec defaultProps {| width := 400; height := 400 |}
                {| px := 200; py := 200 |} ∅ 0 20
                (Dot.mk (416 # 4) (416 # 4) 2 2)
                (Dot.mk (800 # 4) (800 # 4) 4 4)
                ltac:(by vm_compute) ltac:(by vm_compute)
                ltac:(apply (bool_decide_unpack _); by vm_compute))
    as [_ (c & Hc & _ & _ & _ & Hn)].
  exists c. split; [exact Hc|]. apply Hn.
  exists "FFFFFF". split; [by right|]. split; by vm_compute.
Defined.

(** ** The two variants *)

(** C9, as stated, fails: with the default properties (whose
    [trailEnabled] is false) and the pointer on the middle dot of a
    400 x 400 container, the two variants emit different fill strings for
    that dot. *)
Lemma variants_counterexample :
  let d := {| width := 400; height := 400 |} in
  let hover := Some {| px := 200; py := 200 |} in
  trailEnabled defaultProps = false
  ∧ ∃ ct cp,
      Trail.render defaultProps d hover ∅ 0 !! 40%nat = Some ct
      ∧ Plain.render defaultProps d hover !! 40%nat = Some cp
      ∧ fill ct = "#ffffff" ∧ fill cp = "#FFFFFF" ∧ fill ct ≠ fill cp.
Proof.
  intros d hover. split; [done|]. do 2 eexists.
  split; [by vm_compute|]. split; [by vm_compute|].
  split; [by vm_compute|]. split; by vm_compute.
Qed.

(** C9, amended.  With [trailEnabled = false], whatever the trail map and
    the clock hold, the trailing variant emits as many dots as the plain
    one, in the same order, each with the same centre and the same radius.
    A dot outside the cluster has the fill [baseColor] in both.  A dot of
    the cluster has the fill [activeColor] in the plain variant and
    [activeColor] printed by [rgbToHex] in the trailing one: when
    [activeColor] is an optional [#] followed by six hexadecimal digits,
    its lower-case spelling [#rrggbb], so that the two fills are the same
    string when [activeColor] is spelled that way. *)
Theorem variants_agree (p : DotGridHeroProps) (d : Dimensions)
    (hover : option Pointer) (lastHit : gmap Z Q) (now : Q) :
  trailEnabled p = false →
  let hovered := hoveredDot hover (gridOf p d) in
  let active := activeSet hovered (colsOf p d) (rowsOf p d)
                  (hoverDotCount p) in
  length (Trail.render p d hover lastHit now)
  = length (Plain.render p d hover)
  ∧ ∀ (i : nat) (ct cp : Circle),
      Trail.render p d hover lastHit now !! i = Some ct →
      Plain.render p d hover !! i = Some cp →
      cx ct = cx cp ∧ cy ct = cy cp ∧ (radius ct == radius cp)%Q
      ∧ match hoverActive hover hovered active (Z.of_nat i) with
        | Some _ =>
            fill cp = activeColor p
            ∧ fill ct = rgbToHex (hexToRgb (activeColor p))
            ∧ (HexColor (activeColor p) →
                 fill ct = normalizeHex (activeColor p)
                 ∧ (normalizeHex (activeColor p) = activeColor p →
                    fill ct = fill cp))
        | None => fill cp = baseColor p ∧ fill ct = baseColor p
        end.
Proof.
  intros He hovered active. split.
  { unfold Trail.render, Plain.render. by rewrite !length_imap. }
  intros i ct cp Ht Hp. unfold Trail.render in Ht. unfold Plain.render in Hp.
  fold hovered active in Ht, Hp.
  apply list_lookup_imap_Some in Ht as (dot & Hlk & ->).
  apply list_lookup_imap_Some in Hp as (dot' & Hlk' & ->).
  rewrite Hlk in Hlk'. injection Hlk' as <-.
  destruct (hoverActive hover hovered active (Z.of_nat i)) as [hd|] eqn:Hact.
  - destruct (Plain_renderDot_active p _ _ _ i dot hd Hact)
      as (-> & -> & -> & ->).
    destruct (Trail_renderDot_active p _ _ _ lastHit now i dot hd Hact)
      as (-> & -> & -> & ->).
    rewrite blend_one.
    split; [done|]. split; [done|]. split; [reflexivity|].
    split; [done|]. split; [done|].
    intros Hhex. destruct (matchHex_complete _ Hhex) as (r & g & b & E).
    rewrite rgbToHex_hexToRgb, E. split; [done|]. by intros ->.
  - destruct (Plain_renderDot_idle p _ _ _ i dot Hact)
      as (-> & -> & -> & ->).
    destruct (Trail_renderDot_idle p _ _ _ lastHit now i dot Hact He)
      as (-> & -> & -> & ->).
    split; [done|]. split; [done|]. split; [reflexivity|]. done.
Qed.

Lemma variants_agree_witness :
  let d := {| width := 400; height := 400 |} in
  length (Trail.render defaultProps d (Some {| px := 200; py := 200 |}) ∅ 0)
  = length (Plain.render defaultProps d (Some {| px := 200; py := 200 |})).
Proof.
  exact (proj1 (variants_agree defaultProps {| width := 400; height := 400 |}
                  (Some {| px := 200; py := 200 |}) ∅ 0 ltac:(reflexivity))).
Defined.

(** ** A property that is never read *)

Lemma render_withHoverSquareRadius (v : option Q) (p : DotGridHeroProps)
    (d : Dimensions) (hover : option Pointer) (lastHit : gmap Z Q) (now : Q) :
  Plain.render (withHoverSquareRadius v p) d hover = Plain.render p d hover
  ∧ Trail.render (withHoverSquareRadius v p) d hover lastHit now
    = Trail.render p d hover lastHit now.
Proof. by destruct p. Qed.

Lemma clock_withHoverSquareRadius (v : option Q) (p : DotGridHeroProps)
    (d : Dimensions) (es : list Loop.Event) :
  Loop.run (withHoverSquareRadius v p) d es = Loop.run p d es.
Proof. by destruct p. Qed.

(** C10.  Two property records that differ at most in [hoverSquareRadius]
    (its value, or its absence) give the same output: every dot emitted,
    by either variant, is the same, and so are the cluster and the trail
    state that a sequence of events leaves.  The size of the cluster comes
    from [hoverDotCount] alone (5 when absent). *)
Theorem hoverSquareRadius_unused (p1 p2 : DotGridHeroProps) (d : Dimensions)
    (hover : option Pointer) (lastHit : gmap Z Q) (now : Q)
    (es : list Loop.Event) :
  withHoverSquareRadius None p1 = withHoverSquareRadius None p2 →
  Plain.render p1 d hover = Plain.render p2 d hover
  ∧ Trail.render p1 d hover lastHit now = Trail.render p2 d hover lastHit now
  ∧ activeSet (hoveredDot hover (gridOf p1 d)) (colsOf p1 d) (rowsOf p1 d)
      (hoverDotCount p1)
    = activeSet (hoveredDot hover (gridOf p2 d)) (colsOf p2 d) (rowsOf p2 d)
        (hoverDotCount p2)
  ∧ Loop.run p1 d es = Loop.run p2 d es.
Proof.
  intros Heq.
  destruct (render_withHoverSquareRadius None p1 d hover lastHit now)
    as [P1 T1].
  destruct (render_withHoverSquareRadius None p2 d hover lastHit now)
    as [P2 T2].
  pose proof (clock_withHoverSquareRadius None p1 d es) as L1.
  pose proof (clock_withHoverSquareRadius None p2 d es) as L2.
  rewrite Heq in P1, T1, L1.
  split; [congruence|]. split; [congruence|]. split; [|congruence].
  assert (Hf : ∀ p, (dotSize p, gap p, hoverDotCount p)
                    = (dotSize (withHoverSquareRadius None p),
                       gap (withHoverSquareRadius None p),
                       hoverDotCount (withHoverSquareRadius None p)))
    by done.
  pose proof (Hf p1) as H1. pose proof (Hf p2) as H2.
  rewrite Heq in H1. rewrite <- H2 in H1. injection H1 as E1 E2 E3.
  unfold gridOf, colsOf, rowsOf. by rewrite E1, E2, E3.
Qed.

Lemma hoverSquareRadius_unused_witness :
  let d := {| width := 400; height := 400 |} in
  let hover := Some {| px := 200; py := 200 |} in
  Trail.render (withHoverSquareRadius (Some 1%Q) defaultProps) d hover ∅ 0
  = Trail.render (withHoverSquareRadius (Some 5%Q) defaultProps) d hover ∅ 0.
Proof.
  exact (proj1 (proj2
    (hoverSquareRadius_unused
       (withHoverSquareRadius (Some 1%Q) defaultProps)
       (withHoverSquareRadius (Some 5%Q) defaultProps)
       {| width := 400; height := 400 |}
       (Some {| px := 200; py := 200 |}) ∅ 0 [] ltac:(reflexivity)))).
Defined.

(** ** The worked example

    [dotSize = 16], [gap = 32], a container of 400 x 400 and the pointer
    at its centre. *)

Example example_grid :
  let d := {| width := 400; height := 400 |} in
  cell (dotSize defaultProps) (gap defaultProps) = 48%Q
  ∧ colsOf defaultProps d = 9 ∧ rowsOf defaultProps d = 9
  ∧ length (gridOf defaultProps d) = 81%nat.
Proof. by vm_compute. Qed.

Example example_hovered :
  let d := {| width := 400; height := 400 |} in
  hoveredDot (Some {| px := 200; py := 200 |}) (gridOf defaultProps d)
  = Some (mkDot d 16 32 4 4).
Proof. by vm_compute. Qed.

Example example_cluster :
  let d := {| width := 400; height := 400 |} in
  activeSet (Some (mkDot d 16 32 4 4)) 9 9 None
  = list_to_set (rectIndices 9 2 5 2 5).
Proof.
  intros d.
  exact (activeSet_square (mkDot d 16 32 4 4) 9 9 None
           ltac:(by vm_compute) ltac:(by vm_compute) ltac:(by vm_compute)
           ltac:(by vm_compute) ltac:(by vm_compute)).
Qed.

Example example_scales :
  (falloffScale defaultProps 0 == 1.95)%Q
  ∧ (falloffScale defaultProps 1 == 1.475)%Q
  ∧ (falloffScale defaultProps 2 == 1)%Q.
Proof. by vm_compute. Qed.

Example example_plain_centre :
  let d := {| width := 400; height := 400 |} in
  Plain.render defaultProps d (Some {| px := 200; py := 200 |}) !! 40%nat
  = Some {| cx := (800 # 4)%Q; cy := (800 # 4)%Q; radius := (6240 # 400)%Q;
            fill := "#FFFFFF"; transition := Plain.transitionOn |}.
Proof. by vm_compute. Qed.

Example example_zero_container :
  Plain.render defaultProps {| width := 0; height := 0 |} None
  = [ {| cx := (0 # 4)%Q; cy := (0 # 4)%Q; radius := (16 # 2)%Q;
         fill := "#5227FF"; transition := "none" |} ].
Proof. by vm_compute. Qed.

Example example_hexToRgb :
  hexToRgb "#5227FF" = {| Rgb.r := 82; Rgb.g := 39; Rgb.b := 255 |}
  ∧ hexToRgb "5227ff" = {| Rgb.r := 82; Rgb.g := 39; Rgb.b := 255 |}
  ∧ hexToRgb "rgba(0, 0, 0, 0)" = {| Rgb.r := 0; Rgb.g := 0; Rgb.b := 0 |}
  ∧ blend "#5227FF" "#FFFFFF" 0.5 = "#a993ff".
Proof. by vm_compute. Qed.

(** * Further properties of the code *)

(** ** The grid inside its container *)

Lemma floor_ge_1 (x : Q) : (1 <= x)%Q → 1 ≤ Qfloor x.
Proof.
  intros H. pose proof (Qlt_floor x) as Hlt.
  assert (Hq : (inject_Z 1 < inject_Z (Qfloor x + 1))%Q).
  { change (inject_Z 1) with 1%Q. by apply (Qle_lt_trans _ x). }
  rewrite <- Zlt_Qlt in Hq. lia.
Qed.

(** How many cells fit: for a pitch [cl > 0] and [cl <= v + g], the count
    [n = max(1, floor((v + g) / cl))] satisfies
    [cl * n <= v + g < cl * n + cl]. *)
Lemma fit_bounds (v g cl : Q) :
  (0 < cl)%Q → (cl <= v + g)%Q →
  let n := Z.max 1 (Qfloor ((v + g) / cl)%Q) in
  (cl * inject_Z n <= v + g)%Q ∧ (v + g < cl * inject_Z n + cl)%Q.
Proof.
  intros Hcl Hle n.
  assert (H1 : (1 <= (v + g) / cl)%Q) by (apply Qle_shift_div_l; lra).
  pose proof (floor_ge_1 _ H1) as Hfl.
  assert (Hn : n = Qfloor ((v + g) / cl)%Q) by (unfold n; lia).
  pose proof (Qfloor_le ((v + g) / cl)%Q) as Hlo.
  pose proof (Qlt_floor ((v + g) / cl)%Q) as Hhi.
  rewrite <- Hn in Hlo, Hhi. rewrite inject_Z_plus in Hhi.
  change (inject_Z 1) with 1%Q in Hhi.
  assert (Hmul : ((v + g) / cl * cl == v + g)%Q) by (field; lra).
  split.
  - assert (H : (inject_Z n * cl <= (v + g) / cl * cl)%Q)
      by (apply Qmult_le_compat_r; lra).
    rewrite Hmul in H. rewrite (Qmult_comm cl). exact H.
  - assert (H : ((v + g) / cl * cl < (inject_Z n + 1) * cl)%Q)
      by (apply Qmult_lt_compat_r; lra).
    rewrite Hmul in H. lra.
Qed.

(** The margin left of the first column equals the margin right of the
    last one, and likewise above and below: the grid is centred. *)
Theorem grid_centred (w h ds g : Q) :
  ¬ (ds + g == 0)%Q →
  let d := {| width := w; height := h |} in
  let first := mkDot d ds g 0 0 in
  let last := mkDot d ds g (rows d ds g - 1) (cols d ds g - 1) in
  (Dot.x first - ds / 2 == w - (Dot.x last + ds / 2))%Q
  ∧ (Dot.y first - ds / 2 == h - (Dot.y last + ds / 2))%Q
  ∧ (Dot.x first - ds / 2 == extraX d ds g / 2)%Q
  ∧ (Dot.y first - ds / 2 == extraY d ds g / 2)%Q.
Proof.
  intros _ d first last. unfold first, last, mkDot. cbn [Dot.x Dot.y].
  assert (E : ∀ n : Z, (inject_Z (n - 1) == inject_Z n - 1)%Q).
  { intros n. unfold Z.sub. rewrite inject_Z_plus. reflexivity. }
  rewrite !E. unfold startX, startY, extraX, extraY, gridW, gridH, cell.
  cbn [width height d]. change (inject_Z 0) with 0%Q.
  set (nc := inject_Z (cols _ ds g)). set (nr := inject_Z (rows _ ds g)).
  repeat split; field.
Qed.

Lemma grid_centred_witness :
  let d := {| width := 410; height := 300 |} in
  (Dot.x (mkDot d 16 32 0 0) - 16 / 2
   == 410 - (Dot.x (mkDot d 16 32 5 8) + 16 / 2))%Q.
Proof.
  exact (proj1 (grid_centred 410 300 16 32 ltac:(by vm_compute))).
Defined.

(** When the container is at least one dot wide and high, the leftover
    space is not negative and smaller than one pitch, and the square of
    side [dotSize] around every dot lies inside the container. *)
Theorem grid_inside_container (w h ds g : Q) :
  (0 < ds)%Q → (0 <= g)%Q → (ds <= w)%Q → (ds <= h)%Q →
  let d := {| width := w; height := h |} in
  (0 <= extraX d ds g)%Q ∧ (extraX d ds g < ds + g)%Q
  ∧ (0 <= extraY d ds g)%Q ∧ (extraY d ds g < ds + g)%Q
  ∧ ∀ r c : Z, 0 ≤ r < rows d ds g → 0 ≤ c < cols d ds g →
      (0 <= Dot.x (mkDot d ds g r c) - ds / 2)%Q
      ∧ (Dot.x (mkDot d ds g r c) + ds / 2 <= w)%Q
      ∧ (0 <= Dot.y (mkDot d ds g r c) - ds / 2)%Q
      ∧ (Dot.y (mkDot d ds g r c) + ds / 2 <= h)%Q.
Proof.
  intros Hds Hg Hw Hh d.
  destruct (fit_bounds w g (ds + g) ltac:(lra) ltac:(lra)) as [Hx1 Hx2].
  destruct (fit_bounds h g (ds + g) ltac:(lra) ltac:(lra)) as [Hy1 Hy2].
  change (Z.max 1 (Qfloor ((w + g) / (ds + g))%Q)) with (cols d ds g)
    in Hx1, Hx2.
  change (Z.max 1 (Qfloor ((h + g) / (ds + g))%Q)) with (rows d ds g)
    in Hy1, Hy2.
  assert (Ex : (extraX d ds g == w + g - (ds + g) * inject_Z (cols d ds g))%Q)
    by (unfold extraX, gridW, cell; cbn [width d]; ring).
  assert (Ey : (extraY d ds g == h + g - (ds + g) * inject_Z (rows d ds g))%Q)
    by (unfold extraY, gridH, cell; cbn [height d]; ring).
  split; [lra|]. split; [lra|]. split; [lra|]. split; [lra|].
  intros r c Hr Hc. unfold mkDot. cbn [Dot.x Dot.y].
  unfold startX, startY, cell.
  assert (Hc0 : (0 <= inject_Z c)%Q)
    by (change 0%Q with (inject_Z 0); rewrite <- Zle_Qle; lia).
  assert (Hc1 : (inject_Z c + 1 <= inject_Z (cols d ds g))%Q).
  { change 1%Q with (inject_Z 1). rewrite <- inject_Z_plus, <- Zle_Qle. lia. }
  assert (Hr0 : (0 <= inject_Z r)%Q)
    by (change 0%Q with (inject_Z 0); rewrite <- Zle_Qle; lia).
  assert (Hr1 : (inject_Z r + 1 <= inject_Z (rows d ds g))%Q).
  { change 1%Q with (inject_Z 1). rewrite <- inject_Z_plus, <- Zle_Qle. lia. }
  assert (Mc0 : (0 <= inject_Z c * (ds + g))%Q)
    by (apply Qmult_le_0_compat; lra).
  assert (Mr0 : (0 <= inject_Z r * (ds + g))%Q)
    by (apply Qmult_le_0_compat; lra).
  assert (Mc1 : ((inject_Z c + 1) * (ds + g)
                 <= inject_Z (cols d ds g) * (ds + g))%Q)
    by (apply Qmult_le_compat_r; lra).
  assert (Mr1 : ((inject_Z r + 1) * (ds + g)
                 <= inject_Z (rows d ds g) * (ds + g))%Q)
    by (apply Qmult_le_compat_r; lra).
  assert (Hhalf : ∀ e : Q, (e / 2 == e * (1 # 2))%Q) by (intros e; field).
  rewrite !Hhalf. repeat split; lra.
Qed.

Lemma grid_inside_container_witness :
  let d := {| width := 400; height := 400 |} in
  (0 <= Dot.x (mkDot d 16 32 0 0) - 16 / 2)%Q
  ∧ (Dot.x (mkDot d 16 32 8 8) + 16 / 2 <= 400)%Q.
Proof.
  pose proof (grid_inside_container 400 400 16 32 ltac:(by vm_compute)
                ltac:(by vm_compute) ltac:(by vm_compute)
                ltac:(by vm_compute)) as (_ & _ & _ & _ & H).
  split.
  - exact (proj1 (H 0 0 ltac:(by vm_compute) ltac:(by vm_compute))).
  - exact (proj1 (proj2 (H 8 8 ltac:(by vm_compute) ltac:(by vm_compute)))).
Defined.

(** The index of a dot in the list is [row * cols + col]: the identity
    that the cluster and the render loop share. *)
Theorem grid_index_identity (d : Dimensions) (ds g : Q) (i : nat)
    (dot : Dot.t) :
  ¬ (ds + g == 0)%Q →
  grid d ds g !! i = Some dot
  ↔ 0 ≤ Dot.row dot < rows d ds g ∧ 0 ≤ Dot.col dot < cols d ds g
    ∧ Z.of_nat i = Dot.row dot * cols d ds g + Dot.col dot
    ∧ dot = mkDot d ds g (Dot.row dot) (Dot.col dot).
Proof.
  intros _. split.
  - intros Hlk.
    destruct (grid_lookup_index d ds g i dot Hlk) as (Hr & Hc & Hi & ->).
    done.
  - intros (Hr & Hc & Hi & ->). cbn [Dot.row Dot.col mkDot] in Hr, Hc, Hi.
    pose proof (grid_lookup d ds g _ _ Hr Hc) as Hlk.
    by rewrite <- Hi, Nat2Z.id in Hlk.
Qed.

Lemma grid_index_identity_witness :
  let d := {| width := 400; height := 400 |} in
  grid d 16 32 !! 40%nat = Some (mkDot d 16 32 4 4).
Proof.
  intros d.
  apply (grid_index_identity d 16 32 40 (mkDot d 16 32 4 4)
           ltac:(by vm_compute)).
  by vm_compute.
Defined.

(** A dot of the grid is in the cluster exactly when its Chebyshev
    distance to the hovered dot is at most [floor(count / 2)]. *)
Theorem cluster_by_distance (d : Dimensions) (ds g : Q) (cnt : option Q)
    (i : nat) (dot hd : Dot.t) :
  ¬ (ds + g == 0)%Q →
  grid d ds g !! i = Some dot →
  Z.of_nat i ∈ activeSet (Some hd) (cols d ds g) (rows d ds g) cnt
  ↔ Z.max (Z.abs (Dot.row dot - Dot.row hd))
          (Z.abs (Dot.col dot - Dot.col hd))
    ≤ Qfloor (default 5%Q cnt / 2)%Q.
Proof.
  intros _ Hlk. split.
  - intros Hin. by destruct (gridDist_in_cluster d ds g cnt i dot hd Hlk Hin).
  - intros Hdist. apply elem_of_activeSet.
    destruct (grid_lookup_index d ds g i dot Hlk) as (Hr & Hc & Hi & ->).
    cbn [Dot.row Dot.col mkDot] in Hdist.
    eexists _, _. split; [exact Hi|].
    change (hoverRadiusOf cnt) with (Qfloor (default 5%Q cnt / 2)%Q).
    repeat split; lia.
Qed.

Lemma cluster_by_distance_witness :
  let d := {| width := 400; height := 400 |} in
  20 ∈ activeSet (Some (mkDot d 16 32 4 4)) (cols d 16 32) (rows d 16 32) None.
Proof.
  intros d.
  apply (cluster_by_distance d 16 32 None 20 (mkDot d 16 32 2 2)
           (mkDot d 16 32 4 4) ltac:(by vm_compute) ltac:(by vm_compute)).
  by vm_compute.
Defined.

(** ** The hovered dot and the cluster at their edges *)

(** The resolver returns nothing exactly when the pointer is absent or
    there is no dot, and what it returns is a dot of the list. *)
Theorem hoveredDot_none_iff (hover : option Pointer) (grid : list Dot.t) :
  (hoveredDot hover grid = None ↔ hover = None ∨ grid = [])
  ∧ (∀ dot : Dot.t, hoveredDot hover grid = Some dot → dot ∈ grid).
Proof.
  destruct hover as [h|].
  - destruct grid as [|d0 grid'].
    + split; [split; [by right|done]|done].
    + destruct (hoveredDot_nearest (d0 :: grid') h ltac:(done))
        as (i & dot & Hhd & Hlk & _).
      rewrite Hhd. split.
      * split; [done|]. by intros [?|?].
      * intros dot' [= <-]. apply list_elem_of_lookup. by exists i.
  - split; [split; [by left|done]|done].
Qed.

Lemma floor_half_neg (count : Q) : (count < 0)%Q → Qfloor (count / 2)%Q < 0.
Proof.
  intros H. pose proof (Qfloor_le (count / 2)%Q) as Hfl.
  assert (Hq : (inject_Z (Qfloor (count / 2)%Q) < inject_Z 0)%Q).
  { change (inject_Z 0) with 0%Q. apply (Qle_lt_trans _ (count / 2)); [done|].
    assert (E : (count / 2 == count * (1 # 2))%Q) by field. rewrite E. lra. }
  by rewrite <- Zlt_Qlt in Hq.
Qed.

Lemma floor_half_zero (count : Q) :
  (0 <= count)%Q → (count < 2)%Q → Qfloor (count / 2)%Q = 0.
Proof.
  intros H0 H2.
  assert (E : (count / 2 == count * (1 # 2))%Q) by field.
  pose proof (Qfloor_le (count / 2)%Q) as Hlo.
  pose proof (Qlt_floor (count / 2)%Q) as Hhi.
  assert (Hq1 : (inject_Z (Qfloor (count / 2)%Q) < inject_Z 1)%Q).
  { change (inject_Z 1) with 1%Q. apply (Qle_lt_trans _ (count / 2)); [done|].
    rewrite E. lra. }
  assert (Hq2 : (inject_Z 0 < inject_Z (Qfloor (count / 2)%Q + 1))%Q).
  { change (inject_Z 0) with 0%Q. apply (Qle_lt_trans _ (count / 2)); [|done].
    rewrite E. lra. }
  rewrite <- Zlt_Qlt in Hq1, Hq2. lia.
Qed.

(** Without a hovered dot the cluster is empty; so it is for a negative
    count.  A count in [0, 2) leaves the hovered dot alone in its cluster,
    and for every count that is not negative the hovered dot of the grid
    belongs to its own cluster. *)
Theorem activeSet_edges (hd : Dot.t) (cols rows : Z) (count : Q) :
  0 ≤ Dot.row hd < rows → 0 ≤ Dot.col hd < cols →
  activeSet None cols rows (Some count) = ∅
  ∧ ((count < 0)%Q → activeSet (Some hd) cols rows (Some count) = ∅)
  ∧ ((0 <= count)%Q → (count < 2)%Q →
       activeSet (Some hd) cols rows (Some count)
       = {[ Dot.row hd * cols + Dot.col hd ]})
  ∧ ((0 <= count)%Q →
       Dot.row hd * cols + Dot.col hd
       ∈ activeSet (Some hd) cols rows (Some count)).
Proof.
  intros Hr Hc. split; [done|]. split.
  { intros Hneg. apply set_eq. intros i. rewrite elem_of_activeSet.
    pose proof (floor_half_neg count Hneg) as HR.
    change (hoverRadiusOf (Some count)) with (Qfloor (count / 2)%Q).
    split; [|by intros ?%not_elem_of_empty].
    intros (r & c & _ & H1 & _). lia. }
  split.
  { intros H0 H2. apply set_eq. intros i.
    rewrite elem_of_activeSet, elem_of_singleton.
    change (hoverRadiusOf (Some count)) with (Qfloor (count / 2)%Q).
    rewrite (floor_half_zero count H0 H2). split.
    - intros (r & c & -> & H1 & H3 & _). f_equal; [f_equal|]; lia.
    - intros ->. exists (Dot.row hd), (Dot.col hd). repeat split; lia. }
  intros H0. apply elem_of_activeSet.
  change (hoverRadiusOf (Some count)) with (Qfloor (count / 2)%Q).
  assert (HR : 0 ≤ Qfloor (count / 2)%Q).
  { change 0 with (Qfloor (inject_Z 0)). apply Qfloor_resp_le.
    change (inject_Z 0) with 0%Q.
    assert (E : (count / 2 == count * (1 # 2))%Q) by field. rewrite E. lra. }
  exists (Dot.row hd), (Dot.col hd). repeat split; lia.
Qed.

Lemma activeSet_edges_witness :
  activeSet (Some (Dot.mk 200 200 4 4)) 9 9 (Some 1%Q) = {[ 40 ]}.
Proof.
  pose proof (activeSet_edges (Dot.mk 200 200 4 4) 9 9 1
                ltac:(by vm_compute) ltac:(by vm_compute)) as (_ & _ & H & _).
  exact (H ltac:(by vm_compute) ltac:(by vm_compute)).
Defined.

Lemma size_list_to_set_le (l : list Z) :
  (size (list_to_set l : gset Z) ≤ length l)%nat.
Proof.
  induction l as [|x l IH]; [done|].
  cbn [list_to_set length]. rewrite size_union_alt, size_singleton.
  assert (size (list_to_set l ∖ {[x]} : gset Z)
          ≤ size (list_to_set l : gset Z))%nat
    by (apply subseteq_size, subseteq_difference_l; done).
  lia.
Qed.

(** The cluster never has more than [(2 * floor(count/2) + 1)^2] members,
    wherever the hovered dot is. *)
Theorem activeSet_size_bound (hd : Dot.t) (cols rows : Z) (cnt : option Q) :
  let R := Qfloor (default 5%Q cnt / 2)%Q in
  (size (activeSet (Some hd) cols rows cnt)
   ≤ Z.to_nat ((2 * R + 1) * (2 * R + 1)))%nat.
Proof.
  intros R.
  destruct (decide (R < 0)) as [Hneg|Hpos].
  { assert (E : activeSet (Some hd) cols rows cnt = ∅).
    { apply set_eq. intros i. rewrite elem_of_activeSet.
      change (hoverRadiusOf cnt) with R.
      split; [|by intros ?%not_elem_of_empty].
      intros (r & c & _ & H1 & _). lia. }
    rewrite E, size_empty. lia. }
  set (L := rectIndices cols (Dot.row hd - R) (2 * R + 1)
              (Dot.col hd - R) (2 * R + 1)).
  assert (Hsub : activeSet (Some hd) cols rows cnt ⊆ list_to_set L).
  { intros i Hi. apply elem_of_activeSet in Hi.
    change (hoverRadiusOf cnt) with R in Hi.
    destruct Hi as (r & c & -> & H1 & H2 & _).
    apply elem_of_list_to_set. unfold L, rectIndices.
    apply list_elem_of_bind. exists r.
    rewrite list_elem_of_fmap, elem_of_seqZ. split; [|lia].
    exists c. rewrite elem_of_seqZ. split; [done|lia]. }
  apply subseteq_size in Hsub.
  pose proof (size_list_to_set_le L) as Hle.
  unfold L in Hle at 2. rewrite rectIndices_length in Hle by lia. lia.
Qed.

(** ** Colours: reading, printing and mixing *)

Lemma channelHex_clamped (x : Q) :
  channelHex x = hex2 (Z.max 0 (Z.min 255 (round x))).
Proof. unfold channelHex. apply byte_toString16. lia. Qed.

Lemma hexToRgb_bytes (s : string) :
  ∃ r g b : Z,
    0 ≤ r ≤ 255 ∧ 0 ≤ g ≤ 255 ∧ 0 ≤ b ≤ 255
    ∧ hexToRgb s
      = {| Rgb.r := inject_Z r; Rgb.g := inject_Z g; Rgb.b := inject_Z b |}.
Proof.
  unfold hexToRgb. destruct (matchHex s) as [[[r g] b]|] eqn:E.
  - apply matchHex_Some in E as (_ & Hr & Hg & Hb & _). by exists r, g, b.
  - exists 0, 0, 0. repeat split; lia.
Qed.

Lemma hexToRgb_rgbToHex_eq (c : Rgb.t) :
  hexToRgb (rgbToHex c)
  = {| Rgb.r := inject_Z (Z.max 0 (Z.min 255 (round (Rgb.r c))));
       Rgb.g := inject_Z (Z.max 0 (Z.min 255 (round (Rgb.g c))));
       Rgb.b := inject_Z (Z.max 0 (Z.min 255 (round (Rgb.b c)))) |}.
Proof.
  rewrite rgbToHex_unfold, !channelHex_clamped. unfold hexToRgb.
  by rewrite matchHex_printed by lia.
Qed.

(** What [hexToRgb] returns is always three integers between 0 and 255,
    and on a colour string they are the bytes its digits spell: reading
    the lower-case spelling reads the same colour. *)
Theorem hexToRgb_range (s : string) :
  (∃ r g b : Z,
     0 ≤ r ≤ 255 ∧ 0 ≤ g ≤ 255 ∧ 0 ≤ b ≤ 255
     ∧ hexToRgb s
       = {| Rgb.r := inject_Z r; Rgb.g := inject_Z g; Rgb.b := inject_Z b |}
     ∧ (HexColor s →
        normalizeHex s = String "#" (hex2 r +:+ hex2 g +:+ hex2 b)))
  ∧ (HexColor s ↔ is_Some (matchHex s)).
Proof.
  split.
  - unfold hexToRgb. destruct (matchHex s) as [[[r g] b]|] eqn:E.
    + apply matchHex_Some in E as (_ & Hr & Hg & Hb & Hn).
      exists r, g, b. done.
    + exists 0, 0, 0. repeat (split; [lia|]). split; [done|].
      intros Hs. destruct (matchHex_complete s Hs) as (r & g & b & E').
      congruence.
  - split.
    + intros Hs. destruct (matchHex_complete s Hs) as (r & g & b & E). eauto.
    + intros [[[r g] b] E]. by apply matchHex_Some in E as (? & _).
Qed.

(** Printing and reading back: [hexToRgb (rgbToHex c)] is [c] with every
    channel rounded to the nearest integer and clamped to [0, 255]; a
    colour whose channels are bytes comes back unchanged. *)
Theorem hexToRgb_rgbToHex (c : Rgb.t) :
  hexToRgb (rgbToHex c)
  = {| Rgb.r := inject_Z (Z.max 0 (Z.min 255 (round (Rgb.r c))));
       Rgb.g := inject_Z (Z.max 0 (Z.min 255 (round (Rgb.g c))));
       Rgb.b := inject_Z (Z.max 0 (Z.min 255 (round (Rgb.b c)))) |}
  ∧ (∀ r g b : Z, 0 ≤ r ≤ 255 → 0 ≤ g ≤ 255 → 0 ≤ b ≤ 255 →
       c = {| Rgb.r := inject_Z r; Rgb.g := inject_Z g;
              Rgb.b := inject_Z b |} →
       hexToRgb (rgbToHex c) = c).
Proof.
  split; [apply hexToRgb_rgbToHex_eq|].
  intros r g b Hr Hg Hb ->. rewrite hexToRgb_rgbToHex_eq.
  cbn [Rgb.r Rgb.g Rgb.b].
  rewrite !round_inject_Z. f_equal; f_equal; lia.
Qed.

(** Reading and printing back: a colour string comes back in its
    lower-case spelling [#rrggbb], any other string as black; printing is
    then stable: reading and printing once more changes nothing. *)
Theorem rgbToHex_hexToRgb_normal (s : string) :
  (HexColor s → rgbToHex (hexToRgb s) = normalizeHex s)
  ∧ (¬ HexColor s → rgbToHex (hexToRgb s) = "#000000")
  ∧ rgbToHex (hexToRgb (rgbToHex (hexToRgb s))) = rgbToHex (hexToRgb s).
Proof.
  split; [|split].
  - intros Hs. destruct (matchHex_complete s Hs) as (r & g & b & E).
    by rewrite rgbToHex_hexToRgb, E.
  - intros Hs. rewrite rgbToHex_hexToRgb.
    destruct (matchHex s) as [[[r g] b]|] eqn:E; [|done].
    by apply matchHex_Some in E as (? & _).
  - destruct (hexToRgb_bytes s) as (r & g & b & Hr & Hg & Hb & ->).
    rewrite hexToRgb_rgbToHex_eq. cbn [Rgb.r Rgb.g Rgb.b].
    rewrite !round_inject_Z.
    by rewrite !Z.min_r, !Z.max_r by lia.
Qed.


Lemma mix_between (x y t : Q) :
  (0 <= t)%Q → (t <= 1)%Q →
  (Qmin x y <= x + (y - x) * t)%Q ∧ (x + (y - x) * t <= Qmax x y)%Q.
Proof.
  intros H0 H1.
  destruct (Qlt_le_dec y x) as [Hyx|Hxy].
  - rewrite (Q.min_r x y), (Q.max_l x y) by lra.
    assert (Ha : (0 <= (x - y) * t)%Q) by (apply Qmult_le_0_compat; lra).
    assert (Hb : (0 <= (x - y) * (1 - t))%Q)
      by (apply Qmult_le_0_compat; lra).
    split; lra.
  - rewrite (Q.min_l x y), (Q.max_r x y) by lra.
    assert (Ha : (0 <= (y - x) * t)%Q) by (apply Qmult_le_0_compat; lra).
    assert (Hb : (0 <= (y - x) * (1 - t))%Q)
      by (apply Qmult_le_0_compat; lra).
    split; lra.
Qed.

Lemma round_between (lo hi : Z) (x : Q) :
  (inject_Z lo <= x)%Q → (x <= inject_Z hi)%Q → lo ≤ round x ≤ hi.
Proof.
  intros Hlo Hhi. destruct (round_nearest x) as [H1 H2].
  assert (Ha : (inject_Z lo < inject_Z (round x + 1))%Q).
  { rewrite inject_Z_plus. change (inject_Z 1) with 1%Q. lra. }
  assert (Hb : (inject_Z (round x) < inject_Z (hi + 1))%Q).
  { rewrite inject_Z_plus. change (inject_Z 1) with 1%Q. lra. }
  rewrite <- Zlt_Qlt in Ha, Hb. lia.
Qed.

Lemma blend_channel_between (ca cb : Z) (t : Q) :
  0 ≤ ca ≤ 255 → 0 ≤ cb ≤ 255 → (0 <= t)%Q → (t <= 1)%Q →
  let v := Z.max 0 (Z.min 255
             (round (inject_Z ca + (inject_Z cb - inject_Z ca) * t)%Q)) in
  Z.min ca cb ≤ v ≤ Z.max ca cb.
Proof.
  intros Ha Hb H0 H1 v.
  destruct (mix_between (inject_Z ca) (inject_Z cb) t H0 H1) as [Hlo Hhi].
  assert (Hmin : (inject_Z (Z.min ca cb)
                  <= Qmin (inject_Z ca) (inject_Z cb))%Q).
  { apply Q.min_glb; rewrite <- Zle_Qle; lia. }
  assert (Hmax : (Qmax (inject_Z ca) (inject_Z cb)
                  <= inject_Z (Z.max ca cb))%Q).
  { apply Q.max_lub; rewrite <- Zle_Qle; lia. }
  pose proof (round_between (Z.min ca cb) (Z.max ca cb)
                (inject_Z ca + (inject_Z cb - inject_Z ca) * t)%Q
                ltac:(lra) ltac:(lra)) as Hr.
  unfold v. lia.
Qed.

(** For [0 <= t <= 1] the blend stays between its two colours: every
    channel of the blended colour lies between the same channels of the
    colours read from [a] and [b]. *)
Theorem blend_between (a b : string) (t : Q) :
  (0 <= t)%Q → (t <= 1)%Q →
  let ca := hexToRgb a in
  let cb := hexToRgb b in
  let cm := hexToRgb (blend a b t) in
  (Qmin (Rgb.r ca) (Rgb.r cb) <= Rgb.r cm)%Q
  ∧ (Rgb.r cm <= Qmax (Rgb.r ca) (Rgb.r cb))%Q
  ∧ (Qmin (Rgb.g ca) (Rgb.g cb) <= Rgb.g cm)%Q
  ∧ (Rgb.g cm <= Qmax (Rgb.g ca) (Rgb.g cb))%Q
  ∧ (Qmin (Rgb.b ca) (Rgb.b cb) <= Rgb.b cm)%Q
  ∧ (Rgb.b cm <= Qmax (Rgb.b ca) (Rgb.b cb))%Q.
Proof.
  intros H0 H1 ca cb cm. unfold cm, blend. fold ca cb.
  rewrite hexToRgb_rgbToHex_eq. cbn [Rgb.r Rgb.g Rgb.b].
  unfold ca, cb.
  destruct (hexToRgb_bytes a) as (ar & ag & ab & Har & Hag & Hab & ->).
  destruct (hexToRgb_bytes b) as (br & bg & bb & Hbr & Hbg & Hbb & ->).
  cbn [Rgb.r Rgb.g Rgb.b].
  assert (Hch : ∀ x y : Z, 0 ≤ x ≤ 255 → 0 ≤ y ≤ 255 →
    (Qmin (inject_Z x) (inject_Z y)
     <= inject_Z (Z.max 0 (Z.min 255
          (round (inject_Z x + (inject_Z y - inject_Z x) * t)%Q))))%Q
    ∧ (inject_Z (Z.max 0 (Z.min 255
          (round (inject_Z x + (inject_Z y - inject_Z x) * t)%Q)))
       <= Qmax (inject_Z x) (inject_Z y))%Q).
  { intros x y Hx Hy.
    pose proof (blend_channel_between x y t Hx Hy H0 H1) as Hv.
    cbv zeta in Hv. split.
    - apply (Qle_trans _ (inject_Z (Z.min x y))).
      + destruct (Z.min_spec x y) as [[_ ->]|[_ ->]];
          [apply Q.le_min_l|apply Q.le_min_r].
      + rewrite <- Zle_Qle. lia.
    - apply (Qle_trans _ (inject_Z (Z.max x y))).
      + rewrite <- Zle_Qle. lia.
      + destruct (Z.max_spec x y) as [[_ ->]|[_ ->]];
          [apply Q.le_max_r|apply Q.le_max_l]. }
  destruct (Hch ar br Har Hbr) as [R1 R2].
  destruct (Hch ag bg Hag Hbg) as [G1 G2].
  destruct (Hch ab bb Hab Hbb) as [B1 B2].
  done.
Qed.

Lemma blend_between_witness :
  (Rgb.r (hexToRgb (blend "#5227FF" "#FFFFFF" 0.5))
   <= Qmax (Rgb.r (hexToRgb "#5227FF")) (Rgb.r (hexToRgb "#FFFFFF")))%Q.
Proof.
  exact (proj1 (proj2 (blend_between "#5227FF" "#FFFFFF" 0.5
                         ltac:(by vm_compute) ltac:(by vm_compute)))).
Defined.

(** ** The trail level as a function of time *)

Lemma clamp01_range (x : Q) :
  (0 <= Qmax 0 (Qmin 1 x))%Q ∧ (Qmax 0 (Qmin 1 x) <= 1)%Q.
Proof.
  split; [apply Q.le_max_l|].
  apply Q.max_lub; [lra|apply Q.le_min_l].
Qed.

Lemma clamp01_mono (x y : Q) :
  (x <= y)%Q → (Qmax 0 (Qmin 1 x) <= Qmax 0 (Qmin 1 y))%Q.
Proof. intros H. by apply Q.max_le_compat_l, Q.min_le_compat_l. Qed.

Lemma getTrailLevel_bounds (p : DotGridHeroProps) (lastHit : gmap Z Q)
    (now : Q) (i : Z) :
  (0 <= Trail.getTrailLevel p lastHit now i)%Q
  ∧ (Trail.getTrailLevel p lastHit now i <= 1)%Q.
Proof.
  unfold Trail.getTrailLevel.
  destruct (negb (trailEnabled p)); [split; lra|].
  destruct (lastHit !! i) as [hit|]; [|split; lra].
  destruct (le_num _ _); [split; lra|].
  destruct (le_num _ _); [split; lra|].
  apply clamp01_range.
Qed.

(** The level of a dot is always between 0 and 1, whatever the map, the
    clock and the configured times (negative ones included); it is 1 only
    for a dot with an entry, and 0 for a dot without one. *)
Theorem getTrailLevel_range (p : DotGridHeroProps) (lastHit : gmap Z Q)
    (now : Q) (i : Z) :
  (0 <= Trail.getTrailLevel p lastHit now i)%Q
  ∧ (Trail.getTrailLevel p lastHit now i <= 1)%Q
  ∧ ((0 < Trail.getTrailLevel p lastHit now i)%Q →
     trailEnabled p = true ∧ is_Some (lastHit !! i)).
Proof.
  destruct (getTrailLevel_bounds p lastHit now i) as [H0 H1].
  split; [done|]. split; [done|]. intros Hpos.
  destruct (trailEnabled p) eqn:He.
  - split; [done|]. destruct (lastHit !! i) as [hit|] eqn:E; [eauto|].
    rewrite (getTrailLevel_absent p lastHit now i E) in Hpos. lra.
  - rewrite (getTrailLevel_disabled p lastHit now i He) in Hpos. lra.
Qed.

(** Without a new hit the level of a dot never rises as time passes. *)
Theorem getTrailLevel_antitone (p : DotGridHeroProps) (lastHit : gmap Z Q)
    (now1 now2 : Q) (i : Z) :
  (now1 <= now2)%Q →
  (Trail.getTrailLevel p lastHit now2 i
   <= Trail.getTrailLevel p lastHit now1 i)%Q.
Proof.
  intros Hle.
  pose proof (getTrailLevel_bounds p lastHit now2 i) as [_ Hmax].
  unfold Trail.getTrailLevel in *.
  destruct (negb (trailEnabled p)); [lra|].
  destruct (lastHit !! i) as [hit|]; [|lra].
  set (hold := Qmax 0 (trailHoldMs p)) in *.
  set (fade := Qmax 0 (trailFadeMs p)) in *.
  destruct (le_num (now1 - hit) hold) eqn:E1; [exact Hmax|].
  apply le_num_false in E1.
  assert (E2 : le_num (now2 - hit) hold = false)
    by (apply le_num_false; lra).
  rewrite E2. destruct (le_num fade 0) eqn:Ef; [lra|].
  apply le_num_false in Ef. apply clamp01_mono.
  assert (Hdiv : ((now1 - hit - hold) / fade <= (now2 - hit - hold) / fade)%Q).
  { unfold Qdiv. apply Qmult_le_compat_r; [lra|].
    apply Qlt_le_weak. by apply Qinv_lt_0_compat. }
  lra.
Qed.

Lemma getTrailLevel_antitone_witness :
  (Trail.getTrailLevel defaultProps {[ 40%Z := 1000%Q ]} 1500 40%Z
   <= Trail.getTrailLevel defaultProps {[ 40%Z := 1000%Q ]} 1200 40%Z)%Q.
Proof.
  exact (getTrailLevel_antitone defaultProps {[ 40%Z := 1000%Q ]} 1200 1500
           40%Z ltac:(by vm_compute)).
Defined.

(** With a fade time that is not positive nothing is divided: the level is
    1 until the hold time has elapsed and 0 afterwards. *)
Theorem getTrailLevel_no_fade (p : DotGridHeroProps) (lastHit : gmap Z Q)
    (now hit : Q) (i : Z) :
  trailEnabled p = true → (trailFadeMs p <= 0)%Q →
  lastHit !! i = Some hit →
  ((now - hit <= Qmax 0 (trailHoldMs p))%Q →
     Trail.getTrailLevel p lastHit now i = 1%Q)
  ∧ ((Qmax 0 (trailHoldMs p) < now - hit)%Q →
     Trail.getTrailLevel p lastHit now i = 0%Q).
Proof.
  intros He Hf Hlk. split.
  - intros H. by apply (getTrailLevel_hold p lastHit now hit i).
  - intros H. unfold Trail.getTrailLevel. rewrite He, Hlk. cbn [negb].
    apply le_num_false in H. rewrite H.
    assert (E : le_num (Qmax 0 (trailFadeMs p)) 0 = true).
    { apply le_num_spec. rewrite (Q.max_l 0 (trailFadeMs p)) by done. lra. }
    by rewrite E.
Qed.

Lemma getTrailLevel_no_fade_witness :
  let p := {| dotSize := 16; gap := 32; baseColor := "#5227FF";
              activeColor := "#FFFFFF";
              backgroundColor := "rgba(0, 0, 0, 0)";
              circleRadius := None; hoverSquareRadius := None;
              hoverDotCount := None; smoothIntensity := None;
              trailEnabled := true; trailHoldMs := 180;
              trailFadeMs := 0 |} in
  Trail.getTrailLevel p {[ 40%Z := 1000%Q ]} 1181 40%Z = 0%Q.
Proof.
  intros p.
  apply (getTrailLevel_no_fade p {[ 40%Z := 1000%Q ]} 1181 1000 40%Z
           ltac:(reflexivity) ltac:(by vm_compute) ltac:(by vm_compute)).
  by vm_compute.
Defined.

(** ** Stamping the cluster *)

Lemma lookup_foldl_insert (t : Q) (l : list Z) (m : gmap Z Q) (j : Z) :
  foldl (λ m idx, <[ idx := t ]> m) m l !! j
  = if bool_decide (j ∈ l) then Some t else m !! j.
Proof.
  revert m. induction l as [|x l IH]; intros m; cbn [foldl].
  - rewrite bool_decide_eq_false_2; [done|apply not_elem_of_nil].
  - rewrite IH. destruct (decide (j ∈ l)) as [Hin|Hnin].
    + rewrite !bool_decide_eq_true_2; [done| |done].
      by apply list_elem_of_further.
    + rewrite (bool_decide_eq_false_2 (j ∈ l)) by done.
      destruct (decide (j = x)) as [->|Hne].
      * rewrite bool_decide_eq_true_2 by apply list_elem_of_here.
        apply lookup_insert_eq.
      * rewrite bool_decide_eq_false_2
          by (rewrite elem_of_cons; tauto).
        by apply lookup_insert_ne.
Qed.

Lemma lookup_stampEffect (p : DotGridHeroProps) (ptr : Pointer)
    (active : gset Z) (t : Q) (c : Trail.Clock) (j : Z) :
  trailEnabled p = true →
  Trail.lastHitRef (Trail.stampEffect p (Some ptr) active t c) !! j
  = if bool_decide (j ∈ active) then Some t else Trail.lastHitRef c !! j.
Proof.
  intros He. unfold Trail.stampEffect. rewrite He.
  cbn [negb Trail.setNow Trail.setLastHit Trail.lastHitRef].
  rewrite lookup_foldl_insert.
  destruct (decide (j ∈ active)) as [Hin|Hnin].
  - rewrite !bool_decide_eq_true_2; [done|done|by apply elem_of_elements].
  - rewrite !bool_decide_eq_false_2; [done|done|by rewrite elem_of_elements].
Qed.

(** With trailing enabled and the pointer present, stamping at the time
    [t] sets the timestamp of every dot of the cluster to [t], leaves every
    other entry as it was and sets the clock to [t]; with trailing off, or
    without a pointer, it changes nothing.  It never touches the frame
    callbacks. *)
Theorem stampEffect_spec (p : DotGridHeroProps) (hover : option Pointer)
    (active : gset Z) (t : Q) (c : Trail.Clock) :
  let c' := Trail.stampEffect p hover active t c in
  (trailEnabled p = true → is_Some hover →
     (∀ j : Z, j ∈ active → Trail.lastHitRef c' !! j = Some t)
     ∧ (∀ j : Z, j ∉ active →
          Trail.lastHitRef c' !! j = Trail.lastHitRef c !! j)
     ∧ Trail.now c' = t)
  ∧ (trailEnabled p = false ∨ hover = None → c' = c)
  ∧ Trail.rafRef c' = Trail.rafRef c
  ∧ Trail.pending c' = Trail.pending c.
Proof.
  intros c'. split; [|split].
  - intros He [ptr ->]. unfold c'. split; [|split].
    + intros j Hj. rewrite lookup_stampEffect by done.
      by rewrite bool_decide_eq_true_2.
    + intros j Hj. rewrite lookup_stampEffect by done.
      by rewrite bool_decide_eq_false_2.
    + unfold Trail.stampEffect. by rewrite He.
  - intros [He| ->]; unfold c', Trail.stampEffect.
    + by rewrite He.
    + by destruct (negb (trailEnabled p)).
  - by destruct (stampEffect_frame p hover active t c) as (? & ? & _).
Qed.

(** A dot stamped at [t] shows the full level at every time up to
    [t + hold], and a tick at a time up to [t + hold + fade] keeps its
    entry. *)
Theorem stamp_then_hold (p : DotGridHeroProps) (ptr : Pointer)
    (active : gset Z) (t : Q) (c : Trail.Clock) (j : Z) :
  trailEnabled p = true → j ∈ active →
  let c' := Trail.stampEffect p (Some ptr) active t c in
  let hold := Qmax 0 (trailHoldMs p) in
  let fade := Qmax 0 (trailFadeMs p) in
  (∀ now' : Q, (now' - t <= hold)%Q →
     Trail.getTrailLevel p (Trail.lastHitRef c') now' j = 1%Q)
  ∧ (∀ (hover : option Pointer) (t' : Q),
       (0 < hold + fade)%Q → (t' - t <= hold + fade)%Q →
       Trail.lastHitRef (Trail.tick p hover true t' c') !! j = Some t).
Proof.
  intros He Hj c' hold fade.
  assert (Hlk : Trail.lastHitRef c' !! j = Some t).
  { unfold c'. rewrite lookup_stampEffect by done.
    by rewrite bool_decide_eq_true_2. }
  split.
  - intros now' Hle. by apply (getTrailLevel_hold p _ now' t j).
  - intros hover t' Hpos Hle. by apply lookup_tick.
Qed.

Lemma stamp_then_hold_witness :
  let p := {| dotSize := 16; gap := 32; baseColor := "#5227FF";
              activeColor := "#FFFFFF";
              backgroundColor := "rgba(0, 0, 0, 0)";
              circleRadius := None; hoverSquareRadius := None;
              hoverDotCount := None; smoothIntensity := None;
              trailEnabled := true; trailHoldMs := 180;
              trailFadeMs := 520 |} in
  let c := {| Trail.lastHitRef := ∅; Trail.rafRef := None; Trail.now := 0;
              Trail.pending := ∅; Trail.nextHandle := 1 |} in
  Trail.getTrailLevel p
    (Trail.lastHitRef
       (Trail.stampEffect p (Some {| px := 200; py := 200 |}) {[ 40 ]}
          1000 c))
    1100 40 = 1%Q.
Proof.
  intros p c.
  pose proof (stamp_then_hold p {| px := 200; py := 200 |} {[ 40 ]} 1000 c 40
                ltac:(reflexivity)
                ltac:(apply (bool_decide_unpack _); by vm_compute)) as [H _].
  apply H. by vm_compute.
Defined.

(** ** The clock in the life of the component *)

Lemma lastHitRef_cancelPending (c : Trail.Clock) :
  Trail.lastHitRef (Trail.cancelPending c) = Trail.lastHitRef c.
Proof.
  unfold Trail.cancelPending. destruct (Trail.rafRef c) as [h|]; [|done].
  by destruct (h =? 0).
Qed.

Lemma lastHitRef_clockEffect (isStatic : bool) (p : DotGridHeroProps)
    (hover : option Pointer) (c : Trail.Clock) :
  Trail.lastHitRef (Trail.clockEffect isStatic p hover c)
  = Trail.lastHitRef c.
Proof.
  unfold Trail.clockEffect. destruct isStatic; [done|].
  destruct (negb _); [apply lastHitRef_cancelPending|done].
Qed.

Lemma lastHitRef_rerun (p : DotGridHeroProps) (d : Dimensions)
    (hover' : option Pointer) (t : Q) (c : Trail.Clock) :
  Trail.lastHitRef (Loop.clock (Loop.rerun p d hover' t c))
  = Trail.lastHitRef
      (Trail.stampEffect p hover' (Loop.activeFor p d hover') t c).
Proof.
  unfold Loop.rerun. cbn [Loop.clock]. rewrite lastHitRef_clockEffect.
  unfold Trail.clockCleanup, Trail.stampEffect.
  destruct (negb (trailEnabled p)); [apply lastHitRef_cancelPending|].
  destruct hover'; [|apply lastHitRef_cancelPending].
  cbn [Trail.setNow Trail.setLastHit Trail.lastHitRef].
  by rewrite lastHitRef_cancelPending.
Qed.

Lemma hover_run_step (p : DotGridHeroProps) (d : Dimensions)
    (st : Loop.Comp) (e : Loop.Event) :
  Loop.hover (Loop.step p d st e)
  = match e with
    | Loop.Move ptr _ => Some ptr
    | Loop.Leave => None
    | Loop.Frame _ _ => Loop.hover st
    end.
Proof.
  destruct e; [done| |done]. cbn [Loop.step].
  by destruct (Loop.hover st) eqn:E.
Qed.

(** When the pointer leaves, the entries of the trail stay as they are
    (only the pointer is forgotten), and the loop keeps running exactly
    when trailing is enabled and an entry is left. *)
Theorem leave_keeps_trail (p : DotGridHeroProps) (d : Dimensions)
    (es : list Loop.Event) :
  let st := Loop.run p d es in
  let st' := Loop.step p d st Loop.Leave in
  Loop.hover st' = None
  ∧ Trail.lastHitRef (Loop.clock st') = Trail.lastHitRef (Loop.clock st)
  ∧ ((∃ h, running (Loop.clock st') h)
     ↔ trailEnabled p = true ∧ Trail.lastHitRef (Loop.clock st) ≠ ∅)
  ∧ (stopped (Loop.clock st') ∨ ∃ h, running (Loop.clock st') h).
Proof.
  intros st st'. unfold st'. cbn [Loop.step].
  assert (Hl : Trail.lastHitRef (Loop.clock (Loop.rerun p d None 0
                                               (Loop.clock st)))
               = Trail.lastHitRef (Loop.clock st)).
  { rewrite lastHitRef_rerun. unfold Trail.stampEffect.
    by destruct (negb (trailEnabled p)). }
  destruct (run_inv p d es) as [Hok Hst]. fold st in Hok, Hst.
  destruct (Loop.hover st) as [ptr|] eqn:Eh.
  - destruct (rerun_inv p d None 0 (Loop.clock st) Hok)
      as [[_ Hok'] Hiff].
    split; [done|]. split; [done|]. split; [|done].
    rewrite <- Hiff, needed_spec, Hl. cbn [Loop.hover Loop.rerun].
    split; [intros (? & [[? ?]|?]); done|]. intros [? ?]. eauto.
  - split; [done|]. split; [done|]. split; [|apply Hok].
    rewrite <- Hst, needed_spec.
    split; [intros (? & [[? ?]|?]); done|]. intros [? ?]. eauto.
Qed.

(** When the pointer moves (trailing enabled), every dot of the new
    cluster is stamped with the time of the move, the other entries stay,
    and the loop is running. *)
Theorem move_stamps_cluster (p : DotGridHeroProps) (d : Dimensions)
    (es : list Loop.Event) (ptr : Pointer) (t : Q) :
  trailEnabled p = true →
  let st := Loop.run p d es in
  let st' := Loop.step p d st (Loop.Move ptr t) in
  let cluster := activeSet (hoveredDot (Some ptr) (gridOf p d))
                   (colsOf p d) (rowsOf p d) (hoverDotCount p) in
  Loop.hover st' = Some ptr
  ∧ (∀ j : Z, j ∈ cluster →
       Trail.lastHitRef (Loop.clock st') !! j = Some t)
  ∧ (∀ j : Z, j ∉ cluster →
       Trail.lastHitRef (Loop.clock st') !! j
       = Trail.lastHitRef (Loop.clock st) !! j)
  ∧ ∃ h, running (Loop.clock st') h.
Proof.
  intros He st st' cluster. unfold st'. cbn [Loop.step].
  assert (Hl : ∀ j, Trail.lastHitRef
                      (Loop.clock (Loop.rerun p d (Some ptr) t
                                     (Loop.clock st))) !! j
                    = if bool_decide (j ∈ cluster) then Some t
                      else Trail.lastHitRef (Loop.clock st) !! j).
  { intros j. rewrite lastHitRef_rerun. by apply lookup_stampEffect. }
  destruct (run_inv p d es) as [Hok _]. fold st in Hok.
  destruct (rerun_inv p d (Some ptr) t (Loop.clock st) Hok) as [_ Hiff].
  split; [done|]. split; [|split].
  - intros j Hj. by rewrite Hl, bool_decide_eq_true_2.
  - intros j Hj. by rewrite Hl, bool_decide_eq_false_2.
  - apply Hiff. apply needed_spec. cbn [Loop.hover Loop.rerun]. eauto.
Qed.

Lemma move_stamps_cluster_witness :
  let p := {| dotSize := 16; gap := 32; baseColor := "#5227FF";
              activeColor := "#FFFFFF";
              backgroundColor := "rgba(0, 0, 0, 0)";
              circleRadius := None; hoverSquareRadius := None;
              hoverDotCount := None; smoothIntensity := None;
              trailEnabled := true; trailHoldMs := 180;
              trailFadeMs := 520 |} in
  let d := {| width := 400; height := 400 |} in
  ∃ h, running
         (Loop.clock (Loop.step p d (Loop.run p d [])
                        (Loop.Move {| px := 200; py := 200 |} 1000))) h.
Proof.
  intros p d.
  exact (proj2 (proj2 (proj2
    (move_stamps_cluster p d [] {| px := 200; py := 200 |} 1000
       ltac:(reflexivity))))).
Defined.

Lemma tick_disabled_empty (p : DotGridHeroProps) (hover : option Pointer)
    (t : Q) (c : Trail.Clock) :
  Trail.lastHitRef c = ∅ →
  Trail.lastHitRef (Trail.tick p hover true t c) = ∅.
Proof.
  intros Hc. apply map_empty. intros i.
  destruct (Trail.lastHitRef _ !! i) as [hit|] eqn:E; [|done].
  apply lookup_tick in E as (E & _). by rewrite Hc, lookup_empty in E.
Qed.

Lemma run_disabled_empty (p : DotGridHeroProps) (d : Dimensions)
    (es : list Loop.Event) :
  trailEnabled p = false →
  Trail.lastHitRef (Loop.clock (Loop.run p d es)) = ∅.
Proof.
  intros He. unfold Loop.run. induction es as [|e es IH] using rev_ind.
  - unfold Loop.mount. cbn [Loop.clock foldl].
    rewrite lastHitRef_clockEffect. unfold Trail.clearEffect. by rewrite He.
  - rewrite foldl_snoc. destruct e as [ptr t| |h t]; cbn [Loop.step].
    + rewrite lastHitRef_rerun. unfold Trail.stampEffect. by rewrite He.
    + destruct (Loop.hover _); [|done].
      rewrite lastHitRef_rerun. unfold Trail.stampEffect. by rewrite He.
    + cbn [Loop.clock]. unfold Trail.runFrame.
      destruct (bool_decide _); [|done].
      by apply tick_disabled_empty.
Qed.

(** With trailing off the component never stores an entry and never
    requests a frame callback, whatever the pointer does. *)
Theorem trail_off_idle (p : DotGridHeroProps) (d : Dimensions)
    (es : list Loop.Event) :
  trailEnabled p = false →
  let c := Loop.clock (Loop.run p d es) in
  Trail.lastHitRef c = ∅ ∧ stopped c
  ∧ ∀ (lastHit : gmap Z Q) (now : Q) (i : Z),
      Trail.getTrailLevel p lastHit now i = 0%Q.
Proof.
  intros He c. split; [by apply run_disabled_empty|]. split.
  - destruct (run_inv p d es) as [[_ [Hs|Hr]] Hiff]; [done|].
    apply Hiff in Hr. apply needed_spec in Hr as [Hr _]. congruence.
  - intros lastHit now i. by apply getTrailLevel_disabled.
Qed.

Lemma trail_off_idle_witness :
  stopped (Loop.clock
             (Loop.run defaultProps {| width := 400; height := 400 |}
                [Loop.Move {| px := 200; py := 200 |} 1000; Loop.Leave])).
Proof.
  exact (proj1 (proj2
    (trail_off_idle defaultProps {| width := 400; height := 400 |}
       [Loop.Move {| px := 200; py := 200 |} 1000; Loop.Leave]
       ltac:(reflexivity)))).
Defined.

(** When neither a hold nor a fade time is configured (both at most 0), a
    tick empties the map, entries stamped at that very time included. *)
Theorem tick_clears_without_window (p : DotGridHeroProps)
    (hover : option Pointer) (t : Q) (c : Trail.Clock) :
  (trailHoldMs p <= 0)%Q → (trailFadeMs p <= 0)%Q →
  Trail.lastHitRef (Trail.tick p hover true t c) = ∅
  ∧ (hover = None → Trail.pending c = ∅ →
     stopped (Trail.tick p hover true t c)).
Proof.
  intros Hh Hf.
  assert (E : le_num (Qmax 0 (trailHoldMs p) + Qmax 0 (trailFadeMs p)) 0
              = true).
  { apply le_num_spec.
    rewrite (Q.max_l 0 (trailHoldMs p)), (Q.max_l 0 (trailFadeMs p)) by done.
    lra. }
  split.
  - rewrite lastHitRef_tick. by rewrite E.
  - intros -> Hp. rewrite tick_mounted. rewrite E.
    assert (En : Trail.needed p None ∅ = false).
    { apply not_true_iff_false. rewrite needed_spec.
      intros (_ & [[? ?]|?]); done. }
    rewrite En. by split.
Qed.

Lemma tick_clears_without_window_witness :
  let p := {| dotSize := 16; gap := 32; baseColor := "#5227FF";
              activeColor := "#FFFFFF";
              backgroundColor := "rgba(0, 0, 0, 0)";
              circleRadius := None; hoverSquareRadius := None;
              hoverDotCount := None; smoothIntensity := None;
              trailEnabled := true; trailHoldMs := 0;
              trailFadeMs := 0 |} in
  let c := {| Trail.lastHitRef := {[ 40 := 1000%Q ]};
              Trail.rafRef := None; Trail.now := 1000%Q;
              Trail.pending := ∅; Trail.nextHandle := 8 |} in
  Trail.lastHitRef (Trail.tick p None true 1000%Q c) = ∅.
Proof.
  intros p c.
  exact (proj1 (tick_clears_without_window p None 1000%Q c
                  ltac:(by vm_compute) ltac:(by vm_compute))).
Defined.

(** Tearing the effect down from any state the component reaches leaves
    no frame callback requested, and keeps the entries of the trail. *)
Theorem cleanup_cancels (p : DotGridHeroProps) (d : Dimensions)
    (es : list Loop.Event) :
  let c := Loop.clock (Loop.run p d es) in
  stopped (Trail.clockCleanup c)
  ∧ Trail.lastHitRef (Trail.clockCleanup c) = Trail.lastHitRef c.
Proof.
  intros c. destruct (run_inv p d es) as [Hok _].
  destruct (cancelPending_stopped _ Hok) as (Hs & _ & Hl). done.
Qed.

(** Running the effects again cancels the callback that was requested:
    the host calling its handle afterwards changes nothing. *)
Lemma rerun_stale (p : DotGridHeroProps) (d : Dimensions)
    (hover' : option Pointer) (t t' : Q) (c : Trail.Clock) (h : Z) :
  clock_ok c →
  Trail.rafRef c = Some h →
  let c' := Loop.clock (Loop.rerun p d hover' t c) in
  Trail.runFrame p hover' true h t' c' = c'.
Proof.
  intros Hok Hraf c'.
  assert (Hh : 0 < h < Trail.nextHandle c).
  { destruct Hok as [_ [[Hr _]|(h' & Hr & _ & Hlt)]]; [congruence|].
    rewrite Hraf in Hr. by injection Hr as ->. }
  unfold Trail.runFrame. rewrite bool_decide_eq_false_2; [done|].
  unfold c', Loop.rerun. cbn [Loop.clock].
  destruct (cancelPending_stopped _ Hok) as ([Hr Hp] & Hn & _).
  destruct (stampEffect_frame p hover' (Loop.activeFor p d hover') t
              (Trail.clockCleanup c)) as (Er & Ep & En).
  unfold Trail.clockCleanup in *.
  set (c2 := Trail.stampEffect p hover' _ t _) in *.
  unfold Trail.clockEffect.
  destruct (negb (Trail.needed p hover' (Trail.lastHitRef c2))).
  - destruct (cancelPending_stopped c2) as ([_ Hp'] & _).
    { split; [rewrite En, Hn; apply Hok|]. left.
      split; [by rewrite Er|by rewrite Ep]. }
    rewrite Hp'. apply not_elem_of_empty.
  - cbn [Trail.requestAnimationFrame Trail.setRafRef Trail.pending].
    rewrite Ep, Hp, (right_id_L ∅ (∪)), En, Hn.
    apply not_elem_of_singleton. lia.
Qed.

(** A frame callback that an earlier run of the clock effect requested
    never takes effect: once the pointer has moved, or has left while a
    pointer was stored, the host calling the old handle leaves the
    component as it is.  A leave while no pointer is stored is not such an
    event: it leaves the component as it is, and the requested callback
    stays the one of the running loop. *)
Theorem stale_frame_ignored (p : DotGridHeroProps) (d : Dimensions)
    (es : list Loop.Event) (h : Z) (e : Loop.Event) (t' : Q) :
  let st := Loop.run p d es in
  Trail.rafRef (Loop.clock st) = Some h →
  let st' := Loop.step p d st e in
  (hoverChanges st e = true →
   Loop.step p d st' (Loop.Frame h t') = st')
  ∧ (e = Loop.Leave → Loop.hover st = None →
     st' = st ∧ running (Loop.clock st') h).
Proof.
  intros st Hraf st'.
  destruct (run_inv p d es) as [Hok _]. fold st in Hok.
  split.
  - intros Hch. unfold st'. destruct e as [ptr t| |h0 t]; [| |done].
    + pose proof (rerun_stale p d (Some ptr) t t' _ h Hok Hraf) as H.
      cbv zeta in H. cbn [Loop.step]. unfold Loop.rerun in *.
      cbn [Loop.hover Loop.clock] in *. by rewrite H.
    + cbn [hoverChanges] in Hch. apply bool_decide_eq_true in Hch.
      destruct Hch as [ptr Hptr]. cbn [Loop.step]. rewrite Hptr.
      pose proof (rerun_stale p d None 0 t' _ h Hok Hraf) as H.
      cbv zeta in H. cbn [Loop.step]. unfold Loop.rerun in *.
      cbn [Loop.hover Loop.clock] in *. by rewrite H.
  - intros -> Hnone. unfold st'. cbn [Loop.step]. rewrite Hnone.
    split; [done|].
    destruct Hok as [_ [[Hr _]|(h' & Hr & Hp & Hlt)]]; [congruence|].
    rewrite Hraf in Hr. injection Hr as ->. done.
Qed.

Lemma stale_frame_ignored_witness :
  let p := {| dotSize := 16; gap := 32; baseColor := "#5227FF";
              activeColor := "#FFFFFF";
              backgroundColor := "rgba(0, 0, 0, 0)";
              circleRadius := None; hoverSquareRadius := None;
              hoverDotCount := None; smoothIntensity := None;
              trailEnabled := true; trailHoldMs := 180;
              trailFadeMs := 520 |} in
  let d := {| width := 400; height := 400 |} in
  let st := Loop.run p d [Loop.Move {| px := 200; py := 200 |} 1000] in
  let st' := Loop.step p d st Loop.Leave in
  Loop.step p d st' (Loop.Frame 1 2000) = st'.
Proof.
  intros p d st st'.
  assert (Hraf : Trail.rafRef (Loop.clock st) = Some 1)
    by (vm_compute; reflexivity).
  assert (Hch : hoverChanges st Loop.Leave = true)
    by (vm_compute; reflexivity).
  exact (proj1 (stale_frame_ignored p d
                  [Loop.Move {| px := 200; py := 200 |} 1000]
                  1 Loop.Leave 2000 Hraf) Hch).
Defined.

(** ** What is drawn *)

(** For a pitch [dotSize + gap] that is not zero, both variants draw one
    circle per dot of the grid, in the order of the grid, each centred on
    its dot: neither the pointer nor the trail moves a circle. *)
Theorem render_positions (p : DotGridHeroProps) (d : Dimensions)
    (hover : option Pointer) (lastHit : gmap Z Q) (now : Q) :
  ¬ (dotSize p + gap p == 0)%Q →
  length (Plain.render p d hover) = Z.to_nat (rowsOf p d * colsOf p d)
  ∧ length (Trail.render p d hover lastHit now)
    = Z.to_nat (rowsOf p d * colsOf p d)
  ∧ (cx <$> Plain.render p d hover) = (Dot.x <$> gridOf p d)
  ∧ (cy <$> Plain.render p d hover) = (Dot.y <$> gridOf p d)
  ∧ (cx <$> Trail.render p d hover lastHit now) = (Dot.x <$> gridOf p d)
  ∧ (cy <$> Trail.render p d hover lastHit now) = (Dot.y <$> gridOf p d).
Proof.
  intros _. unfold Plain.render, Trail.render, gridOf, rowsOf, colsOf.
  rewrite !length_imap, grid_length.
  split; [done|]. split; [done|].
  repeat split; apply list_eq; intros i;
    rewrite !list_lookup_fmap, list_lookup_imap;
    destruct (grid d (dotSize p) (gap p) !! i) as [dot|] eqn:E;
    try done; cbn [fmap option_fmap option_map];
    unfold Plain.renderDot, Trail.renderDot;
    repeat match goal with
           | |- context [let '(_, _) := ?x in _] => destruct x
           end; done.
Qed.

Lemma render_positions_witness :
  let p := {| dotSize := 16; gap := 32; baseColor := "#5227FF";
              activeColor := "#FFFFFF";
              backgroundColor := "rgba(0, 0, 0, 0)";
              circleRadius := None; hoverSquareRadius := None;
              hoverDotCount := None; smoothIntensity := None;
              trailEnabled := true; trailHoldMs := 180;
              trailFadeMs := 520 |} in
  let d := {| width := 100; height := 100 |} in
  let hover := Some {| px := 50; py := 50 |} in
  length (Plain.render p d hover) = Z.to_nat (rowsOf p d * colsOf p d)
  ∧ length (Trail.render p d hover {[ 3%Z := 1000%Q ]} 1100)
    = Z.to_nat (rowsOf p d * colsOf p d).
Proof.
  intros p d hover.
  assert (Hp : ¬ (dotSize p + gap p == 0)%Q) by (vm_compute; discriminate).
  pose proof (render_positions p d hover {[ 3%Z := 1000%Q ]} 1100 Hp)
    as (H1 & H2 & _).
  exact (conj H1 H2).
Defined.

Lemma hoverActive_None_hover (hovered : option Dot.t) (active : gset Z)
    (i : Z) :
  hoverActive None hovered active i = None.
Proof. done. Qed.

(** Without a pointer the plain variant draws every circle at the base
    radius in the base colour, with no transition; so does the trailing
    variant when trailing is off or no entry is stored. *)
Theorem render_idle (p : DotGridHeroProps) (d : Dimensions)
    (lastHit : gmap Z Q) (now : Q) (i : nat) :
  (∀ c : Circle, Plain.render p d None !! i = Some c →
     (radius c == baseRadiusOf p)%Q ∧ fill c = baseColor p
     ∧ transition c = "none")
  ∧ (trailEnabled p = false ∨ lastHit = ∅ →
     ∀ c : Circle, Trail.render p d None lastHit now !! i = Some c →
       (radius c == baseRadiusOf p)%Q ∧ fill c = baseColor p
       ∧ transition c = "none").
Proof.
  split.
  - intros c Hc. unfold Plain.render in Hc.
    apply list_lookup_imap_Some in Hc as (dot & _ & ->).
    destruct (Plain_renderDot_idle p None None ∅ i dot eq_refl)
      as (_ & _ & Hr & Hf).
    split; [|split].
    + cbn in Hr |- *. ring.
    + done.
    + done.
  - intros Hoff c Hc. unfold Trail.render in Hc.
    apply list_lookup_imap_Some in Hc as (dot & _ & ->).
    cbn [hoveredDot activeSet].
    assert (Hlvl : Trail.getTrailLevel p lastHit now (Z.of_nat i) = 0%Q).
    { destruct Hoff as [He| ->]; [by apply getTrailLevel_disabled|].
      by apply getTrailLevel_absent. }
    unfold Trail.renderDot, Trail.levelAndScale.
    cbn [hoverActive]. rewrite Hlvl. change (lt_num 0 0) with false.
    cbn [radius fill transition]. split; [ring|]. split; [done|].
    assert (Hb : (bool_decide (is_Some (None : option Pointer))
                  || trailEnabled p && bool_decide (0 < size lastHit)%nat)
                 = false).
    { rewrite bool_decide_eq_false_2 by (by intros [? ?]). cbn [orb].
      destruct Hoff as [-> | ->]; [done|].
      rewrite map_size_empty. rewrite bool_decide_eq_false_2 by lia.
      by destruct (trailEnabled p). }
    by rewrite Hb.
Qed.

Lemma render_idle_witness :
  let c := {| cx := 800 # 4; cy := 800 # 4; radius := 16 # 2;
              fill := "#5227FF"; transition := "none" |} in
  (radius c == baseRadiusOf defaultProps)%Q ∧ fill c = "#5227FF"
  ∧ transition c = "none".
Proof.
  intros c.
  destruct (render_idle defaultProps {| width := 400; height := 400 |} ∅ 0 40)
    as [_ H].
  exact (H ltac:(by left) c ltac:(by vm_compute)).
Defined.

(** A trailing dot (outside the cluster, with a level above 0) is drawn in
    the colour blended by its level and with the radius
    [baseRadius * (1 + intensity * level)]: the scale of the hovered dot,
    eased by the level. *)
Theorem render_trailing_dot (p : DotGridHeroProps) (d : Dimensions)
    (hover : option Pointer) (lastHit : gmap Z Q) (now : Q) (i : nat)
    (c : Circle) :
  Trail.render p d hover lastHit now !! i = Some c →
  hoverActive hover (hoveredDot hover (gridOf p d))
    (activeSet (hoveredDot hover (gridOf p d)) (colsOf p d) (rowsOf p d)
       (hoverDotCount p)) (Z.of_nat i) = None →
  let level := Trail.getTrailLevel p lastHit now (Z.of_nat i) in
  (0 < level)%Q →
  fill c = blend (baseColor p) (activeColor p) level
  ∧ (radius c
     == baseRadiusOf p * (1 + default 0.95%Q (smoothIntensity p) * level))%Q.
Proof.
  intros Hc Hact level Hpos. unfold Trail.render in Hc.
  apply list_lookup_imap_Some in Hc as (dot & _ & ->).
  unfold Trail.renderDot, Trail.levelAndScale. rewrite Hact. fold level.
  apply lt_num_spec in Hpos. rewrite Hpos. rewrite Hpos.
  cbn [radius fill]. split; [done|]. unfold intensityOf. ring.
Qed.

Lemma render_trailing_dot_witness :
  let p := {| dotSize := 16; gap := 32; baseColor := "#5227FF";
              activeColor := "#FFFFFF";
              backgroundColor := "rgba(0, 0, 0, 0)";
              circleRadius := None; hoverSquareRadius := None;
              hoverDotCount := None; smoothIntensity := None;
              trailEnabled := true; trailHoldMs := 180;
              trailFadeMs := 520 |} in
  let c := {| cx := 800 # 4; cy := 800 # 4; radius := 1227200 # 104000;
              fill := "#a993ff"; transition := Trail.transitionOn |} in
  fill c = blend (baseColor p) (activeColor p)
             (Trail.getTrailLevel p {[ 40 := 1000%Q ]} 1440 (Z.of_nat 40)).
Proof.
  intros p c.
  assert (H1 : Trail.render p {| width := 400; height := 400 |} None
                 {[ 40 := 1000%Q ]} 1440 !! 40%nat = Some c)
    by (vm_compute; reflexivity).
  assert (H3 : (0 < Trail.getTrailLevel p {[ 40%Z := 1000%Q ]} 1440
                      (Z.of_nat 40))%Q)
    by (vm_compute; reflexivity).
  exact (proj1 (render_trailing_dot p {| width := 400; height := 400 |} None
                  {[ 40 := 1000%Q ]} 1440 40 c H1 eq_refl H3)).
Defined.

(** The pointer overrides the trail: a dot of the cluster is drawn the
    same whatever the map and the clock hold. *)
Theorem hover_overrides_trail (p : DotGridHeroProps) (d : Dimensions)
    (ptr : Pointer) (lastHit1 lastHit2 : gmap Z Q) (now1 now2 : Q)
    (i : nat) :
  Z.of_nat i
    ∈ activeSet (hoveredDot (Some ptr) (gridOf p d)) (colsOf p d)
        (rowsOf p d) (hoverDotCount p) →
  Trail.render p d (Some ptr) lastHit1 now1 !! i
  = Trail.render p d (Some ptr) lastHit2 now2 !! i.
Proof.
  intros Hin. unfold Trail.render. rewrite !list_lookup_imap.
  destruct (gridOf p d !! i) as [dot|]; [|done].
  cbn [fmap option_fmap option_map]. f_equal.
  destruct (hoveredDot (Some ptr) (gridOf p d)) as [hd|] eqn:Ehd;
    [|by apply not_elem_of_empty in Hin].
  assert (Hact : hoverActive (Some ptr) (Some hd)
                   (activeSet (Some hd) (colsOf p d) (rowsOf p d)
                      (hoverDotCount p)) (Z.of_nat i) = Some hd).
  { apply hoverActive_Some. eauto. }
  unfold Trail.renderDot.
  rewrite !(Trail_levelAndScale_active _ _ _ _ _ _ _ _ _ Hact).
  by rewrite !bool_decide_eq_true_2 by eauto.
Qed.

Lemma hover_overrides_trail_witness :
  let d := {| width := 400; height := 400 |} in
  Trail.render defaultProps d (Some {| px := 200; py := 200 |})
    {[ 40 := 1000%Q ]} 1440 !! 40%nat
  = Trail.render defaultProps d (Some {| px := 200; py := 200 |}) ∅ 0
      !! 40%nat.
Proof.
  intros d.
  exact (hover_overrides_trail defaultProps d {| px := 200; py := 200 |}
           {[ 40 := 1000%Q ]} ∅ 1440 0 40
           ltac:(apply (bool_decide_unpack _); by vm_compute)).
Defined.

(** The transition of a circle is on exactly while the pointer is present
    (plain variant), or while the pointer is present or trailing is
    enabled with an entry stored (trailing variant); it is the same for
    every circle of a frame. *)
Theorem transition_flag (p : DotGridHeroProps) (d : Dimensions)
    (hover : option Pointer) (lastHit : gmap Z Q) (now : Q) (i : nat) :
  (∀ c : Circle, Plain.render p d hover !! i = Some c →
     (transition c = Plain.transitionOn ↔ is_Some hover)
     ∧ (transition c = "none" ↔ hover = None))
  ∧ (∀ c : Circle, Trail.render p d hover lastHit now !! i = Some c →
       (transition c = Trail.transitionOn
        ↔ is_Some hover ∨ (trailEnabled p = true ∧ lastHit ≠ ∅))
       ∧ (transition c = "none"
          ↔ hover = None ∧ (trailEnabled p = false ∨ lastHit = ∅))).
Proof.
  split.
  - intros c Hc. unfold Plain.render in Hc.
    apply list_lookup_imap_Some in Hc as (dot & _ & ->).
    unfold Plain.renderDot.
    destruct (hoverActive _ _ _ _); cbn [transition];
      destruct hover as [h|];
      rewrite ?bool_decide_eq_true_2 by eauto;
      rewrite ?bool_decide_eq_false_2 by (by intros [? ?]);
      (split; split; try done; by intros [? ?]).
  - intros c Hc. unfold Trail.render in Hc.
    apply list_lookup_imap_Some in Hc as (dot & _ & ->).
    unfold Trail.renderDot.
    destruct (Trail.levelAndScale _ _ _ _ _ _ _ _) as [lvl sc].
    cbn [transition].
    assert (Hsz : (0 < size lastHit)%nat ↔ lastHit ≠ ∅).
    { rewrite <- map_size_non_empty_iff. lia. }
    destruct hover as [h|].
    + rewrite bool_decide_eq_true_2 by eauto. cbn [orb].
      split; split; try done; [eauto|by intros [? _]].
    + rewrite bool_decide_eq_false_2 by (by intros [? ?]). cbn [orb].
      destruct (trailEnabled p); cbn [andb].
      * destruct (decide (lastHit = ∅)) as [->|Hne].
        -- rewrite bool_decide_eq_false_2
             by (rewrite map_size_empty; lia).
           split; split; try done.
           ++ intros [[? ?]|[_ ?]]; done.
           ++ intros _. split; [done|by right].
        -- rewrite bool_decide_eq_true_2 by (by apply Hsz).
           split; split; try done.
           ++ intros _. by right.
           ++ intros [_ [?|?]]; done.
      * split; split; try done.
        -- intros [[? ?]|[? _]]; done.
        -- intros _. split; [done|by left].
Qed.

Lemma falloffScale_range (p : DotGridHeroProps) (dist : Z) :
  (0 <= intensityOf p)%Q → 0 ≤ dist → 0 ≤ hoverRadiusOf (hoverDotCount p) →
  (1 <= falloffScale p dist)%Q ∧ (falloffScale p dist <= 1 + intensityOf p)%Q.
Proof.
  intros Hi Hd HR. unfold falloffScale.
  fold (hoverRadiusOf (hoverDotCount p)).
  set (R := hoverRadiusOf (hoverDotCount p)) in *.
  set (m := if R =? 0 then 1 else R).
  assert (Hm : 0 < m) by (unfold m; destruct (R =? 0) eqn:E; lia).
  assert (Hm' : (0 < inject_Z m)%Q)
    by (change 0%Q with (inject_Z 0); by rewrite <- Zlt_Qlt).
  assert (Hd' : (0 <= inject_Z dist)%Q)
    by (change 0%Q with (inject_Z 0); by rewrite <- Zle_Qle).
  assert (Hq : (0 <= inject_Z dist / inject_Z m)%Q).
  { unfold Qdiv. apply Qmult_le_0_compat; [done|].
    apply Qlt_le_weak. by apply Qinv_lt_0_compat. }
  set (t := (1 - inject_Z dist / inject_Z m)%Q).
  assert (H0 : (0 <= Qmax 0 t)%Q) by apply Q.le_max_l.
  assert (H1 : (Qmax 0 t <= 1)%Q) by (apply Q.max_lub; unfold t; lra).
  assert (Ha : (0 <= intensityOf p * Qmax 0 t)%Q)
    by (by apply Qmult_le_0_compat).
  assert (Hb : (0 <= intensityOf p * (1 - Qmax 0 t))%Q)
    by (apply Qmult_le_0_compat; lra).
  split; lra.
Qed.

Lemma scaled_radius_range (b s k : Q) :
  (0 <= b)%Q → (1 <= s)%Q → (s <= 1 + k)%Q →
  (b <= b * s)%Q ∧ (b * s <= b * (1 + k))%Q.
Proof.
  intros Hb H1 H2.
  assert (Ha : (0 <= b * (s - 1))%Q) by (apply Qmult_le_0_compat; lra).
  assert (Hc : (0 <= b * (1 + k - s))%Q) by (apply Qmult_le_0_compat; lra).
  split; lra.
Qed.

(** For an intensity and a base radius that are not negative, every circle
    either variant draws has a radius between the base radius and
    [baseRadius * (1 + intensity)], the radius of the hovered dot. *)
Theorem radius_range (p : DotGridHeroProps) (d : Dimensions)
    (hover : option Pointer) (lastHit : gmap Z Q) (now : Q) (i : nat) :
  (0 <= default 0.95%Q (smoothIntensity p))%Q →
  (0 <= default (dotSize p / 2)%Q (circleRadius p))%Q →
  let baseRadius := default (dotSize p / 2)%Q (circleRadius p) in
  let peak := (baseRadius * (1 + default 0.95%Q (smoothIntensity p)))%Q in
  (∀ c : Circle, Plain.render p d hover !! i = Some c →
     (baseRadius <= radius c)%Q ∧ (radius c <= peak)%Q)
  ∧ (∀ c : Circle, Trail.render p d hover lastHit now !! i = Some c →
       (baseRadius <= radius c)%Q ∧ (radius c <= peak)%Q).
Proof.
  intros Hi Hb baseRadius peak.
  change (default 0.95%Q (smoothIntensity p)) with (intensityOf p) in *.
  assert (Hactive : ∀ dot hd,
    gridOf p d !! i = Some dot →
    hoverActive hover (hoveredDot hover (gridOf p d))
      (activeSet (hoveredDot hover (gridOf p d)) (colsOf p d) (rowsOf p d)
         (hoverDotCount p)) (Z.of_nat i) = Some hd →
    (baseRadius <= baseRadius * falloffScale p (gridDist dot hd))%Q
    ∧ (baseRadius * falloffScale p (gridDist dot hd) <= peak)%Q).
  { intros dot hd Hlk Hact.
    pose proof Hact as Hact'.
    apply hoverActive_Some in Hact' as (_ & Hhd & Hin).
    rewrite Hhd in Hin.
    destruct (gridDist_in_cluster d (dotSize p) (gap p) (hoverDotCount p)
                i dot hd Hlk Hin) as [Hd0 Hd1].
    destruct (falloffScale_range p (gridDist dot hd) Hi Hd0 ltac:(lia))
      as [Hs1 Hs2].
    by apply scaled_radius_range. }
  assert (Hone : (baseRadius <= baseRadius * 1)%Q
                 ∧ (baseRadius * 1 <= peak)%Q).
  { apply scaled_radius_range; [exact Hb|lra|lra]. }
  split.
  - intros c Hc. unfold Plain.render in Hc.
    apply list_lookup_imap_Some in Hc as (dot & Hlk & ->).
    destruct (hoverActive hover _ _ (Z.of_nat i)) as [hd|] eqn:Hact.
    + destruct (Plain_renderDot_active p _ _ _ i dot hd Hact)
        as (_ & _ & -> & _).
      by apply Hactive.
    + destruct (Plain_renderDot_idle p _ _ _ i dot Hact) as (_ & _ & -> & _).
      exact Hone.
  - intros c Hc. unfold Trail.render in Hc.
    apply list_lookup_imap_Some in Hc as (dot & Hlk & ->).
    destruct (hoverActive hover _ _ (Z.of_nat i)) as [hd|] eqn:Hact.
    + destruct (Trail_renderDot_active p _ _ _ lastHit now i dot hd Hact)
        as (_ & _ & -> & _).
      by apply Hactive.
    + unfold Trail.renderDot, Trail.levelAndScale. rewrite Hact.
      destruct (getTrailLevel_bounds p lastHit now (Z.of_nat i)) as [L0 L1].
      set (level := Trail.getTrailLevel p lastHit now (Z.of_nat i)) in *.
      destruct (lt_num 0 level) eqn:E; cbn [radius].
      * assert (Es : (1 + (1 + intensityOf p - 1) * level
                      == 1 + intensityOf p * level)%Q) by ring.
        rewrite Es.
        assert (Ha : (0 <= intensityOf p * level)%Q)
          by (by apply Qmult_le_0_compat).
        assert (Hc' : (0 <= intensityOf p * (1 - level))%Q)
          by (apply Qmult_le_0_compat; lra).
        apply scaled_radius_range; [done|lra|lra].
      * assert (Es : (1 + (1 - 1) * level == 1)%Q) by ring.
        rewrite Es. exact Hone.
Qed.

Lemma radius_range_witness :
  let c := {| cx := 800 # 4; cy := 800 # 4; radius := 1227200 # 104000;
              fill := "#a993ff"; transition := Trail.transitionOn |} in
  (16 / 2 <= radius c)%Q ∧ (radius c <= 16 / 2 * (1 + 0.95))%Q.
Proof.
  intros c.
  pose (p := {| dotSize := 16; gap := 32; baseColor := "#5227FF";
                activeColor := "#FFFFFF";
                backgroundColor := "rgba(0, 0, 0, 0)";
                circleRadius := None; hoverSquareRadius := None;
                hoverDotCount := None; smoothIntensity := None;
                trailEnabled := true; trailHoldMs := 180;
                trailFadeMs := 520 |}).
  assert (H1 : Trail.render p {| width := 400; height := 400 |} None
                 {[ 40 := 1000%Q ]} 1440 !! 40%nat = Some c)
    by (vm_compute; reflexivity).
  assert (Hi : (0 <= default 0.95%Q (smoothIntensity p))%Q)
    by (vm_compute; discriminate).
  assert (Hb : (0 <= default (dotSize p / 2)%Q (circleRadius p))%Q)
    by (vm_compute; discriminate).
  exact (proj2 (radius_range p {| width := 400; height := 400 |} None
                  {[ 40 := 1000%Q ]} 1440 40 Hi Hb) c H1).
Defined.

(** ** The pointer in client coordinates *)

Lemma distSq_at_centre_eq (h : Pointer) (dot : Dot.t) :
  (px h == Dot.x dot)%Q → (py h == Dot.y dot)%Q → (distSq h dot == 0)%Q.
Proof. intros Hx Hy. unfold distSq, hypotSq. rewrite Hx, Hy. ring. Qed.

Lemma grid_centre_unique (d : Dimensions) (ds g : Q) (h : Pointer)
    (r c r' c' : Z) :
  ¬ (ds + g == 0)%Q →
  (px h == Dot.x (mkDot d ds g r c))%Q →
  (py h == Dot.y (mkDot d ds g r c))%Q →
  (distSq h (mkDot d ds g r' c') <= 0)%Q →
  r' = r ∧ c' = c.
Proof.
  intros Hcell Hx Hy Hd. unfold distSq in Hd. apply hypotSq_zero in Hd.
  destruct Hd as [Hdx Hdy]. rewrite Hx in Hdx. rewrite Hy in Hdy.
  apply (grid_centres_distinct d ds g r c r' c' Hcell).
  unfold distSq, hypotSq. cbn [px py]. rewrite Hdx, Hdy. lra.
Qed.

(** Wherever the container sits in the page, a mouse event over the centre
    of a dot makes that dot the hovered one; before the container is
    mounted a mouse event changes nothing, and leaving forgets the
    pointer. *)
Theorem pointer_follows_container (rect : DOMRect.t) (e : MouseEvent)
    (hover0 : option Pointer) (ds g : Q) (r c : Z) :
  let d := update (Some rect) {| width := 0; height := 0 |} in
  ¬ (ds + g == 0)%Q →
  0 ≤ r < rows d ds g → 0 ≤ c < cols d ds g →
  (clientX e == DOMRect.left rect + Dot.x (mkDot d ds g r c))%Q →
  (clientY e == DOMRect.top rect + Dot.y (mkDot d ds g r c))%Q →
  hoveredDot (handleMouseMove (Some rect) e hover0) (grid d ds g)
  = Some (mkDot d ds g r c)
  ∧ handleMouseMove None e hover0 = hover0
  ∧ hoveredDot (handleMouseLeave (handleMouseMove (Some rect) e hover0))
      (grid d ds g) = None.
Proof.
  intros d Hcell Hr Hc Hx Hy. split; [|done].
  cbn [handleMouseMove].
  set (h := {| px := (clientX e - DOMRect.left rect)%Q;
               py := (clientY e - DOMRect.top rect)%Q |}).
  assert (Hpx : (px h == Dot.x (mkDot d ds g r c))%Q)
    by (cbn [px h]; rewrite Hx; ring).
  assert (Hpy : (py h == Dot.y (mkDot d ds g r c))%Q)
    by (cbn [py h]; rewrite Hy; ring).
  destruct (hoveredDot_nearest (grid d ds g) h (grid_nonempty d ds g))
    as (i & dot & Hhd & Hlk & Hmin & _).
  destruct (grid_lookup_index d ds g i dot Hlk) as (_ & _ & _ & ->).
  pose proof (Hmin _ _ (grid_lookup d ds g r c Hr Hc)) as Hle.
  rewrite (distSq_at_centre_eq h (mkDot d ds g r c) Hpx Hpy) in Hle.
  destruct (grid_centre_unique d ds g h r c _ _ Hcell Hpx Hpy Hle)
    as [Er Ec].
  by rewrite Hhd, Er, Ec.
Qed.

Lemma pointer_follows_container_witness :
  let rect := DOMRect.mk 120 300 400 400 in
  let d := update (Some rect) {| width := 0; height := 0 |} in
  hoveredDot (handleMouseMove (Some rect)
                {| clientX := 320; clientY := 500 |} None) (grid d 16 32)
  = Some (mkDot d 16 32 4 4).
Proof.
  intros rect d.
  exact (proj1 (pointer_follows_container rect
                  {| clientX := 320; clientY := 500 |} None 16 32 4 4
                  ltac:(by vm_compute) ltac:(by vm_compute)
                  ltac:(by vm_compute) ltac:(by vm_compute)
                  ltac:(by vm_compute))).
Defined.
